(** * Lunar Defense: the per-frame simulation of [src/App.tsx]

    A shallow embedding of the game state, the entity factories, the
    collision test and [updateGame], followed by the properties of the
    simulation step.

    Numbers.  Every JavaScript [number] that the program only ever fills
    with integers (health, shield, damage, score, wave, tick counters,
    millisecond timestamps) is a [Z].  Coordinates, sizes, velocities and
    particle lifetimes are fractional and are exact rationals [Q]; binary
    rounding of these quantities is outside the model.  Where a rounded
    value can reach the end of a range that the exact value stays inside
    (the life, maximal life and size of a particle), the range is stated
    closed.

    Effects.  [Math.random()] and [Date.now()] are oracles: the k-th call
    made inside one invocation of [updateGame] returns [random env k],
    resp. [dateNow env k].  The body of the [setGameState] updater mutates
    [newState] and two refs in place; it is written in a state monad whose
    state is that mutable memory. *)

From Stdlib Require Import ZArith QArith Qround Qminmax List String Bool Lia Lqa.
Import ListNotations.

Local Open Scope Z_scope.

(** ** Numeric helpers *)

(** [a < b] on rationals, as a boolean. *)
Definition Qltb (a b : Q) : bool := negb (Qle_bool b a).

(** [a > b] and [a <= b], [a >= b]. *)
Definition Qgtb (a b : Q) : bool := Qltb b a.
Definition Qleb (a b : Q) : bool := Qle_bool a b.
Definition Qgeb (a b : Q) : bool := Qle_bool b a.

(** ** Data model (the interfaces of the source) *)

Record Position := mkPosition { x : Q; y : Q }.

(** [interface GameObject extends Position]: the inherited part is the
    coercion [pos]. *)
Record GameObject := mkGameObject {
  pos :> Position;
  width : Q;
  height : Q;
  velocity : Position
}.

Inductive EnemyType := scout | heavy | boss.

Definition EnemyType_eqb (a b : EnemyType) : bool :=
  match a, b with
  | scout, scout | heavy, heavy | boss, boss => true
  | _, _ => false
  end.

Module Bullet.
Record t := mk { obj : GameObject; color : string }.
End Bullet.

Module AlienBullet.
Record t := mk { obj : GameObject; color : string; damage : Z }.
End AlienBullet.

Module Enemy.
Record t := mk {
  obj : GameObject;
  health : Z;
  color : string;
  type : EnemyType;
  animationFrame : Z;
  lastShot : Z;
  shootCooldown : Z
}.
Definition set_obj (o : GameObject) (e : t) : t :=
  mk o (health e) (color e) (type e) (animationFrame e) (lastShot e) (shootCooldown e).
Definition set_health (h : Z) (e : t) : t :=
  mk (obj e) h (color e) (type e) (animationFrame e) (lastShot e) (shootCooldown e).
Definition set_animationFrame (a : Z) (e : t) : t :=
  mk (obj e) (health e) (color e) (type e) a (lastShot e) (shootCooldown e).
Definition set_lastShot (l : Z) (e : t) : t :=
  mk (obj e) (health e) (color e) (type e) (animationFrame e) l (shootCooldown e).
End Enemy.

Module Player.
Record t := mk {
  obj : GameObject;
  health : Z;
  maxHealth : Z;
  shield : Z;
  maxShield : Z;
  shieldRegenCooldown : Z;
  lastDamaged : Z;
  animationFrame : Z
}.
Definition set_obj (o : GameObject) (p : t) : t :=
  mk o (health p) (maxHealth p) (shield p) (maxShield p)
     (shieldRegenCooldown p) (lastDamaged p) (animationFrame p).
Definition set_health (h : Z) (p : t) : t :=
  mk (obj p) h (maxHealth p) (shield p) (maxShield p)
     (shieldRegenCooldown p) (lastDamaged p) (animationFrame p).
Definition set_shield (s : Z) (p : t) : t :=
  mk (obj p) (health p) (maxHealth p) s (maxShield p)
     (shieldRegenCooldown p) (lastDamaged p) (animationFrame p).
Definition set_shieldRegenCooldown (c : Z) (p : t) : t :=
  mk (obj p) (health p) (maxHealth p) (shield p) (maxShield p)
     c (lastDamaged p) (animationFrame p).
Definition set_lastDamaged (d : Z) (p : t) : t :=
  mk (obj p) (health p) (maxHealth p) (shield p) (maxShield p)
     (shieldRegenCooldown p) d (animationFrame p).
Definition set_animationFrame (a : Z) (p : t) : t :=
  mk (obj p) (health p) (maxHealth p) (shield p) (maxShield p)
     (shieldRegenCooldown p) (lastDamaged p) a.
End Player.

Module Particle.
Record t := mk {
  pos : Position;
  velocity : Position;
  life : Q;
  maxLife : Q;
  color : string;
  size : Q
}.
End Particle.

(** The [extends] clauses, usable outside the modules. *)
Coercion Bullet.obj : Bullet.t >-> GameObject.
Coercion AlienBullet.obj : AlienBullet.t >-> GameObject.
Coercion Enemy.obj : Enemy.t >-> GameObject.
Coercion Player.obj : Player.t >-> GameObject.
Coercion Particle.pos : Particle.t >-> Position.

Record GameState := mkGameState {
  player : Player.t;
  bullets : list Bullet.t;
  alienBullets : list AlienBullet.t;
  enemies : list Enemy.t;
  particles : list Particle.t;
  score : Z;
  gameOver : bool;
  paused : bool;
  wave : Z
}.

Definition CANVAS_WIDTH : Q := 900.
Definition CANVAS_HEIGHT : Q := 700.
Definition PLAYER_SPEED : Q := 6.
Definition BULLET_SPEED : Q := 8.
Definition ENEMY_SPEED : Q := 3 # 2.
Definition ALIEN_BULLET_SPEED : Q := 4.

(** [obj.x := v], [obj.y := v], [obj.velocity.x := v] on a game object. *)
Definition set_x (v : Q) (o : GameObject) : GameObject :=
  mkGameObject (mkPosition v (y o)) (width o) (height o) (velocity o).
Definition set_y (v : Q) (o : GameObject) : GameObject :=
  mkGameObject (mkPosition (x o) v) (width o) (height o) (velocity o).
Definition set_velocity_x (v : Q) (o : GameObject) : GameObject :=
  mkGameObject (pos o) (width o) (height o) (mkPosition v (y (velocity o))).

(** The argument of [useState]: the state the session starts from (and
    the one [resetGame] installs). *)
Definition initialPlayer : Player.t :=
  Player.mk
    (mkGameObject (mkPosition (CANVAS_WIDTH / 2 - 20) (CANVAS_HEIGHT - 120))
                  40 60 (mkPosition 0 0))
    100 100 100 100 0 0 0.

Definition initialState : GameState :=
  mkGameState initialPlayer [] [] [] [] 0 false false 1.

(** ** Collision utility *)

Definition checkCollision (obj1 obj2 : GameObject) : bool :=
  Qltb (x obj1) (x obj2 + width obj2) &&
  Qgtb (x obj1 + width obj1) (x obj2) &&
  Qltb (y obj1) (y obj2 + height obj2) &&
  Qgtb (y obj1 + height obj1) (y obj2).

(** ** Field updates of [GameState] *)

Definition set_player (p : Player.t) (s : GameState) : GameState :=
  mkGameState p (bullets s) (alienBullets s) (enemies s) (particles s)
              (score s) (gameOver s) (paused s) (wave s).
Definition set_bullets (l : list Bullet.t) (s : GameState) : GameState :=
  mkGameState (player s) l (alienBullets s) (enemies s) (particles s)
              (score s) (gameOver s) (paused s) (wave s).
Definition set_alienBullets (l : list AlienBullet.t) (s : GameState) : GameState :=
  mkGameState (player s) (bullets s) l (enemies s) (particles s)
              (score s) (gameOver s) (paused s) (wave s).
Definition set_enemies (l : list Enemy.t) (s : GameState) : GameState :=
  mkGameState (player s) (bullets s) (alienBullets s) l (particles s)
              (score s) (gameOver s) (paused s) (wave s).
Definition set_particles (l : list Particle.t) (s : GameState) : GameState :=
  mkGameState (player s) (bullets s) (alienBullets s) (enemies s) l
              (score s) (gameOver s) (paused s) (wave s).
Definition set_score (n : Z) (s : GameState) : GameState :=
  mkGameState (player s) (bullets s) (alienBullets s) (enemies s) (particles s)
              n (gameOver s) (paused s) (wave s).
Definition set_gameOver (b : bool) (s : GameState) : GameState :=
  mkGameState (player s) (bullets s) (alienBullets s) (enemies s) (particles s)
              (score s) b (paused s) (wave s).
Definition set_wave (n : Z) (s : GameState) : GameState :=
  mkGameState (player s) (bullets s) (alienBullets s) (enemies s) (particles s)
              (score s) (gameOver s) (paused s) n.

(** ** The environment of one frame and the mutable memory of the updater *)

(** What one invocation of [updateGame] observes from outside:
    [keysRef.current.has], and the successive results of [Math.random()]
    and [Date.now()]. *)
Record Env := mkEnv {
  keys : string -> bool;
  random : nat -> Q;
  dateNow : nat -> Z
}.

(** What survives from one frame to the next: the React state and the two
    refs the simulation writes. *)
Record World := mkWorld {
  gameState : GameState;
  lastShotRef : Z;
  animationRef : Z
}.

Definition initialWorld : World := mkWorld initialState 0 0.

(** The memory the updater mutates, plus the number of oracle calls made
    so far in this invocation. *)
Record Mem := mkMem {
  newState : GameState;
  m_lastShotRef : Z;
  m_animationRef : Z;
  randomCalls : nat;
  dateCalls : nat
}.

Definition M (A : Type) : Type := Env -> Mem -> A * Mem.

Definition ret {A} (a : A) : M A := fun _ m => (a, m).
Definition bind {A B} (c : M A) (k : A -> M B) : M B :=
  fun env m => let r := c env m in k (fst r) env (snd r).

Declare Scope game_scope.
Delimit Scope game_scope with game.
Notation "x <- c ;; k" := (bind c (fun x => k))
  (at level 61, c at next level, right associativity) : game_scope.
Notation "c ;; k" := (bind c (fun _ => k))
  (at level 61, right associativity) : game_scope.
Local Open Scope game_scope.

(** [exec c env m]: the memory after running [c]. *)
Definition exec {A} (c : M A) (env : Env) (m : Mem) : Mem := snd (c env m).
Definition eval {A} (c : M A) (env : Env) (m : Mem) : A := fst (c env m).

Definition getState : M GameState := fun _ m => (newState m, m).
Definition modifyState (f : GameState -> GameState) : M unit :=
  fun _ m => (tt, mkMem (f (newState m)) (m_lastShotRef m) (m_animationRef m)
                        (randomCalls m) (dateCalls m)).
Definition modifyPlayer (f : Player.t -> Player.t) : M unit :=
  modifyState (fun s => set_player (f (player s)) s).
Definition getLastShotRef : M Z := fun _ m => (m_lastShotRef m, m).
Definition setLastShotRef (v : Z) : M unit :=
  fun _ m => (tt, mkMem (newState m) v (m_animationRef m)
                        (randomCalls m) (dateCalls m)).
Definition getAnimationRef : M Z := fun _ m => (m_animationRef m, m).
Definition keysHas (k : string) : M bool := fun env m => (keys env k, m).

Definition MathRandom : M Q :=
  fun env m => (random env (randomCalls m),
                mkMem (newState m) (m_lastShotRef m) (m_animationRef m)
                      (S (randomCalls m)) (dateCalls m)).
Definition DateNow : M Z :=
  fun env m => (dateNow env (dateCalls m),
                mkMem (newState m) (m_lastShotRef m) (m_animationRef m)
                      (randomCalls m) (S (dateCalls m))).

(** [for (let i = 0; i < n; i++) body]. *)
Fixpoint forLoop (n : nat) (body : M unit) : M unit :=
  match n with
  | O => ret tt
  | S n' => body ;; forLoop n' body
  end.

(** [l.filter(f)] for a callback with effects. *)
Fixpoint filterM {A} (f : A -> M bool) (l : list A) : M (list A) :=
  match l with
  | [] => ret []
  | a :: l' =>
      b <- f a ;;
      r <- filterM f l' ;;
      ret (if b then a :: r else r)
  end.

(** [l.filter(f)] where the callback may also write fields of the element
    it is handed; the callback returns the verdict and the element as it
    left it. *)
Fixpoint filterMutM {A} (f : A -> M (bool * A)) (l : list A) : M (list A) :=
  match l with
  | [] => ret []
  | a :: l' =>
      ba <- f a ;;
      r <- filterMutM f l' ;;
      ret (if fst ba then snd ba :: r else r)
  end.

(** [l.forEach(f)] where the callback writes fields of the elements. *)
Fixpoint forEachMutM {A} (f : A -> M A) (l : list A) : M (list A) :=
  match l with
  | [] => ret []
  | a :: l' =>
      a' <- f a ;;
      r <- forEachMutM f l' ;;
      ret (a' :: r)
  end.

(** [l[i] = v] for an index in range, and [l.splice(i, 1)]. *)
Definition list_set {A} (i : nat) (v : A) (l : list A) : list A :=
  firstn i l ++ match skipn i l with [] => [] | _ :: t => v :: t end.
Definition splice1 {A} (i : nat) (l : list A) : list A :=
  firstn i l ++ skipn (S i) l.

(** ** Entity factories *)

Definition createParticle (px py : Q) (color : string) : M Particle.t :=
  r1 <- MathRandom ;;
  r2 <- MathRandom ;;
  r3 <- MathRandom ;;
  r4 <- MathRandom ;;
  r5 <- MathRandom ;;
  ret (Particle.mk (mkPosition px py)
                   (mkPosition ((r1 - (1#2)) * 6) ((r2 - (1#2)) * 6))
                   (30 + r3 * 20) (30 + r4 * 20) color (2 + r5 * 3))%Q.

Definition pushParticle (p : Particle.t) : M unit :=
  modifyState (fun s => set_particles (particles s ++ [p]) s).

Definition types : list EnemyType := [scout; scout; heavy; boss].

(** [types[Math.floor(r * (wave > 3 ? types.length : 2))]].  For a draw in
    $[0,1)$ the index is in range; the default of [nth] is never used. *)
Definition pickType (waveNo : Z) (r : Q) : EnemyType :=
  nth (Z.to_nat (Qfloor (r * (if waveNo >? 3 then 4 else 2))%Q)) types scout.

(** [spawnEnemy] reads [gameState.wave] of the frame it was created in. *)
Definition spawnEnemy (waveNo : Z) : M Enemy.t :=
  r <- MathRandom ;;
  let type := pickType waveNo r in
  match type with
  | heavy =>
      rx <- MathRandom ;;
      rv <- MathRandom ;;
      ret (Enemy.mk
             (mkGameObject (mkPosition (rx * (CANVAS_WIDTH - 60)) (-60)) 60 50
                           (mkPosition ((rv - (1#2)) * 1) (ENEMY_SPEED * (7#10))))%Q
             3 "#dc2626" type 0 0 0)
  | boss =>
      rx <- MathRandom ;;
      rv <- MathRandom ;;
      ret (Enemy.mk
             (mkGameObject (mkPosition (rx * (CANVAS_WIDTH - 80)) (-80)) 80 70
                           (mkPosition ((rv - (1#2)) * (1#2)) (ENEMY_SPEED * (1#2))))%Q
             5 "#7c2d12" type 0 0 0)
  | scout =>
      rx <- MathRandom ;;
      rv <- MathRandom ;;
      ret (Enemy.mk
             (mkGameObject (mkPosition (rx * (CANVAS_WIDTH - 40)) (-40)) 40 35
                           (mkPosition ((rv - (1#2)) * 2) ENEMY_SPEED))%Q
             1 "#16a34a" type 0 0 0)
  end.

(** ** The phases of the updater, in source order *)

(** Player animation frame, horizontal control and clamping to the canvas. *)
Definition playerControl : M unit :=
  frame <- getAnimationRef ;;
  modifyPlayer (Player.set_animationFrame frame) ;;
  modifyPlayer (fun p => Player.set_obj (set_velocity_x 0 p) p) ;;
  left1 <- keysHas "ArrowLeft" ;;
  left2 <- keysHas "a" ;;
  (if left1 || left2
   then modifyPlayer (fun p => Player.set_obj (set_velocity_x (- PLAYER_SPEED) p) p)
   else ret tt) ;;
  right1 <- keysHas "ArrowRight" ;;
  right2 <- keysHas "d" ;;
  (if right1 || right2
   then modifyPlayer (fun p => Player.set_obj (set_velocity_x PLAYER_SPEED p) p)
   else ret tt) ;;
  modifyPlayer (fun p => Player.set_obj (set_x (x p + x (velocity p)) p) p) ;;
  modifyPlayer (fun p =>
    Player.set_obj (set_x (Qmax 0 (Qmin (CANVAS_WIDTH - width p) (x p))) p) p).

(** Shooting, limited to one bullet per 120 ms of wall-clock time. *)
Definition playerShooting : M unit :=
  now <- DateNow ;;
  k1 <- keysHas " " ;;
  k2 <- keysHas "w" ;;
  k3 <- keysHas "ArrowUp" ;;
  last <- getLastShotRef ;;
  if (k1 || k2 || k3) && (now - last >? 120)
  then
    modifyState (fun s =>
      let p := player s in
      set_bullets
        (bullets s ++
           [Bullet.mk (mkGameObject (mkPosition (x p + width p / 2 - 2) (y p))
                                    4 12 (mkPosition 0 (- BULLET_SPEED)))
                      "#fbbf24"])%Q s) ;;
    setLastShotRef now
  else ret tt.

Definition moveBullet (b : Bullet.t) : Bullet.t :=
  Bullet.mk (set_y (y b + y (velocity b)) b) (Bullet.color b).

Definition updateBullets : M unit :=
  modifyState (fun s =>
    set_bullets
      (filter (fun b : Bullet.t => Qgtb (y b) (-15)) (map moveBullet (bullets s))) s).

Definition spawnRate (waveNo : Z) : Q := (15 # 1000) + inject_Z waveNo * (3 # 1000).

(** [closureWave] is the [gameState.wave] that [spawnEnemy] captured. *)
Definition spawnEnemies (closureWave : Z) : M unit :=
  s <- getState ;;
  r <- MathRandom ;;
  if Qltb r (spawnRate (wave s))
  then
    e <- spawnEnemy closureWave ;;
    modifyState (fun s => set_enemies (enemies s ++ [e]) s)
  else ret tt.

Definition moveEnemy (frame : Z) (e : Enemy.t) : Enemy.t :=
  Enemy.set_animationFrame frame
    (Enemy.set_obj (set_y (y e + y (velocity e)) (set_x (x e + x (velocity e)) e)) e).

Definition contactDamage (t : EnemyType) : Z :=
  if EnemyType_eqb t boss then 40 else if EnemyType_eqb t heavy then 25 else 15.

(** The callback of the enemy [filter]: off-screen removal, side bounce,
    contact with the player. *)
Definition enemyFilter (enemy : Enemy.t) : M (bool * Enemy.t) :=
  if Qgtb (y enemy) CANVAS_HEIGHT then ret (false, enemy)
  else
    let enemy :=
      if Qleb (x enemy) 0 || Qgeb (x enemy) (CANVAS_WIDTH - width enemy)
      then Enemy.set_obj (set_velocity_x (x (velocity enemy) * (-1 # 1)) enemy) enemy
      else enemy in
    s <- getState ;;
    if checkCollision enemy (player s)
    then
      modifyPlayer (fun p =>
        Player.set_health (Player.health p - contactDamage (Enemy.type enemy)) p) ;;
      forLoop 10
        (p <- createParticle (x enemy + width enemy / 2) (y enemy + height enemy / 2)
                             "#ef4444" ;;
         pushParticle p) ;;
      ret (false, enemy)
    else ret (true, enemy).

Definition updateEnemies : M unit :=
  frame <- getAnimationRef ;;
  s <- getState ;;
  es <- filterMutM enemyFilter (map (moveEnemy frame) (enemies s)) ;;
  modifyState (set_enemies es).

Definition killPoints (t : EnemyType) : Z :=
  if EnemyType_eqb t boss then 50 else if EnemyType_eqb t heavy then 25 else 10.

(** What happens when [bullet] overlaps [newState.enemies[i]]. *)
Definition bulletHit (bullet : Bullet.t) (i : nat) (enemy : Enemy.t) : M unit :=
  let enemy := Enemy.set_health (Enemy.health enemy - 1) enemy in
  modifyState (fun s => set_enemies (list_set i enemy (enemies s)) s) ;;
  forLoop 5 (p <- createParticle (x bullet) (y bullet) "#fbbf24" ;; pushParticle p) ;;
  if Enemy.health enemy <=? 0
  then
    forLoop 15
      (p <- createParticle (x enemy + width enemy / 2) (y enemy + height enemy / 2)
                           (Enemy.color enemy) ;;
       pushParticle p) ;;
    modifyState (fun s => set_score (score s + killPoints (Enemy.type enemy)) s) ;;
    modifyState (fun s => set_enemies (splice1 i (enemies s)) s)
  else ret tt.

(** [for (let i = n - 1; i >= 0; i--)] with its early [return false];
    the result is the verdict of the bullet [filter] callback. *)
Fixpoint scanEnemies (bullet : Bullet.t) (n : nat) : M bool :=
  match n with
  | O => ret true
  | S i =>
      s <- getState ;;
      match nth_error (enemies s) i with
      | Some enemy =>
          if checkCollision bullet enemy
          then bulletHit bullet i enemy ;; ret false
          else scanEnemies bullet i
      | None => scanEnemies bullet i
      end
  end.

Definition bulletFilter (bullet : Bullet.t) : M bool :=
  s <- getState ;;
  scanEnemies bullet (List.length (enemies s)).

Definition bulletEnemyCollisions : M unit :=
  s <- getState ;;
  bs <- filterM bulletFilter (bullets s) ;;
  modifyState (set_bullets bs).

(** Shield-first absorption of one enemy projectile, then the floor of
    health at 0. *)
Definition absorbDamage (damage : Z) (p : Player.t) : Player.t :=
  let p :=
    if Player.shield p >? 0
    then
      let p := Player.set_shield (Player.shield p - damage) p in
      if Player.shield p <? 0
      then Player.set_shield 0 (Player.set_health (Player.health p + Player.shield p) p)
      else p
    else Player.set_health (Player.health p - damage) p in
  if Player.health p <? 0 then Player.set_health 0 p else p.

Definition moveAlienBullet (b : AlienBullet.t) : AlienBullet.t :=
  AlienBullet.mk (set_y (y b + y (velocity b)) b)
                 (AlienBullet.color b) (AlienBullet.damage b).

(** The callback of the enemy-projectile [filter]. *)
Definition alienBulletFilter (alienBullet : AlienBullet.t) : M bool :=
  if Qgtb (y alienBullet) CANVAS_HEIGHT then ret false
  else
    s <- getState ;;
    if checkCollision alienBullet (player s)
    then
      currentTime <- DateNow ;;
      modifyPlayer (Player.set_lastDamaged currentTime) ;;
      modifyPlayer (Player.set_shieldRegenCooldown 180) ;;
      modifyPlayer (absorbDamage (AlienBullet.damage alienBullet)) ;;
      forLoop 8
        (p <- createParticle (x alienBullet) (y alienBullet) "#ef4444" ;;
         pushParticle p) ;;
      ret false
    else ret true.

Definition updateAlienBullets : M unit :=
  s <- getState ;;
  abs <- filterM alienBulletFilter (map moveAlienBullet (alienBullets s)) ;;
  modifyState (set_alienBullets abs).

Definition shootChance (t : EnemyType) : Q :=
  match t with scout => 3 # 1000 | heavy => 8 # 1000 | boss => 15 # 1000 end.
Definition cooldown (t : EnemyType) : Z :=
  match t with scout => 2000 | heavy => 1500 | boss => 800 end.
Definition alienBulletColor (t : EnemyType) : string :=
  if EnemyType_eqb t boss then "#dc2626"
  else if EnemyType_eqb t heavy then "#f97316" else "#eab308".
Definition alienBulletDamage (t : EnemyType) : Z :=
  if EnemyType_eqb t boss then 25 else if EnemyType_eqb t heavy then 15 else 8.

(** The callback of [newState.enemies.forEach]: the random draw is only
    made when the cooldown test passed (short-circuit [&&]). *)
Definition enemyShoot (enemy : Enemy.t) : M Enemy.t :=
  currentTime <- DateNow ;;
  if currentTime - Enemy.lastShot enemy >? cooldown (Enemy.type enemy)
  then
    r <- MathRandom ;;
    if Qltb r (shootChance (Enemy.type enemy))
    then
      modifyState (fun s =>
        set_alienBullets
          (alienBullets s ++
             [AlienBullet.mk
                (mkGameObject
                   (mkPosition (x enemy + width enemy / 2 - 2) (y enemy + height enemy))
                   4 8 (mkPosition 0 ALIEN_BULLET_SPEED))
                (alienBulletColor (Enemy.type enemy))
                (alienBulletDamage (Enemy.type enemy))])%Q s) ;;
      ret (Enemy.set_lastShot currentTime enemy)
    else ret enemy
  else ret enemy.

Definition enemyShooting : M unit :=
  s <- getState ;;
  es <- forEachMutM enemyShoot (enemies s) ;;
  modifyState (set_enemies es).

(** Shield regeneration: count the lockout down, then add one point of
    shield when the lockout is exactly 0. *)
Definition shieldRegen (p : Player.t) : Player.t :=
  let p :=
    if Player.shieldRegenCooldown p >? 0
    then Player.set_shieldRegenCooldown (Player.shieldRegenCooldown p - 1) p
    else p in
  if (Player.shield p <? Player.maxShield p) && (Player.shieldRegenCooldown p =? 0)
  then
    let p := Player.set_shield (Player.shield p + 1) p in
    let p :=
      if Player.shield p >? Player.maxShield p
      then Player.set_shield (Player.maxShield p) p
      else p in
    Player.set_shieldRegenCooldown 30 p
  else p.

Definition moveParticle (p : Particle.t) : Particle.t :=
  Particle.mk
    (mkPosition (x p + x (Particle.velocity p)) (y p + y (Particle.velocity p)))
    (mkPosition (x (Particle.velocity p) * (95 # 100))
                (y (Particle.velocity p) * (95 # 100)))
    (Particle.life p - 1) (Particle.maxLife p) (Particle.color p) (Particle.size p)%Q.

Definition updateParticles : M unit :=
  modifyState (fun s =>
    set_particles
      (filter (fun p => Qgtb (Particle.life p) 0) (map moveParticle (particles s))) s).

(** Wave progression; [prevScore] is [prevState.score]. *)
Definition waveProgression (prevScore : Z) : M unit :=
  s <- getState ;;
  if (score s >? 0) && (Z.rem (score s) 250 =? 0) && negb (score s =? prevScore)
  then modifyState (fun s => set_wave (wave s + 1) s)
  else ret tt.

Definition checkGameOver : M unit :=
  s <- getState ;;
  if Player.health (player s) <=? 0
  then modifyState (set_gameOver true)
  else ret tt.

(** The updater passed to [setGameState]. *)
Definition updater (closureWave : Z) : M unit :=
  prevState <- getState ;;
  playerControl ;;
  playerShooting ;;
  updateBullets ;;
  spawnEnemies closureWave ;;
  updateEnemies ;;
  bulletEnemyCollisions ;;
  updateAlienBullets ;;
  enemyShooting ;;
  modifyPlayer shieldRegen ;;
  updateParticles ;;
  waveProgression (score prevState) ;;
  checkGameOver.

(** ** The simulation step *)

(** The memory the updater starts from: the state of the world, with
    [animationRef.current++] already done and no oracle call made yet. *)
Definition startMem (w : World) : Mem :=
  mkMem (gameState w) (lastShotRef w) (animationRef w + 1) 0 0.

(** [updateGame]: nothing at all when the game is over or paused;
    otherwise [animationRef.current++] and the updater.  The guard and the
    updater read the same state. *)
Definition updateGame (env : Env) (w : World) : World :=
  if gameOver (gameState w) || paused (gameState w) then w
  else
    let m := exec (updater (wave (gameState w))) env (startMem w) in
    mkWorld (newState m) (m_lastShotRef m) (m_animationRef m).

(** The pause toggle of the key handler and of the button, and [resetGame]. *)
Definition togglePause (w : World) : World :=
  let s := gameState w in
  mkWorld (mkGameState (player s) (bullets s) (alienBullets s) (enemies s)
                       (particles s) (score s) (gameOver s) (negb (paused s)) (wave s))
          (lastShotRef w) (animationRef w).

Definition resetGame (w : World) : World :=
  mkWorld initialState (lastShotRef w) (animationRef w).

(** [run envs first n w]: the world after [n] frames starting from [w], the
    frames being numbered [first], [first+1], ... and frame [k] seeing the
    environment [envs k]. *)
Fixpoint run (envs : nat -> Env) (first n : nat) (w : World) : World :=
  match n with
  | O => w
  | S n' => run envs (S first) n' (updateGame (envs first) w)
  end.

(** The worlds a session can be in. *)
Inductive reachable : World -> Prop :=
| reachable_init : reachable initialWorld
| reachable_step env w : reachable w -> reachable (updateGame env w)
| reachable_pause w : reachable w -> reachable (togglePause w)
| reachable_reset w : reachable w -> reachable (resetGame w).

(** ** Vocabulary of the properties *)

Definition running (w : World) : bool :=
  negb (gameOver (gameState w) || paused (gameState w)).

(** The phases of the updater that precede the enemy-projectile phase. *)
Definition beforeAlienBullets (closureWave : Z) : M unit :=
  playerControl ;;
  playerShooting ;;
  updateBullets ;;
  spawnEnemies closureWave ;;
  updateEnemies ;;
  bulletEnemyCollisions.

(** The projectile [ab] (already moved) takes the collision branch of
    [alienBulletFilter] against the player [p]. *)
Definition strikes (p : Player.t) (ab : AlienBullet.t) : bool :=
  negb (Qgtb (y ab) CANVAS_HEIGHT) && checkCollision ab p.

(** Some enemy projectile hits the player during the frame that starts
    from [w] under [env]. *)
Definition playerHit (env : Env) (w : World) : bool :=
  running w &&
  let m := exec (beforeAlienBullets (wave (gameState w))) env (startMem w) in
  existsb (strikes (player (newState m)))
          (map moveAlienBullet (alienBullets (newState m))).

(** The [n] frames [first], [first+1], ... from [w] are all executed (the
    game is neither over nor paused) and none of them has an enemy
    projectile hit the player. *)
Fixpoint quiet (envs : nat -> Env) (first n : nat) (w : World) : bool :=
  match n with
  | O => true
  | S n' =>
      running w && negb (playerHit (envs first) w) &&
      quiet envs (S first) n' (updateGame (envs first) w)
  end.

Definition shieldOf (w : World) : Z := Player.shield (player (gameState w)).
Definition maxShieldOf (w : World) : Z := Player.maxShield (player (gameState w)).
Definition healthOf (w : World) : Z := Player.health (player (gameState w)).
Definition lockoutOf (w : World) : Z :=
  Player.shieldRegenCooldown (player (gameState w)).

(** Shield points regenerated [k] ticks after the tick of a hit, as long
    as the shield stays below its maximum. *)
Definition regenPoints (k : nat) : Z :=
  if (Z.of_nat k <? 179) then 0 else 1 + (Z.of_nat k - 179) / 30.

(** The regeneration property as the specification words it: after a hit
    in frame [T], no frame before [T + 180] raises the shield. *)
Definition shield_locked_for_180_ticks : Prop :=
  forall (envs : nat -> Env) (T k : nat) (w : World),
    playerHit (envs T) w = true ->
    quiet envs (S T) k (updateGame (envs T) w) = true ->
    (k < 180)%nat ->
    shieldOf (run envs T (S k) w) <= shieldOf (run envs T 1 w).

(** The enemy [e] (already moved) reaches the contact test of
    [enemyFilter] and overlaps the body [o]. *)
Definition touches (o : GameObject) (e : Enemy.t) : bool :=
  negb (Qgtb (y e) CANVAS_HEIGHT) && checkCollision e o.

(** The enemy [e] (already moved) is kept by [enemyFilter]. *)
Definition survives (o : GameObject) (e : Enemy.t) : bool :=
  negb (Qgtb (y e) CANVAS_HEIGHT) && negb (checkCollision e o).

(** The sum of the contact damage of the enemies of [l] selected by [hit]. *)
Fixpoint totalContactDamage (hit : Enemy.t -> bool) (l : list Enemy.t) : Z :=
  match l with
  | [] => 0
  | e :: l' =>
      (if hit e then contactDamage (Enemy.type e) else 0)
      + totalContactDamage hit l'
  end.

(** The side bounce of [enemyFilter], alone. *)
Definition bounce (enemy : Enemy.t) : Enemy.t :=
  if Qleb (x enemy) 0 || Qgeb (x enemy) (CANVAS_WIDTH - width enemy)
  then Enemy.set_obj (set_velocity_x (x (velocity enemy) * (-1 # 1)) enemy) enemy
  else enemy.

(** ** Concrete sessions *)

(** The wall clock of frame [k]: a millisecond timestamp, 17 ms per frame. *)
Definition clockAt (k : nat) : Z := 1700000000000 + 17 * Z.of_nat k.

(** Every random draw is 1/2: nothing spawns and nothing shoots. *)
Definition halfDraws : nat -> Q := fun _ => (1 # 2)%Q.

(** The first draw (the spawn test) is 0: an enemy spawns; with the other
    draws at 1/2 it is a scout at x = 430 with no sideways drift. *)
Definition spawnDraws : nat -> Q :=
  fun k => match k with O => 0%Q | _ => (1 # 2)%Q end.

(** The first draw (the spawn test) is 1/2 and the second (the shooting
    chance of the first enemy whose cooldown has elapsed) is 0: that enemy
    shoots. *)
Definition shootDraws : nat -> Q :=
  fun k => match k with 1%nat => 0%Q | _ => (1 # 2)%Q end.

(** No key held. *)
Definition noKeys : string -> bool := fun _ => false.

Definition idleEnv : Env := mkEnv noKeys halfDraws (fun _ => clockAt 0).
Definition spawnEnv : Env := mkEnv noKeys spawnDraws (fun _ => clockAt 0).

(** Seven scouts spawn in the frames 0..6 straight above the idle player. *)
Definition sevenScouts (k : nat) : Env :=
  mkEnv noKeys (if (k <? 7)%nat then spawnDraws else halfDraws) (fun _ => clockAt k).

(** One scout spawns in frame 0 and shoots once, in frame 1. *)
Definition oneShot (k : nat) : Env :=
  mkEnv noKeys
        match k with
        | O => spawnDraws
        | 1%nat => shootDraws
        | _ => halfDraws
        end
        (fun _ => clockAt k).

(** The initial world with one scout that has come down onto the player. *)
Definition ramWorld : World :=
  mkWorld
    (set_enemies
       [Enemy.mk (mkGameObject (mkPosition 430 560) 40 35 (mkPosition 0 ENEMY_SPEED))
                 1 "#16a34a" scout 0 0 0]
       initialState)
    0 0.

(** An enemy of type [t] with one point of health left, at [(ex, 100)], and
    a player bullet that will overlap it once both have moved. *)
Definition lastLeg (t : EnemyType) (ex : Q) : Enemy.t :=
  Enemy.mk (mkGameObject (mkPosition ex 100) 40 35 (mkPosition 0 ENEMY_SPEED))
           1 "#16a34a" t 0 0 0.
Definition shotAt (ex : Q) : Bullet.t :=
  Bullet.mk (mkGameObject (mkPosition (ex + 10) 120) 4 12 (mkPosition 0 (- BULLET_SPEED)))
            "#fbbf24".

(** The initial world at score [score0], with one enemy of type [t] about
    to be killed. *)
Definition killWorld (t : EnemyType) (score0 : Z) : World :=
  mkWorld
    (set_score score0
       (set_bullets [shotAt 100] (set_enemies [lastLeg t 100] initialState)))
    0 0.

(** The initial world with a scout, a heavy and a boss about to be killed
    by three bullets. *)
Definition threeKillsWorld : World :=
  mkWorld
    (set_bullets [shotAt 100; shotAt 300; shotAt 500]
       (set_enemies [lastLeg boss 500; lastLeg heavy 300; lastLeg scout 100]
          initialState))
    0 0.

(** Every enemy of the memory has at least one point of health. *)
Definition alive (e : Enemy.t) : Prop := 1 <= Enemy.health e.
Definition allAlive (m : Mem) : Prop := Forall alive (enemies (newState m)).

(** What shield regeneration reads and writes: shield, maximal shield and
    lockout of the player of a memory. *)
Definition viewOf (p : Player.t) : Z * Z * Z :=
  (Player.shield p, Player.maxShield p, Player.shieldRegenCooldown p).
Definition regenView (m : Mem) : Z * Z * Z := viewOf (player (newState m)).

(** [shieldRegen], on that view. *)
Definition regenNext (v : Z * Z * Z) : Z * Z * Z :=
  let '(s, mx, c) := v in
  let c1 := if c >? 0 then c - 1 else c in
  if (s <? mx) && (c1 =? 0)
  then (if s + 1 >? mx then mx else s + 1, mx, 30)
  else (s, mx, c1).

(** The regeneration view [z] ticks after the tick of a hit that left the
    shield at [s0], as long as no projectile hits again. *)
Definition closedView (s0 mx z : Z) : Z * Z * Z :=
  if z <? 179 then (s0, mx, 179 - z)
  else
    let t := z - 179 in
    (Z.min mx (s0 + 1 + t / 30), mx,
     if s0 + t / 30 <? mx then 30 - t mod 30 else 0).

(** The bounds of the player that do hold in every world, and what they
    rest on: the maxima are 100, health is at most its maximum, the shield
    is between 0 and its maximum, the box of the player lies in the canvas,
    and every enemy projectile in flight has a positive damage. *)
Definition playerBounds (p : Player.t) (shots : list AlienBullet.t) : Prop :=
  Player.maxHealth p = 100 /\ Player.maxShield p = 100 /\
  Player.health p <= Player.maxHealth p /\
  0 <= Player.shield p <= Player.maxShield p /\
  (y p + height p <= CANVAS_HEIGHT)%Q /\
  Forall (fun ab => 0 < AlienBullet.damage ab) shots.

Definition bounded (m : Mem) : Prop :=
  playerBounds (player (newState m)) (alienBullets (newState m)).

(** [c] maintains the property [I] of the memory. *)
Definition preserves {A} (I : Mem -> Prop) (c : M A) : Prop :=
  forall env m, I m -> I (exec c env m).

(** [wp c env m Q]: running [c] from [m] under [env] yields a result and a
    memory that satisfy [Q]. *)
Definition wp {A} (c : M A) (env : Env) (m : Mem) (Q : A -> Mem -> Prop) : Prop :=
  Q (eval c env m) (exec c env m).

(** Two bodies used to probe the collision test: a 10 x 10 box at the
    origin and a body of width 0 and height 0 lying strictly inside it. *)
Definition probeBox : GameObject :=
  mkGameObject (mkPosition 0 0) 10 10 (mkPosition 0 0).

(** An enemy projectile of damage [d] lying on the initial player. *)
Definition probeShot (d : Z) : AlienBullet.t :=
  AlienBullet.mk (mkGameObject (mkPosition 440 600) 4 8 (mkPosition 0 4)) "#eab308" d.

(** ** Vocabulary of the further properties *)

(** The controls as [updateGame] reads them from [keysRef]. *)
Definition leftHeld (env : Env) : bool := keys env "ArrowLeft" || keys env "a".
Definition rightHeld (env : Env) : bool := keys env "ArrowRight" || keys env "d".
Definition fireHeld (env : Env) : bool :=
  keys env " " || keys env "w" || keys env "ArrowUp".

(** The player fires in the frame that starts from [w] under [env]: a fire
    key is held and the first clock reading is more than 120 ms after
    [lastShotRef]. *)
Definition fires (env : Env) (w : World) : bool :=
  fireHeld env && (dateNow env 0 - lastShotRef w >? 120).

(** Everything the updater does after [playerControl]. *)
Definition afterControl (closureWave prevScore : Z) : M unit :=
  playerShooting ;;
  updateBullets ;;
  spawnEnemies closureWave ;;
  updateEnemies ;;
  bulletEnemyCollisions ;;
  updateAlienBullets ;;
  enemyShooting ;;
  modifyPlayer shieldRegen ;;
  updateParticles ;;
  waveProgression prevScore ;;
  checkGameOver.

(** The box of the player of a world. *)
Definition boxOf (w : World) : GameObject := Player.obj (player (gameState w)).

(** Every frame sees [idleEnv]. *)
Definition idleEnvs (k : nat) : Env := idleEnv.

(** The bounds of the player together with a cap [h0] on its health and a
    cap [s0] on its shield. *)
Definition playerCap (h0 s0 : Z) (p : Player.t) (shots : list AlienBullet.t) : Prop :=
  playerBounds p shots /\ Player.health p <= h0 /\ Player.shield p <= s0.

Definition capped (h0 s0 : Z) (m : Mem) : Prop :=
  playerCap h0 s0 (player (newState m)) (alienBullets (newState m)).

(** The constants [spawnEnemy] gives each type of enemy. *)
Definition typeWidth (t : EnemyType) : Q :=
  match t with scout => 40 | heavy => 60 | boss => 80 end.
Definition typeHeight (t : EnemyType) : Q :=
  match t with scout => 35 | heavy => 50 | boss => 70 end.
Definition typeHealth (t : EnemyType) : Z :=
  match t with scout => 1 | heavy => 3 | boss => 5 end.
Definition typeSpeed (t : EnemyType) : Q :=
  match t with
  | scout => ENEMY_SPEED
  | heavy => ENEMY_SPEED * (7 # 10)
  | boss => ENEMY_SPEED * (1 # 2)
  end.

(** An enemy has the size and the falling speed of its type, and at most
    the health its type starts with. *)
Definition wellFormedEnemy (e : Enemy.t) : Prop :=
  width e = typeWidth (Enemy.type e) /\ height e = typeHeight (Enemy.type e) /\
  y (velocity e) = typeSpeed (Enemy.type e) /\
  Enemy.health e <= typeHealth (Enemy.type e).

Definition wellFormed (m : Mem) : Prop := Forall wellFormedEnemy (enemies (newState m)).

(** The enemy [e] is on the canvas or above it, and does not overlap the
    body [o]. *)
Definition atRest (o : GameObject) (e : Enemy.t) : Prop :=
  (y e <= CANVAS_HEIGHT)%Q /\ checkCollision e o = false.

Definition settled (m : Mem) : Prop :=
  Forall (atRest (player (newState m))) (enemies (newState m)).

(** Everything the updater does after the enemy phase. *)
Definition afterEnemies (prevScore : Z) : M unit :=
  bulletEnemyCollisions ;;
  updateAlienBullets ;;
  enemyShooting ;;
  modifyPlayer shieldRegen ;;
  updateParticles ;;
  waveProgression prevScore ;;
  checkGameOver.

(** An enemy projectile as [enemyShoot] builds it: 4 by 8, falling at
    [ALIEN_BULLET_SPEED], with the damage of one of the three types. *)
Definition shotOk (ab : AlienBullet.t) : Prop :=
  (AlienBullet.damage ab = 8 \/ AlienBullet.damage ab = 15 \/
   AlienBullet.damage ab = 25) /\
  width ab = 4%Q /\ height ab = 8%Q /\
  velocity ab = mkPosition 0 ALIEN_BULLET_SPEED.

(** A player bullet as [playerShooting] builds it: 4 by 12, rising at
    [BULLET_SPEED]. *)
Definition bulletShape (b : Bullet.t) : Prop :=
  width b = 4%Q /\ height b = 12%Q /\ velocity b = mkPosition 0 (- BULLET_SPEED).

(** The enemy [e] passes both gates of [enemyShoot] at clock reading [now]
    and draw [r]. *)
Definition shoots (now : Z) (r : Q) (e : Enemy.t) : bool :=
  (now - Enemy.lastShot e >? cooldown (Enemy.type e)) &&
  Qltb r (shootChance (Enemy.type e)).

(** Every draw is 0: every gate on a random draw passes. *)
Definition eagerEnv : Env := mkEnv noKeys (fun _ => 0%Q) (fun _ => clockAt 0).

(** The space bar held, nothing spawning. *)
Definition trigger : Env :=
  mkEnv (fun k => String.eqb k " ") halfDraws (fun _ => clockAt 0).

(** [Math.random()] returns a number in $[0,1)$. *)
Definition validDraws (env : Env) : Prop :=
  forall k, (0 <= random env k)%Q /\ (random env k < 1)%Q.

(** What the overlay and [draw] compute from the state: the widths of the
    health and shield bars in percent, the value [shieldAlpha] of
    [drawPlayer] (computed when the shield is positive), and the opacity of
    a particle. *)
Definition healthBarPercent (s : GameState) : Q :=
  inject_Z (Player.health (player s)) / inject_Z (Player.maxHealth (player s)) * 100.
Definition shieldBarPercent (s : GameState) : Q :=
  inject_Z (Player.shield (player s)) / inject_Z (Player.maxShield (player s)) * 100.
Definition shieldAlpha (p : Player.t) : Q :=
  inject_Z (Player.shield p) / inject_Z (Player.maxShield p) * (6 # 10) + (2 # 10).
Definition particleAlpha (p : Particle.t) : Q :=
  Particle.life p / Particle.maxLife p.

(** The opacities [drawPlayer] gives the shield: the stops of the glow at
    0 and at 0.6 (the stop at 1 has opacity 0) and the border. *)
Definition shieldGlowInner (p : Player.t) : Q := shieldAlpha p * (8 # 10).
Definition shieldGlowMiddle (p : Player.t) : Q := shieldAlpha p * (4 # 10).
Definition shieldBorder (p : Player.t) : Q := shieldAlpha p.

(** A command maintains a property under one environment. *)
Definition keeps {A} (env : Env) (I : Mem -> Prop) (c : M A) : Prop :=
  forall m, I m -> I (exec c env m).

(** A particle inside a frame, as the factory makes it or as an earlier
    frame left it: alive, with a life of at most 50, a maximal life in
    [30,50], a size in [2,5] and velocity components in [-3,3). *)
Definition particleFresh (p : Particle.t) : Prop :=
  (0 < Particle.life p)%Q /\ (Particle.life p <= 50)%Q /\
  (30 <= Particle.maxLife p)%Q /\ (Particle.maxLife p <= 50)%Q /\
  (2 <= Particle.size p)%Q /\ (Particle.size p <= 5)%Q /\
  (-3 <= x (Particle.velocity p))%Q /\ (x (Particle.velocity p) < 3)%Q /\
  (-3 <= y (Particle.velocity p))%Q /\ (y (Particle.velocity p) < 3)%Q.

(** A particle of a state between two frames: it has been aged at least
    once, so its life is at most 49. *)
Definition particleOk (p : Particle.t) : Prop :=
  particleFresh p /\ (Particle.life p <= 49)%Q.

Definition particlesFresh (m : Mem) : Prop :=
  Forall particleFresh (particles (newState m)).

(** The phases of the updater that precede the particle phase. *)
Definition beforeParticles (closureWave : Z) : M unit :=
  playerControl ;;
  playerShooting ;;
  updateBullets ;;
  spawnEnemies closureWave ;;
  updateEnemies ;;
  bulletEnemyCollisions ;;
  updateAlienBullets ;;
  enemyShooting ;;
  modifyPlayer shieldRegen.

(** ** Vocabulary of the projectile phases *)

(** The phases of the updater that precede the move of the enemies. *)
Definition beforeEnemies (closureWave : Z) : M unit :=
  playerControl ;; playerShooting ;; updateBullets ;; spawnEnemies closureWave.

(** The health the enemies take from the player by contact in the frame
    that starts from [w] under [env]. *)
Definition contactLoss (env : Env) (w : World) : Z :=
  let m := exec (beforeEnemies (wave (gameState w))) env (startMem w) in
  totalContactDamage (touches (player (newState m)))
                     (map (moveEnemy (m_animationRef m)) (enemies (newState m))).

(** The player as that frame has it when the enemy projectiles are about
    to be resolved. *)
Definition playerBeforeShots (env : Env) (w : World) : Player.t :=
  player (newState (exec (beforeAlienBullets (wave (gameState w))) env (startMem w))).

(** The enemy projectiles of [w] that strike the player in that frame, in
    the order of the list. *)
Definition frameHits (env : Env) (w : World) : list AlienBullet.t :=
  filter (strikes (playerBeforeShots env w))
         (map moveAlienBullet (alienBullets (gameState w))).

(** The projectiles of [hits] absorbed one after the other. *)
Definition absorbAll (hits : list AlienBullet.t) (p : Player.t) : Player.t :=
  fold_left (fun q ab => absorbDamage (AlienBullet.damage ab) q) hits p.

(** What absorption reads and writes: shield and health. *)
Definition damageView (p : Player.t) : Z * Z := (Player.shield p, Player.health p).

(** The initial world with the shield at [s] and one enemy projectile of
    damage [d] about to reach the player. *)
Definition shotWorld (s d : Z) : World :=
  mkWorld
    (set_alienBullets [probeShot d]
       (set_player (Player.set_shield s (player initialState)) initialState))
    0 0.

(** The downward scan of the enemy list by the bullet [b], from index
    [n - 1]: the enemy it stops at, with its index. *)
Fixpoint firstOverlap (b : Bullet.t) (es : list Enemy.t) (n : nat)
  : option (nat * Enemy.t) :=
  match n with
  | O => None
  | S i =>
      match nth_error es i with
      | Some e => if checkCollision b e then Some (i, e) else firstOverlap b es i
      | None => firstOverlap b es i
      end
  end.

(** The enemy list and the score after the enemy [e], found at index [i],
    has taken one hit. *)
Definition hitEnemy (i : nat) (e : Enemy.t) (st : list Enemy.t * Z)
  : list Enemy.t * Z :=
  if Enemy.health e - 1 <=? 0
  then (splice1 i (fst st), snd st + killPoints (Enemy.type e))
  else (list_set i (Enemy.set_health (Enemy.health e - 1) e) (fst st), snd st).

(** The bullets of [bs] resolved one after the other, in order, against
    the enemy list as the earlier bullets left it: the bullets that stay,
    the enemy list and the score. *)
Fixpoint resolveBullets (bs : list Bullet.t) (st : list Enemy.t * Z)
  : list Bullet.t * (list Enemy.t * Z) :=
  match bs with
  | [] => ([], st)
  | b :: bs' =>
      match firstOverlap b (fst st) (List.length (fst st)) with
      | None => let r := resolveBullets bs' st in (b :: fst r, snd r)
      | Some (i, e) => resolveBullets bs' (hitEnemy i e st)
      end
  end.

(** The health of all the enemies of a list together. *)
Fixpoint totalHealth (l : list Enemy.t) : Z :=
  match l with
  | [] => 0
  | e :: l' => Enemy.health e + totalHealth l'
  end.

(** * Properties *)

(** ** Rational comparisons *)

Lemma Qltb_lt (a b : Q) : Qltb a b = true <-> (a < b)%Q.
Proof.
  unfold Qltb. rewrite negb_true_iff.
  split; intro H.
  - apply Qnot_le_lt. intro L. apply Qle_bool_iff in L. congruence.
  - destruct (Qle_bool b a) eqn:E; [|reflexivity].
    apply Qle_bool_iff in E. exfalso. exact (Qlt_not_le _ _ H E).
Qed.

Lemma Qltb_ge (a b : Q) : Qltb a b = false <-> (b <= a)%Q.
Proof.
  unfold Qltb. rewrite negb_false_iff. apply Qle_bool_iff.
Qed.

(** ** Collision utility *)

Lemma checkCollision_true (a b : GameObject) :
  checkCollision a b = true <->
  ((x a < x b + width b) /\ (x b < x a + width a) /\
   (y a < y b + height b) /\ (y b < y a + height a))%Q.
Proof.
  unfold checkCollision, Qgtb.
  rewrite !andb_true_iff, !Qltb_lt. tauto.
Qed.




(** ** The guard of the step *)

(** C8: with [gameOver] or [paused] set, the step returns the world it
    was given: game state and refs are all untouched, whatever the keys
    held (fire included), the clock and the random draws. *)
Theorem updateGame_noop (env : Env) (w : World) :
  gameOver (gameState w) = true \/ paused (gameState w) = true ->
  updateGame env w = w.
Proof.
  intros [H | H]; unfold updateGame; rewrite H.
  - reflexivity.
  - rewrite orb_true_r. reflexivity.
Qed.

Lemma updateGame_noop_witness :
  updateGame (mkEnv (fun _ => true) (fun _ => 0%Q) (fun _ => clockAt 0))
             (togglePause initialWorld)
  = togglePause initialWorld.
Proof.
  apply updateGame_noop. right. reflexivity.
Defined.

(** ** Reasoning about the updater *)

Lemma exec_bind {A B} (c : M A) (k : A -> M B) env m :
  exec (bind c k) env m = exec (k (eval c env m)) env (exec c env m).
Proof. reflexivity. Qed.

Lemma eval_bind {A B} (c : M A) (k : A -> M B) env m :
  eval (bind c k) env m = eval (k (eval c env m)) env (exec c env m).
Proof. reflexivity. Qed.

Lemma preserves_ret {A} (I : Mem -> Prop) (a : A) : preserves I (ret a).
Proof. intros env m H. exact H. Qed.

Lemma preserves_bind {A B} (I : Mem -> Prop) (c : M A) (k : A -> M B) :
  preserves I c -> (forall a, preserves I (k a)) -> preserves I (bind c k).
Proof.
  intros Hc Hk env m H. rewrite exec_bind. apply Hk, Hc, H.
Qed.

Lemma preserves_forLoop (I : Mem -> Prop) (n : nat) (body : M unit) :
  preserves I body -> preserves I (forLoop n body).
Proof.
  intro Hb. induction n as [|n IH]; simpl.
  - apply preserves_ret.
  - apply preserves_bind; [exact Hb | intros _; exact IH].
Qed.

Lemma preserves_filterM {A} (I : Mem -> Prop) (f : A -> M bool) (l : list A) :
  (forall a, preserves I (f a)) -> preserves I (filterM f l).
Proof.
  intro Hf. induction l as [|a l IH]; simpl.
  - apply preserves_ret.
  - apply preserves_bind; [apply Hf | intro b].
    apply preserves_bind; [exact IH | intro r; apply preserves_ret].
Qed.

Lemma preserves_filterMutM {A} (I : Mem -> Prop) (f : A -> M (bool * A)) (l : list A) :
  (forall a, preserves I (f a)) -> preserves I (filterMutM f l).
Proof.
  intro Hf. induction l as [|a l IH]; simpl.
  - apply preserves_ret.
  - apply preserves_bind; [apply Hf | intro b].
    apply preserves_bind; [exact IH | intro r; apply preserves_ret].
Qed.

Lemma preserves_forEachMutM {A} (I : Mem -> Prop) (f : A -> M A) (l : list A) :
  (forall a, preserves I (f a)) -> preserves I (forEachMutM f l).
Proof.
  intro Hf. induction l as [|a l IH]; simpl.
  - apply preserves_ret.
  - apply preserves_bind; [apply Hf | intro b].
    apply preserves_bind; [exact IH | intro r; apply preserves_ret].
Qed.

(** Unfolding of the primitive commands, down to the memory record. *)
Ltac prim :=
  cbv [exec eval bind ret getState modifyState modifyPlayer getLastShotRef
       setLastShotRef getAnimationRef keysHas MathRandom DateNow
       createParticle pushParticle fst snd].

(** A command made of primitives only maintains a property that does not
    read what the command writes. *)
Ltac leaf := let H := fresh in intros ? ? H; prim; cbn; exact H.

(** Structural descent through a command, by its syntax. *)
Ltac frame :=
  lazymatch goal with
  | |- preserves _ (bind _ _) => apply preserves_bind; [frame | intro; frame]
  | |- preserves _ (ret _) => apply preserves_ret
  | |- preserves _ (forLoop _ _) => apply preserves_forLoop; frame
  | |- preserves _ (filterM _ _) => apply preserves_filterM; intro; frame
  | |- preserves _ (filterMutM _ _) => apply preserves_filterMutM; intro; frame
  | |- preserves _ (forEachMutM _ _) => apply preserves_forEachMutM; intro; frame
  | |- preserves _ (if ?b then _ else _) => destruct b; frame
  | |- preserves _ (match ?t with scout => _ | heavy => _ | boss => _ end) =>
      destruct t; frame
  | |- _ => first [assumption | leaf | idtac]
  end.

(** A burst of particles only touches the particle list and the count of
    random draws. *)
Lemma preserves_burst (I : Mem -> Prop) n px py c :
  (forall s ps l a rc rc' dc,
      I (mkMem s l a rc dc) -> I (mkMem (set_particles ps s) l a rc' dc)) ->
  preserves I (forLoop n (p <- createParticle px py c ;; pushParticle p)).
Proof.
  intros HI. apply preserves_forLoop.
  intros env [s l a rc dc] H. prim. cbn. apply (HI _ _ _ _ rc). exact H.
Qed.

(** Stepping through a command, one primitive at a time. *)
Lemma wp_bind {A B} (c : M A) (k : A -> M B) env m Q :
  wp c env m (fun a m' => wp (k a) env m' Q) -> wp (bind c k) env m Q.
Proof. exact (fun H => H). Qed.

Lemma wp_ret {A} (a : A) env m (Q : A -> Mem -> Prop) : Q a m -> wp (ret a) env m Q.
Proof. exact (fun H => H). Qed.

Lemma wp_getState env m (Q : GameState -> Mem -> Prop) :
  Q (newState m) m -> wp getState env m Q.
Proof. exact (fun H => H). Qed.

Lemma wp_modifyState f env m (Q : unit -> Mem -> Prop) :
  Q tt (mkMem (f (newState m)) (m_lastShotRef m) (m_animationRef m)
              (randomCalls m) (dateCalls m)) ->
  wp (modifyState f) env m Q.
Proof. exact (fun H => H). Qed.

Lemma wp_modifyPlayer f env m (Q : unit -> Mem -> Prop) :
  Q tt (mkMem (set_player (f (player (newState m))) (newState m))
              (m_lastShotRef m) (m_animationRef m) (randomCalls m) (dateCalls m)) ->
  wp (modifyPlayer f) env m Q.
Proof. exact (fun H => H). Qed.

Lemma wp_getLastShotRef env m (Q : Z -> Mem -> Prop) :
  Q (m_lastShotRef m) m -> wp getLastShotRef env m Q.
Proof. exact (fun H => H). Qed.

Lemma wp_setLastShotRef v env m (Q : unit -> Mem -> Prop) :
  Q tt (mkMem (newState m) v (m_animationRef m) (randomCalls m) (dateCalls m)) ->
  wp (setLastShotRef v) env m Q.
Proof. exact (fun H => H). Qed.

Lemma wp_getAnimationRef env m (Q : Z -> Mem -> Prop) :
  Q (m_animationRef m) m -> wp getAnimationRef env m Q.
Proof. exact (fun H => H). Qed.

Lemma wp_keysHas k env m (Q : bool -> Mem -> Prop) :
  Q (keys env k) m -> wp (keysHas k) env m Q.
Proof. exact (fun H => H). Qed.

Lemma wp_MathRandom env m (Q : Q -> Mem -> Prop) :
  Q (random env (randomCalls m))
    (mkMem (newState m) (m_lastShotRef m) (m_animationRef m)
           (S (randomCalls m)) (dateCalls m)) ->
  wp MathRandom env m Q.
Proof. exact (fun H => H). Qed.

Lemma wp_DateNow env m (Q : Z -> Mem -> Prop) :
  Q (dateNow env (dateCalls m))
    (mkMem (newState m) (m_lastShotRef m) (m_animationRef m)
           (randomCalls m) (S (dateCalls m))) ->
  wp DateNow env m Q.
Proof. exact (fun H => H). Qed.

(** A command that maintains [I] can be crossed with [I] alone. *)
Lemma wp_preserves {A} (I : Mem -> Prop) (c : M A) env m (Q : A -> Mem -> Prop) :
  preserves I c -> I m -> (forall a m', I m' -> Q a m') -> wp c env m Q.
Proof.
  intros Hc Hm HQ. apply HQ. apply Hc. exact Hm.
Qed.

Lemma wp_exec {A} (c : M A) env m (P : Mem -> Prop) :
  wp c env m (fun _ m' => P m') -> P (exec c env m).
Proof. exact (fun H => H). Qed.

Lemma wp_eval_exec {A} (c : M A) env m (P : A -> Mem -> Prop) :
  wp c env m P -> P (eval c env m) (exec c env m).
Proof. exact (fun H => H). Qed.

Ltac mem_simpl :=
  cbn [newState m_lastShotRef m_animationRef randomCalls dateCalls].

Ltac wp_step :=
  lazymatch goal with
  | |- wp (bind _ _) _ _ _ => apply wp_bind
  | |- wp (ret _) _ _ _ => apply wp_ret
  | |- wp getState _ _ _ => apply wp_getState
  | |- wp (modifyState _) _ _ _ => apply wp_modifyState
  | |- wp (modifyPlayer _) _ _ _ => apply wp_modifyPlayer
  | |- wp getLastShotRef _ _ _ => apply wp_getLastShotRef
  | |- wp (setLastShotRef _) _ _ _ => apply wp_setLastShotRef
  | |- wp getAnimationRef _ _ _ => apply wp_getAnimationRef
  | |- wp (keysHas _) _ _ _ => apply wp_keysHas
  | |- wp MathRandom _ _ _ => apply wp_MathRandom
  | |- wp DateNow _ _ _ => apply wp_DateNow
  end; mem_simpl.

Ltac wp_steps := repeat wp_step.

(** ** Enemy types *)

Lemma Qfloor_unique (q : Q) (k : Z) :
  (inject_Z k <= q)%Q -> (q < inject_Z (k + 1))%Q -> Qfloor q = k.
Proof.
  intros L U.
  assert (k <= Qfloor q).
  { rewrite <- (Qfloor_Z k). apply Qfloor_resp_le. exact L. }
  assert (Qfloor q < k + 1).
  { rewrite Zlt_Qlt. eapply Qle_lt_trans; [apply Qfloor_le | exact U]. }
  lia.
Qed.

Lemma spawnEnemy_pickType env m waveNo :
  Enemy.type (eval (spawnEnemy waveNo) env m)
  = pickType waveNo (random env (randomCalls m)).
Proof.
  unfold spawnEnemy. rewrite eval_bind.
  change (eval MathRandom env m) with (random env (randomCalls m)).
  destruct (pickType waveNo (random env (randomCalls m))); reflexivity.
Qed.

Lemma pickType_slot (waveNo : Z) (r : Q) (n : Z) (k : Z) :
  (if waveNo >? 3 then 4 else 2)%Q = inject_Z n ->
  (inject_Z k <= r * inject_Z n)%Q -> (r * inject_Z n < inject_Z (k + 1))%Q ->
  pickType waveNo r = nth (Z.to_nat k) types scout.
Proof.
  intros E L U. unfold pickType. rewrite E.
  rewrite (Qfloor_unique _ k L U). reflexivity.
Qed.

(** C9: up to wave 3 every spawned enemy is a scout, whatever the draw;
    from wave 4 on, the draw is cut into four slots of width 1/4 that
    select, in order, scout, scout, heavy and boss. *)
Theorem spawnEnemy_type (env : Env) (m : Mem) (waveNo : Z) :
  let r := random env (randomCalls m) in
  let e := eval (spawnEnemy waveNo) env m in
  (0 <= r)%Q -> (r < 1)%Q ->
  (waveNo <= 3 -> Enemy.type e = scout) /\
  (waveNo > 3 ->
   ((r < 1 # 4)%Q -> Enemy.type e = scout) /\
   ((1 # 4 <= r)%Q -> (r < 1 # 2)%Q -> Enemy.type e = scout) /\
   ((1 # 2 <= r)%Q -> (r < 3 # 4)%Q -> Enemy.type e = heavy) /\
   ((3 # 4 <= r)%Q -> Enemy.type e = boss)).
Proof.
  intros r e r0 r1. subst e. rewrite spawnEnemy_pickType. fold r.
  clearbody r. split.
  - intro W.
    assert (E : (if waveNo >? 3 then 4 else 2)%Q = inject_Z 2).
    { destruct (Z.gtb_spec waveNo 3); [lia | reflexivity]. }
    destruct (Qlt_le_dec r (1 # 2)) as [lo | hi].
    + rewrite (pickType_slot waveNo r 2 0 E); [reflexivity | |];
        unfold inject_Z; simpl Z.add; lra.
    + rewrite (pickType_slot waveNo r 2 1 E); [reflexivity | |];
        unfold inject_Z; simpl Z.add; lra.
  - intro W.
    assert (E : (if waveNo >? 3 then 4 else 2)%Q = inject_Z 4).
    { destruct (Z.gtb_spec waveNo 3); [reflexivity | lia]. }
    repeat split; intros.
    + rewrite (pickType_slot waveNo r 4 0 E); [reflexivity | |];
        unfold inject_Z; simpl Z.add; lra.
    + rewrite (pickType_slot waveNo r 4 1 E); [reflexivity | |];
        unfold inject_Z; simpl Z.add; lra.
    + rewrite (pickType_slot waveNo r 4 2 E); [reflexivity | |];
        unfold inject_Z; simpl Z.add; lra.
    + rewrite (pickType_slot waveNo r 4 3 E); [reflexivity | |];
        unfold inject_Z; simpl Z.add; lra.
Qed.

Lemma spawnEnemy_type_witness :
  Enemy.type (eval (spawnEnemy 5) idleEnv (startMem initialWorld)) = heavy.
Proof.
  refine (proj1 (proj2 (proj2
            (proj2 (spawnEnemy_type idleEnv (startMem initialWorld) 5 _ _) _))) _ _);
    vm_compute; reflexivity || discriminate.
Defined.

(** ** Sessions *)

Lemma reachable_run envs first n w :
  reachable w -> reachable (run envs first n w).
Proof.
  revert first w. induction n as [|n IH]; intros first w H; simpl.
  - exact H.
  - apply IH. apply reachable_step. exact H.
Qed.

(** C2 fails on the code: seven scouts that spawn above the idle
    player ram it one after the other, 15 points each, and the contact
    branch never floors health; the session ends with health -5. *)
Theorem contact_damage_leaves_health_negative :
  reachable (run sevenScouts 0 397 initialWorld) /\
  healthOf (run sevenScouts 0 396 initialWorld) = 10 /\
  healthOf (run sevenScouts 0 397 initialWorld) = -5.
Proof.
  split; [apply reachable_run, reachable_init|].
  split; vm_compute; reflexivity.
Qed.

(** ** Enemy projectiles against the player *)

Lemma strikes_true p ab :
  strikes p ab = true ->
  Qgtb (y ab) CANVAS_HEIGHT = false /\ checkCollision ab p = true.
Proof.
  unfold strikes. rewrite andb_true_iff, negb_true_iff. tauto.
Qed.

Lemma strikes_false p ab :
  strikes p ab = false ->
  Qgtb (y ab) CANVAS_HEIGHT = true \/
  (Qgtb (y ab) CANVAS_HEIGHT = false /\ checkCollision ab p = false).
Proof.
  unfold strikes.
  destruct (Qgtb (y ab) CANVAS_HEIGHT); cbn; [left; reflexivity | right; tauto].
Qed.

(** The collision branch of [alienBulletFilter]: the projectile is dropped
    and the player is the old one with the hit recorded, the lockout set
    and the damage absorbed. *)
Lemma alienBulletFilter_strike env m ab :
  strikes (player (newState m)) ab = true ->
  eval (alienBulletFilter ab) env m = false /\
  player (newState (exec (alienBulletFilter ab) env m))
  = absorbDamage (AlienBullet.damage ab)
      (Player.set_shieldRegenCooldown 180
         (Player.set_lastDamaged (dateNow env (dateCalls m)) (player (newState m)))).
Proof.
  intro H. apply strikes_true in H. destruct H as [Hq Hc].
  apply (wp_eval_exec (alienBulletFilter ab) env m
           (fun b m' => b = false /\ player (newState m') = _)).
  unfold alienBulletFilter. rewrite Hq.
  wp_steps. rewrite Hc. wp_steps.
  match goal with
  | |- wp _ _ ?m3 _ =>
      apply (wp_preserves (fun m' => player (newState m') = player (newState m3)))
  end.
  - apply preserves_burst. intros s ps l a rc rc' dc E. exact E.
  - reflexivity.
  - intros _ m' E. wp_steps. split; [reflexivity|]. rewrite E. reflexivity.
Qed.

Lemma absorbDamage_fields (d : Z) (p : Player.t) :
  let p' := absorbDamage d p in
  (Player.shield p > 0 ->
   Player.shield p' = Z.max 0 (Player.shield p - d) /\
   Player.health p' = Z.max 0 (Player.health p + Z.min 0 (Player.shield p - d))) /\
  (Player.shield p <= 0 ->
   Player.shield p' = Player.shield p /\
   Player.health p' = Z.max 0 (Player.health p - d)) /\
  Player.maxShield p' = Player.maxShield p /\
  Player.maxHealth p' = Player.maxHealth p /\
  Player.shieldRegenCooldown p' = Player.shieldRegenCooldown p /\
  Player.obj p' = Player.obj p.
Proof.
  destruct p as [o h mh s ms c ld af]. unfold absorbDamage. cbn.
  destruct (Z.gtb_spec s 0); cbn.
  - destruct (Z.ltb_spec (s - d) 0); cbn.
    + destruct (Z.ltb_spec (h + (s - d)) 0); cbn; repeat split; intros; lia.
    + destruct (Z.ltb_spec h 0); cbn; repeat split; intros; lia.
  - destruct (Z.ltb_spec (h - d) 0); cbn; repeat split; intros; lia.
Qed.

(** The callback on one projectile that overlaps the player: the
    projectile is dropped and its damage goes to the shield first; what the
    shield cannot take is taken from health; with the shield at 0 the whole
    damage is taken from health; health is floored at 0. *)
Lemma alienBulletFilter_absorbs (env : Env) (m : Mem) (ab : AlienBullet.t) :
  strikes (player (newState m)) ab = true ->
  let p := player (newState m) in
  let d := AlienBullet.damage ab in
  let p' := player (newState (exec (alienBulletFilter ab) env m)) in
  eval (alienBulletFilter ab) env m = false /\
  Player.shieldRegenCooldown p' = 180 /\
  (Player.shield p > 0 ->
   Player.shield p' = Z.max 0 (Player.shield p - d) /\
   Player.health p' = Z.max 0 (Player.health p + Z.min 0 (Player.shield p - d))) /\
  (Player.shield p = 0 ->
   Player.shield p' = 0 /\ Player.health p' = Z.max 0 (Player.health p - d)) /\
  (Player.shield p = 10 -> d = 25 -> Player.health p >= 15 ->
   Player.shield p' = 0 /\ Player.health p' = Player.health p - 15) /\
  (Player.shield p = 30 -> d = 10 -> Player.health p >= 15 ->
   Player.shield p' = 20 /\ Player.health p' = Player.health p) /\
  (Player.shield p = 0 -> d = 8 ->
   Player.health p' = Z.max 0 (Player.health p - 8)).
Proof.
  intros H p d p'.
  destruct (alienBulletFilter_strike env m ab H) as [Ev Ex].
  split; [exact Ev|].
  subst p' p d. rewrite Ex. clear Ev Ex.
  match goal with
  | |- context [absorbDamage ?dd ?q] =>
      destruct (absorbDamage_fields dd q) as (Hpos & Hzero & _ & _ & Hcd & _)
  end.
  cbn in Hpos, Hzero, Hcd.
  split; [exact Hcd|].
  split; [exact Hpos|].
  split; [intro S0; rewrite <- S0 at 1; apply Hzero; lia|].
  split; [intros S D Hh; destruct Hpos as [A B]; [lia | rewrite A, B; lia]|].
  split; [intros S D Hh; destruct Hpos as [A B]; [lia | rewrite A, B; lia]|].
  intros S D. destruct Hzero as [A B]; [lia | rewrite B, D; reflexivity].
Qed.

(** ** Enemies against the player *)

Lemma checkCollision_bounce (e : Enemy.t) (o : GameObject) :
  checkCollision (bounce e) o = checkCollision e o.
Proof.
  unfold bounce.
  destruct (Qleb (x e) 0 || Qgeb (x e) (CANVAS_WIDTH - width e)); reflexivity.
Qed.

Lemma type_bounce (e : Enemy.t) : Enemy.type (bounce e) = Enemy.type e.
Proof.
  unfold bounce.
  destruct (Qleb (x e) 0 || Qgeb (x e) (CANVAS_WIDTH - width e)); reflexivity.
Qed.

Lemma health_bounce (e : Enemy.t) : Enemy.health (bounce e) = Enemy.health e.
Proof.
  unfold bounce.
  destruct (Qleb (x e) 0 || Qgeb (x e) (CANVAS_WIDTH - width e)); reflexivity.
Qed.

Lemma set_health_same (p : Player.t) : Player.set_health (Player.health p) p = p.
Proof. destruct p; reflexivity. Qed.

(** One call of the callback of the enemy [filter]. *)
Lemma enemyFilter_step env m e :
  let p := player (newState m) in
  let m' := exec (enemyFilter e) env m in
  fst (eval (enemyFilter e) env m) = survives p e /\
  (survives p e = true -> snd (eval (enemyFilter e) env m) = bounce e) /\
  player (newState m')
  = Player.set_health
      (Player.health p - (if touches p e then contactDamage (Enemy.type e) else 0)) p /\
  score (newState m') = score (newState m) /\
  enemies (newState m') = enemies (newState m) /\
  m_animationRef m' = m_animationRef m.
Proof.
  intros p m'. subst m'.
  apply (wp_eval_exec (enemyFilter e) env m
           (fun r m' => fst r = survives p e /\
                        (survives p e = true -> snd r = bounce e) /\
                        player (newState m') = _ /\
                        score (newState m') = score (newState m) /\
                        enemies (newState m') = enemies (newState m) /\
                        m_animationRef m' = m_animationRef m)).
  unfold enemyFilter, survives, touches.
  destruct (Qgtb (y e) CANVAS_HEIGHT) eqn:Off.
  - wp_steps. cbn. rewrite Z.sub_0_r, set_health_same.
    repeat split; intros; try congruence.
  - cbv zeta. fold (bounce e). wp_steps. fold p.
    rewrite checkCollision_bounce.
    destruct (checkCollision e p) eqn:Hit; wp_steps.
    + match goal with
      | |- wp _ _ ?m3 _ =>
          apply (wp_preserves (fun m' =>
                   player (newState m') = player (newState m3) /\
                   score (newState m') = score (newState m3) /\
                   enemies (newState m') = enemies (newState m3) /\
                   m_animationRef m' = m_animationRef m3))
      end.
      * apply preserves_burst. intros s ps l a rc rc' dc E. exact E.
      * repeat split.
      * intros _ m' (E1 & E2 & E3 & E4). cbn in E1, E2, E3, E4.
        wp_steps. cbn.
        rewrite E1, E2, E3, E4, type_bounce.
        repeat split; intros; try congruence.
    + cbn. rewrite Z.sub_0_r, set_health_same. repeat split; intros; reflexivity.
Qed.

(** The whole enemy [filter]. *)
Lemma filterMutM_enemyFilter (l : list Enemy.t) env m :
  let p := player (newState m) in
  let m' := exec (filterMutM enemyFilter l) env m in
  eval (filterMutM enemyFilter l) env m = map bounce (filter (survives p) l) /\
  player (newState m')
  = Player.set_health (Player.health p - totalContactDamage (touches p) l) p /\
  score (newState m') = score (newState m) /\
  enemies (newState m') = enemies (newState m) /\
  m_animationRef m' = m_animationRef m.
Proof.
  revert m. induction l as [|a l IH]; intros m p m'.
  - subst m' p. cbn. rewrite Z.sub_0_r, set_health_same. repeat split.
  - subst m'. cbn [filterMutM]. rewrite !eval_bind, !exec_bind.
    destruct (enemyFilter_step env m a) as (F1 & F2 & F3 & F4 & F5 & F6).
    fold p in F1, F2, F3.
    set (m1 := exec (enemyFilter a) env m) in *.
    destruct (IH m1) as (G1 & G2 & G3 & G4 & G5).
    rewrite F3 in G1, G2. cbn [Player.obj Player.set_health Player.health] in G1, G2.
    change (exec (ret _) env ?mm) with mm.
    change (eval (ret ?v) env _) with v.
    rewrite G1, G2, G3, G4, G5, F4, F5, F6, F1.
    cbn [filter totalContactDamage map].
    repeat split.
    + destruct (survives p a) eqn:S; [rewrite (F2 eq_refl)|]; reflexivity.
    + destruct p; unfold Player.set_health; cbn. f_equal. lia.
Qed.

Lemma updateEnemies_spec env m :
  let p := player (newState m) in
  let moved := map (moveEnemy (m_animationRef m)) (enemies (newState m)) in
  let m' := exec updateEnemies env m in
  player (newState m')
  = Player.set_health (Player.health p - totalContactDamage (touches p) moved) p /\
  score (newState m') = score (newState m) /\
  enemies (newState m') = map bounce (filter (survives p) moved).
Proof.
  intros p moved m'. subst m'.
  apply (wp_exec updateEnemies env m
           (fun m' => player (newState m') = _ /\
                      score (newState m') = _ /\ enemies (newState m') = _)).
  unfold updateEnemies. wp_steps.
  destruct (filterMutM_enemyFilter moved env m) as (G1 & G2 & G3 & G4 & G5).
  fold moved. unfold wp. rewrite G1. wp_steps. cbn.
  fold p in G2. rewrite G2, G3. repeat split.
Qed.

Lemma touches_overlap (p : Player.t) (e : Enemy.t) :
  (y p + height p <= CANVAS_HEIGHT)%Q ->
  touches p e = checkCollision e p.
Proof.
  intro Hp. unfold touches.
  destruct (checkCollision e p) eqn:C; [|apply andb_false_r].
  rewrite andb_true_r, negb_true_iff.
  apply checkCollision_true in C. destruct C as (_ & _ & Y1 & _).
  apply Qltb_ge. apply Qlt_le_weak.
  eapply Qlt_le_trans; [exact Y1 | exact Hp].
Qed.

Lemma totalContactDamage_ext (f g : Enemy.t -> bool) l :
  (forall e, f e = g e) -> totalContactDamage f l = totalContactDamage g l.
Proof.
  intro E. induction l as [|a l IH]; cbn; [reflexivity|].
  rewrite E, IH. reflexivity.
Qed.

(** C7: in the contact phase, every (moved) enemy that overlaps the
    player costs the player the contact damage of its type (15 for a
    scout, 25 for a heavy, 40 for a boss), taken from health; the shield
    keeps its value, the score keeps its value, and the enemies that stay
    are those, on screen, that do not overlap the player. *)
Theorem contact_phase (env : Env) (m : Mem) :
  let p := player (newState m) in
  let moved := map (moveEnemy (m_animationRef m)) (enemies (newState m)) in
  let m' := exec updateEnemies env m in
  let p' := player (newState m') in
  (y p + height p <= CANVAS_HEIGHT)%Q ->
  Player.health p'
  = Player.health p - totalContactDamage (fun e => checkCollision e p) moved /\
  Player.shield p' = Player.shield p /\
  score (newState m') = score (newState m) /\
  enemies (newState m') = map bounce (filter (survives p) moved) /\
  (forall e, In e moved -> checkCollision e p = true ->
             ~ In (bounce e) (enemies (newState m'))) /\
  contactDamage scout = 15 /\ contactDamage heavy = 25 /\ contactDamage boss = 40.
Proof.
  intros p moved m' p' Hp.
  destruct (updateEnemies_spec env m) as (G1 & G2 & G3).
  fold p moved m' in G1, G2, G3. subst p'. rewrite G1, G2, G3.
  cbn [Player.health Player.shield Player.set_health].
  rewrite (totalContactDamage_ext (touches p) (fun e => checkCollision e p))
    by (intro e; apply touches_overlap, Hp).
  repeat split.
  intros e _ C I.
  apply in_map_iff in I. destruct I as (e' & Eb & I).
  apply filter_In in I. destruct I as [_ S].
  unfold survives in S. apply andb_true_iff in S. destruct S as [_ S].
  apply negb_true_iff in S.
  rewrite <- (checkCollision_bounce e'), Eb, checkCollision_bounce in S.
  congruence.
Qed.

Lemma contact_phase_witness :
  let m := startMem ramWorld in
  Player.health (player (newState (exec updateEnemies idleEnv m)))
  = Player.health (player (newState m))
    - totalContactDamage (fun e => checkCollision e (player (newState m)))
        (map (moveEnemy (m_animationRef m)) (enemies (newState m))).
Proof.
  refine (proj1 (contact_phase idleEnv (startMem ramWorld) _)).
  vm_compute. discriminate.
Defined.

(** ** Player projectiles against the enemies *)

Lemma splice1_list_set {A} (l : list A) (i : nat) (v : A) :
  splice1 i (list_set i v l) = splice1 i l.
Proof.
  revert i. induction l as [|a l IH]; intros [|i]; try reflexivity.
  specialize (IH i). unfold splice1, list_set in *. cbn in *.
  f_equal. exact IH.
Qed.

(** The effect of one hit on the enemy list and on the score. *)
Lemma bulletHit_spec env m (b : Bullet.t) (i : nat) (e : Enemy.t) :
  let m' := exec (bulletHit b i e) env m in
  let dead := Enemy.health e - 1 <=? 0 in
  enemies (newState m')
  = (if dead then splice1 i (enemies (newState m))
     else list_set i (Enemy.set_health (Enemy.health e - 1) e) (enemies (newState m))) /\
  score (newState m')
  = score (newState m) + (if dead then killPoints (Enemy.type e) else 0).
Proof.
  intros m' dead. subst m' dead.
  apply (wp_exec (bulletHit b i e) env m
           (fun m' => enemies (newState m') = _ /\ score (newState m') = _)).
  unfold bulletHit. cbv zeta. wp_steps.
  match goal with
  | |- wp _ _ ?m3 _ =>
      apply (wp_preserves (fun m' =>
               enemies (newState m') = enemies (newState m3) /\
               score (newState m') = score (newState m3)))
  end.
  - apply preserves_burst. intros s ps l a rc rc' dc E. exact E.
  - split; reflexivity.
  - intros _ m1 (E1 & E2). cbn in E1, E2.
    cbn [Enemy.health Enemy.set_health].
    destruct (Enemy.health e - 1 <=? 0) eqn:D.
    + wp_steps.
      match goal with
      | |- wp _ _ ?m3 _ =>
          apply (wp_preserves (fun m' =>
                   enemies (newState m') = enemies (newState m3) /\
                   score (newState m') = score (newState m3)))
      end.
      * apply preserves_burst. intros s ps l a rc rc' dc E. exact E.
      * split; reflexivity.
      * intros _ m2 (E3 & E4). wp_steps. cbn.
        rewrite E3, E4, E1, E2. rewrite splice1_list_set. split; reflexivity.
    + wp_steps. rewrite E1, E2, Z.add_0_r. split; reflexivity.
Qed.

(** The downward scan of the enemy list by one bullet, from index [n-1]. *)
Lemma scanEnemies_spec env (b : Bullet.t) (n : nat) (m : Mem) :
  let es := enemies (newState m) in
  let m' := exec (scanEnemies b n) env m in
  let kept := eval (scanEnemies b n) env m in
  (n <= List.length es)%nat ->
  ((forall j e', (j < n)%nat -> nth_error es j = Some e' -> checkCollision b e' = false) /\
   kept = true /\ m' = m)
  \/
  (exists i e,
      (i < n)%nat /\ nth_error es i = Some e /\ checkCollision b e = true /\
      (forall j e', (i < j < n)%nat -> nth_error es j = Some e' ->
                    checkCollision b e' = false) /\
      kept = false /\ m' = exec (bulletHit b i e) env m).
Proof.
  intros es m' kept. subst m' kept.
  induction n as [|n IH]; intro Hn.
  - left. repeat split. intros j e' Hj. lia.
  - cbn [scanEnemies]. rewrite eval_bind, exec_bind.
    change (eval getState env m) with (newState m).
    change (exec getState env m) with m. fold es.
    destruct (nth_error es n) as [e|] eqn:N.
    + destruct (checkCollision b e) eqn:C.
      * right. exists n, e. repeat split; try assumption; try lia.
      * destruct IH as [(A1 & A2 & A3) | (i & e0 & B1 & B2 & B3 & B4 & B5 & B6)];
          [lia | left | right].
        -- repeat split; try assumption.
           intros j e' Hj Hnth.
           destruct (Nat.eq_dec j n) as [-> | Hne].
           ++ congruence.
           ++ apply (A1 j e'); [lia | exact Hnth].
        -- exists i, e0. repeat split; try assumption; try lia.
           intros j e' Hj Hnth.
           destruct (Nat.eq_dec j n) as [-> | Hne].
           ++ congruence.
           ++ apply (B4 j e'); [lia | exact Hnth].
    + apply nth_error_None in N. lia.
Qed.

(** The callback on one player projectile.  Either it overlaps no enemy,
    and the verdict is to keep it and nothing changes; or the verdict is to
    drop it and exactly the first overlapping enemy met by the scan (which
    runs from the end of the list) loses 1 health: if that leaves its
    health positive the enemy stays, with the score unchanged, otherwise
    the enemy is removed and the score grows by 10 (scout), 25 (heavy) or
    50 (boss). *)
Lemma bulletFilter_resolves (env : Env) (m : Mem) (b : Bullet.t) :
  let es := enemies (newState m) in
  let m' := exec (bulletFilter b) env m in
  let kept := eval (bulletFilter b) env m in
  (((forall e, In e es -> checkCollision b e = false) /\
    kept = true /\
    enemies (newState m') = es /\ score (newState m') = score (newState m))
   \/
   (exists i e,
      nth_error es i = Some e /\ checkCollision b e = true /\
      (forall j e', (i < j)%nat -> nth_error es j = Some e' ->
                    checkCollision b e' = false) /\
      kept = false /\
      (Enemy.health e - 1 > 0 ->
       enemies (newState m')
       = list_set i (Enemy.set_health (Enemy.health e - 1) e) es /\
       score (newState m') = score (newState m)) /\
      (Enemy.health e - 1 <= 0 ->
       enemies (newState m') = splice1 i es /\
       score (newState m') = score (newState m) + killPoints (Enemy.type e)))) /\
  killPoints scout = 10 /\ killPoints heavy = 25 /\ killPoints boss = 50 /\
  0 + killPoints scout + killPoints heavy + killPoints boss = 85.
Proof.
  intros es m' kept. split; [|repeat split].
  subst es m' kept. unfold bulletFilter. rewrite eval_bind, exec_bind.
  change (eval getState env m) with (newState m).
  change (exec getState env m) with m.
  destruct (scanEnemies_spec env b (List.length (enemies (newState m))) m (le_n _))
    as [(A1 & A2 & A3) | (i & e & B1 & B2 & B3 & B4 & B5 & B6)].
  - left. rewrite A2, A3. repeat split.
    intros e He. apply In_nth_error in He. destruct He as [j Hj].
    apply (A1 j e); [|exact Hj].
    apply nth_error_Some. congruence.
  - right. exists i, e. rewrite B5, B6.
    destruct (bulletHit_spec env m b i e) as [S1 S2].
    repeat split; try assumption.
    + intros j e' Hj Hnth. apply (B4 j e'); [|exact Hnth].
      split; [exact Hj|]. apply nth_error_Some. congruence.
    + rewrite S1. destruct (Z.leb_spec (Enemy.health e - 1) 0); [lia | reflexivity].
    + rewrite S2. destruct (Z.leb_spec (Enemy.health e - 1) 0); lia.
    + rewrite S1. destruct (Z.leb_spec (Enemy.health e - 1) 0); [reflexivity | lia].
    + rewrite S2. destruct (Z.leb_spec (Enemy.health e - 1) 0); lia.
Qed.

(** ** Wave progression *)

Section WaveKept.
Variable v : Z.
Let I (m : Mem) : Prop := wave (newState m) = v.

Lemma wave_bulletHit b i e : preserves I (bulletHit b i e).
Proof. unfold bulletHit; cbv zeta; frame. Qed.

Lemma wave_scanEnemies b n : preserves I (scanEnemies b n).
Proof.
  induction n as [|n IH]; cbn [scanEnemies]; [frame|].
  apply preserves_bind; [leaf | intro s].
  destruct (nth_error (enemies s) n) as [e|]; [|exact IH].
  destruct (checkCollision b e); [|exact IH].
  apply preserves_bind; [apply wave_bulletHit | intro; frame].
Qed.

Lemma wave_before_progression cw :
  preserves I playerControl /\ preserves I playerShooting /\
  preserves I updateBullets /\ preserves I (spawnEnemies cw) /\
  preserves I updateEnemies /\ preserves I bulletEnemyCollisions /\
  preserves I updateAlienBullets /\ preserves I enemyShooting /\
  preserves I (modifyPlayer shieldRegen) /\ preserves I updateParticles.
Proof.
  repeat split.
  - unfold playerControl; frame.
  - unfold playerShooting; frame.
  - unfold updateBullets; frame.
  - unfold spawnEnemies, spawnEnemy; frame.
  - unfold updateEnemies, enemyFilter; frame.
  - unfold bulletEnemyCollisions, bulletFilter; frame.
    apply wave_scanEnemies.
  - unfold updateAlienBullets, alienBulletFilter; frame.
  - unfold enemyShooting, enemyShoot; frame.
  - frame.
  - unfold updateParticles; frame.
Qed.
End WaveKept.

(** The wave after a frame that is executed: the wave before, plus one
    when the test of the wave progression passes on the final score. *)
Lemma updater_wave env (m : Mem) :
  let m' := exec (updater (wave (newState m))) env m in
  let s := score (newState m) in
  let s' := score (newState m') in
  wave (newState m')
  = wave (newState m)
    + (if (s' >? 0) && (Z.rem s' 250 =? 0) && negb (s' =? s) then 1 else 0).
Proof.
  intros m' s s'. subst m' s s'.
  apply (wp_exec (updater (wave (newState m))) env m
           (fun m' => wave (newState m') = wave (newState m) +
              (if (score (newState m') >? 0) && (Z.rem (score (newState m')) 250 =? 0)
                  && negb (score (newState m') =? score (newState m))
               then 1 else 0))).
  unfold updater. wp_step. wp_step.
  pose proof (wave_before_progression (wave (newState m)) (wave (newState m)))
    as (P1 & P2 & P3 & P4 & P5 & P6 & P7 & P8 & P9 & P10).
  repeat (apply wp_bind;
          eapply (wp_preserves (fun m' => wave (newState m') = wave (newState m)));
          [eassumption | try reflexivity; try assumption | intros _ ? ?]).
  unfold waveProgression, checkGameOver. wp_steps.
  match goal with
  | |- context [if ?c then modifyState _ else ret tt] => destruct c eqn:C
  end; wp_steps;
    match goal with
    | |- context [if ?c then modifyState _ else ret tt] => destruct c
    end; wp_steps; cbn; rewrite ?C; lia.
Qed.

(** C5: a frame adds 1 to the wave exactly when the score it ends
    with is positive, a multiple of 250 and not the score it started with;
    any other frame leaves the wave alone.  A frame that takes the score
    from 240 to 265 leaves the wave alone; a frame that brings the score to
    exactly 250 adds 1. *)
Theorem wave_progression (env : Env) (w : World) :
  let w' := updateGame env w in
  let s := score (gameState w) in
  let s' := score (gameState w') in
  let increments := 0 < s' /\ (250 | s') /\ s' <> s in
  (increments -> wave (gameState w') = wave (gameState w) + 1) /\
  (~ increments -> wave (gameState w') = wave (gameState w)) /\
  (s = 240 -> s' = 265 -> wave (gameState w') = wave (gameState w)) /\
  (s <> 250 -> s' = 250 -> wave (gameState w') = wave (gameState w) + 1).
Proof.
  intros w' s s' increments.
  assert (E : wave (gameState w')
              = wave (gameState w)
                + (if (s' >? 0) && (Z.rem s' 250 =? 0) && negb (s' =? s)
                   then 1 else 0)).
  { subst s s' w'. unfold updateGame.
    destruct (gameOver (gameState w) || paused (gameState w)).
    - rewrite Z.eqb_refl, andb_false_r. lia.
    - cbn [gameState]. exact (updater_wave env (startMem w)). }
  assert (D : (if (s' >? 0) && (Z.rem s' 250 =? 0) && negb (s' =? s) then 1 else 0)
              = 1 <-> increments).
  { unfold increments. rewrite <- (Z.rem_divide s' 250) by lia.
    destruct (Z.gtb_spec s' 0), (Z.eqb_spec (Z.rem s' 250) 0), (Z.eqb_spec s' s);
      cbn; split; intros; try lia; try tauto. }
  assert (D0 : ~ increments ->
               (if (s' >? 0) && (Z.rem s' 250 =? 0) && negb (s' =? s) then 1 else 0) = 0).
  { intro N. destruct ((s' >? 0) && (Z.rem s' 250 =? 0) && negb (s' =? s));
      [exfalso; apply N, D; reflexivity | reflexivity]. }
  repeat split.
  - intro Hi. apply D in Hi. lia.
  - intro N. rewrite (D0 N) in E. lia.
  - intros S S'. rewrite E, D0; [lia|].
    unfold increments. rewrite S'. intros (_ & (k & Hk) & _). lia.
  - intros S S'. rewrite E. apply Z.add_cancel_l, D.
    unfold increments. rewrite S'.
    split; [lia | split; [exists 1; lia | intro; apply S; lia]].
Qed.

Lemma wave_progression_witness :
  wave (gameState (updateGame idleEnv (killWorld scout 240))) = 1 + 1 /\
  wave (gameState (updateGame idleEnv (killWorld heavy 240))) = 1.
Proof.
  split.
  - refine (proj2 (proj2 (proj2
              (wave_progression idleEnv (killWorld scout 240)))) _ _).
    + cbn. lia.
    + vm_compute. reflexivity.
  - refine (proj1 (proj2 (proj2
              (wave_progression idleEnv (killWorld heavy 240)))) _ _).
    + reflexivity.
    + vm_compute. reflexivity.
Defined.

(** One frame in which a scout, a heavy and a boss are killed, each by its
    own bullet, takes the score from 0 to 10, 35 and 85. *)
Example three_kills_score_85 :
  let m0 := startMem threeKillsWorld in
  let m := exec (beforeAlienBullets 1) idleEnv m0 in
  score (newState m) = 85 /\ enemies (newState m) = [] /\ bullets (newState m) = [] /\
  score (gameState (updateGame idleEnv threeKillsWorld)) = 85.
Proof. vm_compute. repeat split. Qed.

(** ** Enemies in the world are alive *)

Lemma spawnEnemy_health env m waveNo :
  let e := eval (spawnEnemy waveNo) env m in
  Enemy.health e = match Enemy.type e with scout => 1 | heavy => 3 | boss => 5 end.
Proof.
  unfold spawnEnemy. cbv zeta. rewrite eval_bind.
  destruct (pickType waveNo (eval MathRandom env m)); reflexivity.
Qed.

Lemma spawnEnemy_enemies env m waveNo :
  enemies (newState (exec (spawnEnemy waveNo) env m)) = enemies (newState m).
Proof.
  apply (wp_exec (spawnEnemy waveNo) env m
           (fun m' => enemies (newState m') = enemies (newState m))).
  unfold spawnEnemy. wp_steps. cbv zeta.
  destruct (pickType waveNo (random env (randomCalls m))); wp_steps; reflexivity.
Qed.

Lemma allAlive_spawnEnemies cw : preserves allAlive (spawnEnemies cw).
Proof.
  intros env m H. unfold allAlive in *.
  apply (wp_exec (spawnEnemies cw) env m (fun m' => Forall alive (enemies (newState m')))).
  unfold spawnEnemies. wp_steps.
  destruct (Qltb _ _); wp_steps; [|exact H].
  match goal with
  | |- wp (spawnEnemy cw) env ?m1 _ =>
      unfold wp at 1; wp_steps; cbn [enemies set_enemies];
      rewrite (spawnEnemy_enemies env m1 cw); cbn [newState];
      apply Forall_app; split; [exact H|];
      constructor; [|constructor];
      unfold alive; rewrite (spawnEnemy_health env m1 cw);
      destruct (Enemy.type _); lia
  end.
Qed.

Lemma Forall_splice1 {A} (P : A -> Prop) (i : nat) (l : list A) :
  Forall P l -> Forall P (splice1 i l).
Proof.
  intro H. unfold splice1. apply Forall_app.
  pose proof H as H'.
  rewrite <- (firstn_skipn i l) in H. apply Forall_app in H.
  rewrite <- (firstn_skipn (S i) l) in H'. apply Forall_app in H'.
  tauto.
Qed.

Lemma Forall_list_set {A} (P : A -> Prop) (i : nat) (v : A) (l : list A) :
  P v -> Forall P l -> Forall P (list_set i v l).
Proof.
  intros Hv H. unfold list_set.
  rewrite <- (firstn_skipn i l) in H. apply Forall_app in H. destruct H as [H1 H2].
  apply Forall_app. split; [exact H1|].
  destruct (skipn i l); [constructor|].
  inversion H2; subst. constructor; assumption.
Qed.

Lemma allAlive_updateEnemies : preserves allAlive updateEnemies.
Proof.
  intros env m H. unfold allAlive in *.
  destruct (updateEnemies_spec env m) as (_ & _ & E). rewrite E.
  apply Forall_forall. intros e He.
  apply in_map_iff in He. destruct He as (e1 & <- & He).
  apply filter_In in He. destruct He as [He _].
  apply in_map_iff in He. destruct He as (e0 & <- & He).
  unfold alive. rewrite health_bounce.
  rewrite Forall_forall in H. exact (H e0 He).
Qed.

Lemma allAlive_bulletFilter b : preserves allAlive (bulletFilter b).
Proof.
  intros env m H. unfold allAlive in *.
  unfold bulletFilter. rewrite exec_bind.
  change (eval getState env m) with (newState m).
  change (exec getState env m) with m.
  destruct (scanEnemies_spec env b (List.length (enemies (newState m))) m (le_n _))
    as [(_ & _ & ->) | (i & e & _ & N & _ & _ & _ & ->)]; [exact H|].
  destruct (bulletHit_spec env m b i e) as [S _]. rewrite S.
  destruct (Z.leb_spec (Enemy.health e - 1) 0).
  - apply Forall_splice1, H.
  - apply Forall_list_set; [unfold alive; cbn; lia | exact H].
Qed.

Lemma enemyShoot_health env m e :
  Enemy.health (eval (enemyShoot e) env m) = Enemy.health e.
Proof.
  apply (wp_eval_exec (enemyShoot e) env m (fun e' _ => Enemy.health e' = Enemy.health e)).
  unfold enemyShoot. wp_steps.
  destruct (_ >? _); wp_steps; [|reflexivity].
  destruct (Qltb _ _); wp_steps; reflexivity.
Qed.

Lemma forEachMutM_enemyShoot l env m :
  Forall alive l -> Forall alive (eval (forEachMutM enemyShoot l) env m).
Proof.
  revert m. induction l as [|a l IH]; intros m H; cbn [forEachMutM].
  - constructor.
  - inversion H; subst. rewrite !eval_bind.
    change (eval (ret ?v) env _) with v.
    constructor; [|apply IH; assumption].
    unfold alive. rewrite enemyShoot_health. assumption.
Qed.

Lemma allAlive_enemyShooting : preserves allAlive enemyShooting.
Proof.
  intros env m H. unfold allAlive in *.
  unfold enemyShooting. rewrite !exec_bind.
  change (eval getState env m) with (newState m).
  change (exec getState env m) with m.
  cbn [exec modifyState snd newState enemies set_enemies].
  apply forEachMutM_enemyShoot, H.
Qed.

Lemma allAlive_updater cw : preserves allAlive (updater cw).
Proof.
  unfold updater.
  apply preserves_bind; [leaf | intro prevState].
  apply preserves_bind; [unfold playerControl; unfold allAlive; frame | intros _].
  apply preserves_bind; [unfold playerShooting; unfold allAlive; frame | intros _].
  apply preserves_bind; [unfold updateBullets; unfold allAlive; frame | intros _].
  apply preserves_bind; [apply allAlive_spawnEnemies | intros _].
  apply preserves_bind; [apply allAlive_updateEnemies | intros _].
  apply preserves_bind.
  { unfold bulletEnemyCollisions.
    apply preserves_bind; [leaf | intro s].
    apply preserves_bind;
      [apply preserves_filterM, allAlive_bulletFilter | intro; unfold allAlive; frame]. }
  intros _.
  apply preserves_bind;
    [unfold updateAlienBullets, alienBulletFilter; unfold allAlive; frame | intros _].
  apply preserves_bind; [apply allAlive_enemyShooting | intros _].
  apply preserves_bind; [unfold allAlive; frame | intros _].
  apply preserves_bind; [unfold updateParticles; unfold allAlive; frame | intros _].
  apply preserves_bind; [unfold waveProgression; unfold allAlive; frame | intros _].
  unfold checkGameOver; unfold allAlive; frame.
Qed.

(** C10: in every world the session can reach, each enemy of the
    enemy collection has health at least 1. *)
Theorem enemies_alive (w : World) :
  reachable w -> Forall (fun e => 1 <= Enemy.health e) (enemies (gameState w)).
Proof.
  intro R. induction R as [| env w R IH | w R IH | w R IH].
  - constructor.
  - unfold updateGame.
    destruct (gameOver (gameState w) || paused (gameState w)); [exact IH|].
    cbn [gameState].
    apply (allAlive_updater (wave (gameState w)) env (startMem w)). exact IH.
  - exact IH.
  - constructor.
Qed.

Lemma enemies_alive_witness :
  Forall (fun e => 1 <= Enemy.health e)
         (enemies (gameState (updateGame spawnEnv initialWorld))).
Proof.
  apply enemies_alive. apply reachable_step. apply reachable_init.
Defined.

(** ** Shield regeneration *)

Section RegenKept.
Variable v : Z * Z * Z.
Let I (m : Mem) : Prop := regenView m = v.

Lemma regen_bulletHit b i e : preserves I (bulletHit b i e).
Proof. unfold bulletHit; cbv zeta; frame. Qed.

Lemma regen_scanEnemies b n : preserves I (scanEnemies b n).
Proof.
  induction n as [|n IH]; cbn [scanEnemies]; [frame|].
  apply preserves_bind; [leaf | intro s].
  destruct (nth_error (enemies s) n) as [e|]; [|exact IH].
  destruct (checkCollision b e); [|exact IH].
  apply preserves_bind; [apply regen_bulletHit | intro; frame].
Qed.

Lemma regen_beforeAlienBullets cw : preserves I (beforeAlienBullets cw).
Proof.
  unfold beforeAlienBullets.
  apply preserves_bind; [unfold playerControl; frame | intros _].
  apply preserves_bind; [unfold playerShooting; frame | intros _].
  apply preserves_bind; [unfold updateBullets; frame | intros _].
  apply preserves_bind; [unfold spawnEnemies, spawnEnemy; frame | intros _].
  apply preserves_bind; [unfold updateEnemies, enemyFilter; frame | intros _].
  unfold bulletEnemyCollisions, bulletFilter; frame.
  apply regen_scanEnemies.
Qed.

Lemma regen_after_regen prevScore :
  preserves I enemyShooting /\
  preserves I (updateParticles ;; waveProgression prevScore ;; checkGameOver).
Proof.
  split.
  - unfold enemyShooting, enemyShoot; frame.
  - unfold updateParticles, waveProgression, checkGameOver; frame.
Qed.
End RegenKept.

Lemma shieldRegen_next (p : Player.t) : viewOf (shieldRegen p) = regenNext (viewOf p).
Proof.
  destruct p as [o h mh s ms c ld af]. unfold shieldRegen, viewOf, regenNext. cbn.
  destruct (c >? 0); cbn.
  - destruct ((s <? ms) && (c - 1 =? 0)); cbn; [|reflexivity].
    destruct (s + 1 >? ms); reflexivity.
  - destruct ((s <? ms) && (c =? 0)); cbn; [|reflexivity].
    destruct (s + 1 >? ms); reflexivity.
Qed.

Lemma alienBulletFilter_miss env m ab :
  strikes (player (newState m)) ab = false ->
  exec (alienBulletFilter ab) env m = m.
Proof.
  intro H. apply strikes_false in H. unfold alienBulletFilter.
  destruct H as [H | [H1 H2]].
  - rewrite H. reflexivity.
  - rewrite H1, exec_bind.
    change (eval getState env m) with (newState m).
    change (exec getState env m) with m.
    rewrite H2. reflexivity.
Qed.

Lemma filterM_alien_quiet l env m :
  existsb (strikes (player (newState m))) l = false ->
  exec (filterM alienBulletFilter l) env m = m.
Proof.
  induction l as [|a l IH]; intro H; cbn [filterM existsb] in *; [reflexivity|].
  apply orb_false_iff in H. destruct H as [Ha Hl].
  rewrite !exec_bind, (alienBulletFilter_miss env m a Ha), (IH Hl).
  reflexivity.
Qed.

Lemma alienBulletFilter_lockout env m ab :
  strikes (player (newState m)) ab = true ->
  Player.shieldRegenCooldown (player (newState (exec (alienBulletFilter ab) env m)))
  = 180.
Proof.
  intro S. destruct (alienBulletFilter_strike env m ab S) as [_ E]. rewrite E.
  match goal with
  | |- context [absorbDamage ?d ?q] =>
      destruct (absorbDamage_fields d q) as (_ & _ & _ & _ & A & _)
  end.
  rewrite A. reflexivity.
Qed.

Lemma lockout_alienBulletFilter ab :
  preserves (fun m => Player.shieldRegenCooldown (player (newState m)) = 180)
            (alienBulletFilter ab).
Proof.
  intros env m H.
  destruct (strikes (player (newState m)) ab) eqn:S.
  - apply alienBulletFilter_lockout, S.
  - rewrite (alienBulletFilter_miss env m ab S). exact H.
Qed.

Lemma filterM_alien_hit l env m :
  existsb (strikes (player (newState m))) l = true ->
  Player.shieldRegenCooldown
    (player (newState (exec (filterM alienBulletFilter l) env m))) = 180.
Proof.
  revert m. induction l as [|a l IH]; intros m H; cbn [filterM existsb] in *;
    [discriminate|].
  rewrite !exec_bind. change (exec (ret _) env ?mm) with mm.
  destruct (strikes (player (newState m)) a) eqn:S.
  - apply (preserves_filterM _ _ l lockout_alienBulletFilter).
    apply alienBulletFilter_lockout, S.
  - rewrite (alienBulletFilter_miss env m a S). apply IH. exact H.
Qed.

(** The updater is the phases up to the player bullets followed by the
    rest. *)
Lemma exec_six_then (a1 a2 a3 a4 a5 a6 : M unit) (t : GameState -> M unit) env m :
  exec (s <- getState ;; a1 ;; a2 ;; a3 ;; a4 ;; a5 ;; a6 ;; t s) env m
  = exec (t (newState m)) env (exec (a1 ;; a2 ;; a3 ;; a4 ;; a5 ;; a6) env m).
Proof. reflexivity. Qed.

Lemma updater_split cw env m :
  exec (updater cw) env m
  = exec (updateAlienBullets ;; enemyShooting ;; modifyPlayer shieldRegen ;;
          updateParticles ;; waveProgression (score (newState m)) ;; checkGameOver)
         env (exec (beforeAlienBullets cw) env m).
Proof.
  unfold updater, beforeAlienBullets.
  exact (exec_six_then playerControl playerShooting updateBullets (spawnEnemies cw)
           updateEnemies bulletEnemyCollisions
           (fun prevState =>
              updateAlienBullets ;; enemyShooting ;; modifyPlayer shieldRegen ;;
              updateParticles ;; waveProgression (score prevState) ;; checkGameOver)
           env m).
Qed.

Lemma updateGame_running env w :
  running w = true ->
  player (gameState (updateGame env w))
  = player (newState (exec (updater (wave (gameState w))) env (startMem w))).
Proof.
  unfold running, updateGame. intro R. apply negb_true_iff in R. rewrite R.
  reflexivity.
Qed.

(** The phases from the enemy projectiles on, when no projectile hits:
    the regeneration view moves by [regenNext]. *)
Lemma rest_quiet env m v prevScore :
  regenView m = v ->
  existsb (strikes (player (newState m)))
          (map moveAlienBullet (alienBullets (newState m))) = false ->
  viewOf (player (newState
    (exec (updateAlienBullets ;; enemyShooting ;; modifyPlayer shieldRegen ;;
           updateParticles ;; waveProgression prevScore ;; checkGameOver) env m)))
  = regenNext v.
Proof.
  intros V Q.
  apply (wp_exec _ env m (fun m' => regenView m' = regenNext v)).
  apply wp_bind. unfold updateAlienBullets. wp_steps.
  unfold wp at 1. rewrite (filterM_alien_quiet _ env m Q). wp_steps.
  apply (wp_preserves (fun m' => regenView m' = v));
    [apply (proj1 (regen_after_regen _ 0)) | exact V | intros _ m8 V8].
  do 2 wp_step.
  apply (wp_preserves (fun m' => regenView m' = regenNext v));
    [apply (proj2 (regen_after_regen _ _)) | | intros _ m' V'; exact V'].
  unfold regenView. cbn [newState player set_player].
  rewrite shieldRegen_next. unfold regenView in V8. rewrite V8. reflexivity.
Qed.

(** The same phases when some projectile hits: the lockout ends at 179. *)
Lemma rest_hit env m prevScore :
  existsb (strikes (player (newState m)))
          (map moveAlienBullet (alienBullets (newState m))) = true ->
  Player.shieldRegenCooldown (player (newState
    (exec (updateAlienBullets ;; enemyShooting ;; modifyPlayer shieldRegen ;;
           updateParticles ;; waveProgression prevScore ;; checkGameOver) env m)))
  = 179.
Proof.
  intro Q.
  pose proof (filterM_alien_hit _ env m Q) as L.
  set (m7 := exec (filterM alienBulletFilter
                     (map moveAlienBullet (alienBullets (newState m)))) env m) in *.
  set (v7 := regenView m7).
  assert (L7 : snd v7 = 180) by exact L.
  apply (wp_exec _ env m
           (fun m' => Player.shieldRegenCooldown (player (newState m')) = 179)).
  apply wp_bind. unfold updateAlienBullets. wp_steps.
  unfold wp at 1. fold m7. wp_steps.
  apply (wp_preserves (fun m' => regenView m' = v7));
    [apply (proj1 (regen_after_regen _ 0)) | reflexivity | intros _ m8 V8].
  do 2 wp_step.
  apply (wp_preserves (fun m' => regenView m' = regenNext v7));
    [apply (proj2 (regen_after_regen _ _)) | | intros _ m' V'].
  - unfold regenView. cbn [newState player set_player].
    rewrite shieldRegen_next. unfold regenView in V8. rewrite V8. reflexivity.
  - change (snd (regenView m') = 179). rewrite V'.
    destruct v7 as [[s mx] c]. cbn in L7. subst c. cbn.
    rewrite andb_false_r. reflexivity.
Qed.

Lemma before_regenView cw env w :
  regenView (exec (beforeAlienBullets cw) env (startMem w))
  = viewOf (player (gameState w)).
Proof.
  exact (regen_beforeAlienBullets (viewOf (player (gameState w))) cw env (startMem w)
           eq_refl).
Qed.

(** A frame in which no enemy projectile hits. *)
Lemma frame_quiet env w :
  running w = true -> playerHit env w = false ->
  viewOf (player (gameState (updateGame env w)))
  = regenNext (viewOf (player (gameState w))).
Proof.
  intros R Q. rewrite (updateGame_running env w R), updater_split.
  unfold playerHit in Q. rewrite R in Q. cbn [andb] in Q.
  exact (rest_quiet env (exec (beforeAlienBullets (wave (gameState w))) env (startMem w))
           (viewOf (player (gameState w))) (score (newState (startMem w)))
           (before_regenView _ env w) Q).
Qed.

(** A frame in which an enemy projectile hits leaves the lockout at 179. *)
Lemma frame_hit env w :
  playerHit env w = true ->
  lockoutOf (updateGame env w) = 179.
Proof.
  intro Q. unfold playerHit in Q. apply andb_true_iff in Q. destruct Q as [R Q].
  unfold lockoutOf. rewrite (updateGame_running env w R), updater_split.
  exact (rest_hit env (exec (beforeAlienBullets (wave (gameState w))) env (startMem w))
           (score (newState (startMem w))) Q).
Qed.

Lemma run_snoc envs first k w :
  run envs first (S k) w = updateGame (envs (first + k)%nat) (run envs first k w).
Proof.
  revert first w. induction k as [|k IH]; intros first w.
  - cbn. rewrite Nat.add_0_r. reflexivity.
  - change (run envs first (S (S k)) w)
      with (run envs (S first) (S k) (updateGame (envs first) w)).
    rewrite IH. cbn [run]. rewrite Nat.add_succ_r. reflexivity.
Qed.

Lemma quiet_snoc envs first k w :
  quiet envs first (S k) w
  = quiet envs first k w &&
    (running (run envs first k w) &&
     negb (playerHit (envs (first + k)%nat) (run envs first k w))).
Proof.
  revert first w. induction k as [|k IH]; intros first w.
  - cbn. rewrite Nat.add_0_r, andb_true_r. reflexivity.
  - change (quiet envs first (S (S k)) w)
      with (running w && negb (playerHit (envs first) w) &&
            quiet envs (S first) (S k) (updateGame (envs first) w)).
    rewrite IH. cbn [quiet run]. rewrite Nat.add_succ_r, andb_assoc. reflexivity.
Qed.

Lemma triple_eq (a b c a' b' c' : Z) :
  a = a' -> b = b' -> c = c' -> (a, b, c) = (a', b', c').
Proof. intros -> -> ->. reflexivity. Qed.

Ltac cmp :=
  repeat (repeat match goal with
          | |- context [?a <? ?b] => destruct (Z.ltb_spec a b)
          | |- context [?a >? ?b] => destruct (Z.gtb_spec a b)
          | |- context [?a =? ?b] => destruct (Z.eqb_spec a b)
          end; cbn [andb]).

Lemma regenNext_closed (s0 mx z : Z) :
  0 <= z -> s0 <= mx ->
  regenNext (closedView s0 mx z) = closedView s0 mx (z + 1).
Proof.
  intros Hz Hs. unfold closedView, regenNext.
  destruct (Z.ltb_spec z 179) as [L | L];
    destruct (Z.ltb_spec (z + 1) 179) as [L' | L']; try lia.
  - cmp; first [apply triple_eq; lia | exfalso; lia].
  - assert (z = 178) by lia. subst z. cbn.
    cmp; first [apply triple_eq; lia | exfalso; lia].
  - cbv zeta.
    assert (Hq : (z + 1 - 179) / 30
                 = (z - 179) / 30 + (if (z - 179) mod 30 =? 29 then 1 else 0)).
    { destruct (Z.eqb_spec ((z - 179) mod 30) 29); Z.div_mod_to_equations; lia. }
    assert (Hr : (z + 1 - 179) mod 30
                 = if (z - 179) mod 30 =? 29 then 0 else (z - 179) mod 30 + 1).
    { destruct (Z.eqb_spec ((z - 179) mod 30) 29); Z.div_mod_to_equations; lia. }
    assert (Hm : 0 <= (z - 179) mod 30 < 30) by (apply Z.mod_pos_bound; lia).
    assert (Hd : 0 <= (z - 179) / 30) by (apply Z.div_pos; lia).
    rewrite Hq, Hr.
    set (q := (z - 179) / 30) in *. set (r := (z - 179) mod 30) in *.
    clearbody q r.
    cmp; first [apply triple_eq; lia | exfalso; lia].
Qed.

(** The regeneration view along frames without a hit, from a world whose
    lockout is 179 (the world a hit frame leaves). *)
Lemma regen_run envs first w1 s0 mx :
  viewOf (player (gameState w1)) = (s0, mx, 179) -> s0 <= mx ->
  forall k, quiet envs first k w1 = true ->
  viewOf (player (gameState (run envs first k w1))) = closedView s0 mx (Z.of_nat k).
Proof.
  intros V Hs. induction k as [|k IH]; intro Q.
  - exact V.
  - rewrite quiet_snoc in Q.
    apply andb_true_iff in Q. destruct Q as [Qk Q].
    apply andb_true_iff in Q. destruct Q as [R Hit].
    apply negb_true_iff in Hit.
    rewrite run_snoc, (frame_quiet _ _ R Hit), (IH Qk).
    rewrite Nat2Z.inj_succ, <- Z.add_1_r.
    apply regenNext_closed; [lia | exact Hs].
Qed.

(** C3, as stated, fails: in the session [oneShot] the projectile
    hits in frame 145 and the shield, left at 92, is back at 93 after
    frame 145 + 179. *)
Lemma shield_locked_for_180_ticks_fails : ~ shield_locked_for_180_ticks.
Proof.
  intro H.
  specialize (H oneShot 145%nat 179%nat (run oneShot 0 145 initialWorld)).
  assert (A : shieldOf (run oneShot 145 180 (run oneShot 0 145 initialWorld)) = 93)
    by (vm_compute; reflexivity).
  assert (B : shieldOf (run oneShot 145 1 (run oneShot 0 145 initialWorld)) = 92)
    by (vm_compute; reflexivity).
  rewrite A, B in H.
  assert (C : 93 <= 92); [|lia].
  apply H.
  - vm_compute. reflexivity.
  - vm_compute. reflexivity.
  - lia.
Qed.

(** C3, amended: after a frame in which an enemy projectile hits,
    and as long as the following frames are executed without a further
    hit, the shield keeps the value [s] the hit frame left for 178 frames,
    gains its first point in the 179th frame after the hit frame, and one
    more point every 30 frames after that, up to the maximal shield: [k]
    frames after the hit frame it is
    [min maxShield (s + regenPoints k)]. *)
Theorem shield_regen_after_hit (envs : nat -> Env) (T k : nat) (w : World) :
  playerHit (envs T) w = true ->
  quiet envs (S T) k (updateGame (envs T) w) = true ->
  shieldOf (run envs T 1 w) <= maxShieldOf (run envs T 1 w) ->
  shieldOf (run envs T (S k) w)
  = Z.min (maxShieldOf (run envs T 1 w)) (shieldOf (run envs T 1 w) + regenPoints k).
Proof.
  intros Hit Q Hs.
  change (run envs T (S k) w) with (run envs (S T) k (updateGame (envs T) w)).
  change (run envs T 1 w) with (updateGame (envs T) w) in *.
  set (w1 := updateGame (envs T) w) in *.
  assert (V : viewOf (player (gameState w1)) = (shieldOf w1, maxShieldOf w1, 179)).
  { unfold viewOf, shieldOf, maxShieldOf.
    pose proof (frame_hit _ _ Hit) as L. unfold lockoutOf in L. fold w1 in L.
    rewrite L. reflexivity. }
  pose proof (regen_run envs (S T) w1 _ _ V Hs k Q) as E.
  unfold shieldOf at 1.
  change (Player.shield (player (gameState (run envs (S T) k w1))))
    with (fst (fst (viewOf (player (gameState (run envs (S T) k w1)))))).
  rewrite E. unfold closedView, regenPoints.
  destruct (Z.ltb_spec (Z.of_nat k) 179); cbn [fst].
  - lia.
  - f_equal. lia.
Qed.

Lemma shield_regen_after_hit_witness :
  let w := run oneShot 0 145 initialWorld in
  shieldOf (run oneShot 145 (S 209) w)
  = Z.min (maxShieldOf (run oneShot 145 1 w))
          (shieldOf (run oneShot 145 1 w) + regenPoints 209).
Proof.
  apply (shield_regen_after_hit oneShot 145 209 (run oneShot 0 145 initialWorld)).
  - vm_compute. reflexivity.
  - vm_compute. reflexivity.
  - vm_compute. discriminate.
Defined.

(** ** The bounds of the player that hold *)

(** Phases that write neither the player nor the enemy projectiles keep
    any property of the two. *)
Section PlayerUntouched.
Variable P : Player.t -> list AlienBullet.t -> Prop.
Let I (m : Mem) : Prop := P (player (newState m)) (alienBullets (newState m)).

Lemma untouched_bulletHit b i e : preserves I (bulletHit b i e).
Proof. unfold bulletHit; cbv zeta; frame. Qed.

Lemma untouched_scanEnemies b n : preserves I (scanEnemies b n).
Proof.
  induction n as [|n IH]; cbn [scanEnemies]; [frame|].
  apply preserves_bind; [leaf | intro s].
  destruct (nth_error (enemies s) n) as [e|]; [|exact IH].
  destruct (checkCollision b e); [|exact IH].
  apply preserves_bind; [apply untouched_bulletHit | intro; frame].
Qed.

Lemma untouched_phases cw prevScore :
  preserves I playerShooting /\ preserves I updateBullets /\
  preserves I (spawnEnemies cw) /\ preserves I bulletEnemyCollisions /\
  preserves I updateParticles /\ preserves I (waveProgression prevScore) /\
  preserves I checkGameOver.
Proof.
  repeat split.
  - unfold playerShooting; frame.
  - unfold updateBullets; frame.
  - unfold spawnEnemies, spawnEnemy; frame.
  - unfold bulletEnemyCollisions, bulletFilter; frame. apply untouched_scanEnemies.
  - unfold updateParticles; frame.
  - unfold waveProgression; frame.
  - unfold checkGameOver; frame.
Qed.
End PlayerUntouched.

Lemma bounded_playerControl : preserves bounded playerControl.
Proof.
  unfold playerControl, bounded, playerBounds. frame.
Qed.

Lemma contactDamage_pos t : 0 < contactDamage t.
Proof. destruct t; reflexivity. Qed.

Lemma bounded_updateEnemies : preserves bounded updateEnemies.
Proof.
  unfold updateEnemies, enemyFilter, bounded, playerBounds. frame.
  intros env m (A & B & C & D). prim. cbn -[contactDamage].
  repeat split; try tauto.
  match goal with
  | |- context [contactDamage ?t] => pose proof (contactDamage_pos t)
  end.
  lia.
Qed.

Lemma preserves_filterM_Forall {A} (I : Mem -> Prop) (f : A -> M bool) (l : list A) :
  Forall (fun a => preserves I (f a)) l -> preserves I (filterM f l).
Proof.
  induction 1 as [|a l Ha Hl IH]; simpl.
  - apply preserves_ret.
  - apply preserves_bind; [exact Ha | intro b].
    apply preserves_bind; [exact IH | intro r; apply preserves_ret].
Qed.

Lemma filterM_Forall {A} (P : A -> Prop) (f : A -> M bool) (l : list A) env m :
  Forall P l -> Forall P (eval (filterM f l) env m).
Proof.
  intro H. revert m. induction H as [|a l Ha Hl IH]; intro m; cbn [filterM].
  - constructor.
  - rewrite !eval_bind. change (eval (ret ?v) env _) with v.
    destruct (eval (f a) env m); [constructor; [exact Ha|]|]; apply IH.
Qed.

Lemma shots_alienBulletFilter v ab :
  preserves (fun m => alienBullets (newState m) = v) (alienBulletFilter ab).
Proof. unfold alienBulletFilter. frame. Qed.

Lemma bounded_alienBulletFilter ab :
  0 < AlienBullet.damage ab -> preserves bounded (alienBulletFilter ab).
Proof.
  intros Hd env m H. unfold bounded.
  rewrite (shots_alienBulletFilter _ ab env m eq_refl).
  destruct (strikes (player (newState m)) ab) eqn:S.
  - destruct (alienBulletFilter_strike env m ab S) as [_ E]. rewrite E.
    destruct H as (A & B & C & D & F & G).
    match goal with
    | |- context [absorbDamage ?d ?q] =>
        destruct (absorbDamage_fields d q) as (Hpos & Hzero & A' & B' & _ & O')
    end.
    cbn in Hpos, Hzero, A', B', O'.
    unfold playerBounds. rewrite A', B', O'.
    repeat split; try assumption;
      destruct (Z_lt_le_dec 0 (Player.shield (player (newState m)))) as [P | P];
      try (destruct Hpos as [X Y]; [lia | rewrite ?X, ?Y; lia]);
      try (destruct Hzero as [X Y]; [lia | rewrite ?X, ?Y; lia]).
  - rewrite (alienBulletFilter_miss env m ab S). exact H.
Qed.

Lemma bounded_updateAlienBullets : preserves bounded updateAlienBullets.
Proof.
  intros env m H. pose proof H as (_ & _ & _ & _ & _ & G).
  assert (G' : Forall (fun ab => 0 < AlienBullet.damage ab)
                      (map moveAlienBullet (alienBullets (newState m)))).
  { apply Forall_forall. intros ab Hab.
    apply in_map_iff in Hab. destruct Hab as (ab0 & <- & Hab).
    rewrite Forall_forall in G. exact (G ab0 Hab). }
  apply (wp_exec updateAlienBullets env m bounded).
  unfold updateAlienBullets. wp_steps.
  unfold wp at 1.
  set (l := map moveAlienBullet (alienBullets (newState m))) in *.
  assert (B : bounded (exec (filterM alienBulletFilter l) env m)).
  { apply preserves_filterM_Forall; [|exact H].
    apply Forall_forall. intros ab Hab. apply bounded_alienBulletFilter.
    rewrite Forall_forall in G'. exact (G' ab Hab). }
  wp_steps. destruct B as (A1 & A2 & A3 & A4 & A5 & _).
  unfold bounded, playerBounds. cbn.
  repeat split; try tauto.
  apply filterM_Forall, G'.
Qed.

Lemma alienBulletDamage_pos t : 0 < alienBulletDamage t.
Proof. destruct t; reflexivity. Qed.

Lemma bounded_enemyShooting : preserves bounded enemyShooting.
Proof.
  unfold enemyShooting, enemyShoot, bounded, playerBounds. frame.
  intros env m (A & B & C & D & E & F). prim. cbn -[alienBulletDamage].
  repeat split; try tauto.
  apply Forall_app. split; [exact F|].
  constructor; [apply alienBulletDamage_pos | constructor].
Qed.

Lemma shieldRegen_others (p : Player.t) :
  Player.health (shieldRegen p) = Player.health p /\
  Player.maxHealth (shieldRegen p) = Player.maxHealth p /\
  Player.obj (shieldRegen p) = Player.obj p.
Proof.
  destruct p as [o h mh s ms c ld af]. unfold shieldRegen. cbn.
  destruct (c >? 0); cbn.
  - destruct ((s <? ms) && (c - 1 =? 0)); cbn; [|repeat split].
    destruct (s + 1 >? ms); repeat split.
  - destruct ((s <? ms) && (c =? 0)); cbn; [|repeat split].
    destruct (s + 1 >? ms); repeat split.
Qed.

Lemma bounded_shieldRegen : preserves bounded (modifyPlayer shieldRegen).
Proof.
  intros env m (A & B & C & D & E & F). prim. unfold bounded, playerBounds.
  cbn [newState player set_player alienBullets].
  destruct (shieldRegen_others (player (newState m))) as (H1 & H2 & H3).
  pose proof (shieldRegen_next (player (newState m))) as V.
  unfold viewOf, regenNext in V.
  rewrite H1, H2, H3.
  repeat split; try assumption;
    revert V; cmp; intro V; injection V as V1 V2 V3; lia.
Qed.

Lemma bounded_updater cw : preserves bounded (updater cw).
Proof.
  unfold updater.
  apply preserves_bind; [leaf | intro prevState].
  pose proof (untouched_phases playerBounds cw (score prevState))
    as (P1 & P2 & P3 & P4 & P5 & P6 & P7).
  apply preserves_bind; [apply bounded_playerControl | intros _].
  apply preserves_bind; [exact P1 | intros _].
  apply preserves_bind; [exact P2 | intros _].
  apply preserves_bind; [exact P3 | intros _].
  apply preserves_bind; [apply bounded_updateEnemies | intros _].
  apply preserves_bind; [exact P4 | intros _].
  apply preserves_bind; [apply bounded_updateAlienBullets | intros _].
  apply preserves_bind; [apply bounded_enemyShooting | intros _].
  apply preserves_bind; [apply bounded_shieldRegen | intros _].
  apply preserves_bind; [exact P5 | intros _].
  apply preserves_bind; [exact P6 | intros _].
  exact P7.
Qed.

(** What holds of the player in every world the session can reach: the
    maxima are 100, health never exceeds its maximum, the shield stays
    between 0 and its maximum, and the box of the player lies in the
    canvas. *)
Lemma player_bounds_reachable (w : World) :
  reachable w ->
  playerBounds (player (gameState w)) (alienBullets (gameState w)).
Proof.
  intro R. induction R as [| env w R IH | w R IH | w R IH].
  - unfold playerBounds. cbn. repeat split; try lia; try constructor.
    discriminate.
  - unfold updateGame.
    destruct (gameOver (gameState w) || paused (gameState w)); [exact IH|].
    cbn [gameState].
    apply (bounded_updater (wave (gameState w)) env (startMem w)). exact IH.
  - exact IH.
  - unfold playerBounds. cbn. repeat split; try lia; try constructor.
    discriminate.
Qed.

(** In a frame from a reachable world the player box is inside the canvas
    when the contact phase starts. *)
Lemma contact_phase_player_in_canvas (env : Env) (w : World) :
  reachable w ->
  let m := exec (playerControl ;; playerShooting ;; updateBullets ;;
                 spawnEnemies (wave (gameState w))) env (startMem w) in
  (y (player (newState m)) + height (player (newState m)) <= CANVAS_HEIGHT)%Q.
Proof.
  intros R m.
  assert (B : bounded m).
  { subst m.
    pose proof (untouched_phases playerBounds (wave (gameState w)) 0)
      as (P1 & P2 & P3 & _).
    apply (preserves_bind bounded); [apply bounded_playerControl | intros _ | ].
    - apply preserves_bind; [exact P1 | intros _].
      apply preserves_bind; [exact P2 | intros _]. exact P3.
    - exact (player_bounds_reachable w R). }
  destruct B as (_ & _ & _ & _ & E & _). exact E.
Qed.

(** * Further properties of the code *)

(** ** The collision test *)

(** The overlap test does not depend on the order of its arguments. *)
Theorem checkCollision_sym (A B : GameObject) :
  checkCollision A B = checkCollision B A.
Proof.
  unfold checkCollision, Qgtb.
  destruct (Qltb (x A) (x B + width B)), (Qltb (x B) (x A + width A)),
           (Qltb (y A) (y B + height B)), (Qltb (y B) (y A + height A));
    reflexivity.
Qed.

(** A body overlaps itself only if its width and its height are both
    positive. *)
Theorem checkCollision_self (A : GameObject) :
  checkCollision A A = true -> (0 < width A /\ 0 < height A)%Q.
Proof.
  rewrite checkCollision_true.
  generalize (x A) (y A) (width A) (height A). intros a b c d.
  intro H. split; lra.
Qed.

Lemma checkCollision_self_witness : (0 < width probeBox /\ 0 < height probeBox)%Q.
Proof.
  apply (checkCollision_self probeBox). reflexivity.
Defined.

(** ** The player *)

(** [playerControl], field by field. *)
Lemma playerControl_spec env m :
  let p := player (newState m) in
  let v := if rightHeld env then PLAYER_SPEED
           else if leftHeld env then (- PLAYER_SPEED)%Q else 0%Q in
  let m' := exec playerControl env m in
  player (newState m')
  = Player.set_animationFrame (m_animationRef m)
      (Player.set_obj
         (mkGameObject
            (mkPosition (Qmax 0 (Qmin (CANVAS_WIDTH - width p) (x p + v))) (y p))
            (width p) (height p) (mkPosition v (y (velocity p))))
         p) /\
  set_player (player (newState m)) (newState m') = newState m /\
  m_lastShotRef m' = m_lastShotRef m /\ m_animationRef m' = m_animationRef m /\
  randomCalls m' = randomCalls m /\ dateCalls m' = dateCalls m.
Proof.
  intros p v m'. subst p v m'.
  apply (wp_exec playerControl env m
           (fun m' => player (newState m') = _ /\
                      set_player (player (newState m)) (newState m') = newState m /\
                      m_lastShotRef m' = _ /\ m_animationRef m' = _ /\
                      randomCalls m' = _ /\ dateCalls m' = _)).
  unfold playerControl, rightHeld, leftHeld. wp_steps.
  destruct (keys env "ArrowLeft" || keys env "a");
    wp_steps;
    destruct (keys env "ArrowRight" || keys env "d");
    wp_steps; cbn;
    destruct (newState m) as [pl bs abs es ps sc go pa wv];
    destruct pl as [o h mh s ms c ld af]; cbn; repeat split.
Qed.

(** The keys decide the horizontal velocity, a right key winning over a
    left key; the player then moves by that velocity and is clamped into
    the canvas; nothing else of the world is touched by the phase. *)
Theorem playerControl_moves (env : Env) (m : Mem) :
  let p := player (newState m) in
  let p' := player (newState (exec playerControl env m)) in
  let v := if rightHeld env then PLAYER_SPEED
           else if leftHeld env then (- PLAYER_SPEED)%Q else 0%Q in
  x (velocity p') = v /\
  x p' = Qmax 0 (Qmin (CANVAS_WIDTH - width p) (x p + v)) /\
  y p' = y p /\ width p' = width p /\ height p' = height p /\
  Player.health p' = Player.health p /\ Player.shield p' = Player.shield p /\
  (rightHeld env = true -> leftHeld env = true -> x (velocity p') = PLAYER_SPEED).
Proof.
  intros p p' v.
  destruct (playerControl_spec env m) as (E & _). fold p in E.
  subst p'. rewrite E. subst v. cbn. repeat split.
  intros R _. rewrite R. reflexivity.
Qed.

Lemma playerControl_moves_witness :
  x (velocity (player (newState
       (exec playerControl (mkEnv (fun _ => true) halfDraws (fun _ => clockAt 0))
             (startMem initialWorld)))))
  = PLAYER_SPEED.
Proof.
  pose proof (playerControl_moves (mkEnv (fun _ => true) halfDraws (fun _ => clockAt 0))
                (startMem initialWorld)) as H.
  cbv zeta in H. destruct H as (_ & _ & _ & _ & _ & _ & _ & H).
  apply H; reflexivity.
Defined.

(** After [playerControl] the box of the player lies between the left and
    the right edge of the canvas, whenever the canvas is at least as wide
    as the player. *)
Lemma playerControl_clamps env m :
  let p := player (newState m) in
  let p' := player (newState (exec playerControl env m)) in
  (width p <= CANVAS_WIDTH)%Q ->
  (0 <= x p')%Q /\ (x p' + width p' <= CANVAS_WIDTH)%Q.
Proof.
  intros p p' W.
  destruct (playerControl_spec env m) as (E & _). fold p in E.
  subst p'. rewrite E. cbn [Player.obj Player.set_animationFrame Player.set_obj
                             x y width height pos].
  split; [apply Q.le_max_l|].
  assert (H : (Qmax 0 (Qmin (CANVAS_WIDTH - width p)
                 (x p + (if rightHeld env then PLAYER_SPEED
                         else if leftHeld env then - PLAYER_SPEED else 0)))
               <= CANVAS_WIDTH - width p)%Q).
  { apply Q.max_lub; [unfold CANVAS_WIDTH in *; lra | apply Q.le_min_l]. }
  lra.
Qed.

(** No phase after [playerControl] writes the box of the player. *)
Lemma obj_alienBulletFilter o ab :
  preserves (fun m => Player.obj (player (newState m)) = o) (alienBulletFilter ab).
Proof.
  intros env m H.
  destruct (strikes (player (newState m)) ab) eqn:S.
  - destruct (alienBulletFilter_strike env m ab S) as [_ E]. rewrite E.
    match goal with
    | |- context [absorbDamage ?d ?q] =>
        destruct (absorbDamage_fields d q) as (_ & _ & _ & _ & _ & B)
    end.
    rewrite B. exact H.
  - rewrite (alienBulletFilter_miss env m ab S). exact H.
Qed.

Lemma obj_afterControl o cw prevScore :
  preserves (fun m => Player.obj (player (newState m)) = o) (afterControl cw prevScore).
Proof.
  pose proof (untouched_phases (fun p _ => Player.obj p = o) cw prevScore)
    as (P1 & P2 & P3 & P4 & P5 & P6 & P7).
  unfold afterControl.
  apply preserves_bind; [exact P1 | intros _].
  apply preserves_bind; [exact P2 | intros _].
  apply preserves_bind; [exact P3 | intros _].
  apply preserves_bind; [unfold updateEnemies, enemyFilter; frame | intros _].
  apply preserves_bind; [exact P4 | intros _].
  apply preserves_bind.
  { unfold updateAlienBullets.
    apply preserves_bind; [leaf | intro s].
    apply preserves_bind;
      [apply preserves_filterM, obj_alienBulletFilter | intro; frame]. }
  intros _.
  apply preserves_bind; [unfold enemyShooting, enemyShoot; frame | intros _].
  apply preserves_bind.
  { intros env m H. prim. cbn [newState player set_player].
    rewrite (proj2 (proj2 (shieldRegen_others _))). exact H. }
  intros _.
  apply preserves_bind; [exact P5 | intros _].
  apply preserves_bind; [exact P6 | intros _].
  exact P7.
Qed.

Lemma exec_get_then (a : M unit) (t : GameState -> M unit) env m :
  exec (s <- getState ;; a ;; t s) env m
  = exec (t (newState m)) env (exec a env m).
Proof. reflexivity. Qed.

Lemma updater_control cw env m :
  exec (updater cw) env m
  = exec (afterControl cw (score (newState m))) env (exec playerControl env m).
Proof.
  unfold updater, afterControl.
  exact (exec_get_then playerControl
           (fun prevState =>
              playerShooting ;; updateBullets ;; spawnEnemies cw ;; updateEnemies ;;
              bulletEnemyCollisions ;; updateAlienBullets ;; enemyShooting ;;
              modifyPlayer shieldRegen ;; updateParticles ;;
              waveProgression (score prevState) ;; checkGameOver)
           env m).
Qed.

(** In an executed frame the box of the player is the one [playerControl]
    leaves. *)
Lemma updateGame_box env w :
  running w = true ->
  boxOf (updateGame env w)
  = Player.obj (player (newState (exec playerControl env (startMem w)))).
Proof.
  intro R. unfold boxOf. rewrite (updateGame_running env w R), updater_control.
  apply (obj_afterControl _ _ _ env (exec playerControl env (startMem w))).
  reflexivity.
Qed.

(** In every world the session can reach, the player is 40 wide and 60
    high, stands at y = 580, and its box lies between the left and the
    right edge of the canvas: x is between 0 and 860. *)
Theorem player_stays_in_canvas (w : World) :
  reachable w ->
  (0 <= x (boxOf w))%Q /\ (x (boxOf w) <= 860)%Q /\ (y (boxOf w) == 580)%Q /\
  width (boxOf w) = 40%Q /\ height (boxOf w) = 60%Q.
Proof.
  intro R. induction R as [| env w R IH | w R IH | w R IH].
  - cbn. repeat split; try reflexivity; discriminate.
  - destruct (running w) eqn:Run.
    + rewrite (updateGame_box env w Run).
      destruct IH as (X0 & X1 & Y & Wd & Ht).
      destruct (playerControl_spec env (startMem w)) as (E & _).
      destruct (playerControl_clamps env (startMem w)) as (C0 & C1).
      { change (width (boxOf w) <= CANVAS_WIDTH)%Q. rewrite Wd. discriminate. }
      set (p' := player (newState (exec playerControl env (startMem w)))) in *.
      assert (Wd' : width p' = width (boxOf w)) by (rewrite E; reflexivity).
      assert (Ht' : height p' = height (boxOf w)) by (rewrite E; reflexivity).
      assert (Y' : y p' = y (boxOf w)) by (rewrite E; reflexivity).
      clearbody p'. rewrite Wd', Wd in C1. unfold CANVAS_WIDTH in C1.
      rewrite Wd', Ht', Y'.
      repeat split; try assumption. lra.
    + unfold running in Run. apply negb_false_iff in Run.
      unfold updateGame. rewrite Run. exact IH.
  - exact IH.
  - cbn. repeat split; try reflexivity; discriminate.
Qed.

Lemma player_stays_in_canvas_witness :
  (0 <= x (boxOf (run sevenScouts 0 3 initialWorld)))%Q.
Proof.
  apply (player_stays_in_canvas (run sevenScouts 0 3 initialWorld)).
  apply reachable_run, reachable_init.
Defined.

(** ** More tools for the updater *)

Lemma preserves_and {A} (I J : Mem -> Prop) (c : M A) :
  preserves I c -> preserves J c -> preserves (fun m => I m /\ J m) c.
Proof.
  intros HI HJ env m [Hi Hj]. split; [apply HI, Hi | apply HJ, Hj].
Qed.

Lemma preserves_scanEnemies (I : Mem -> Prop) b n :
  (forall i e, preserves I (bulletHit b i e)) -> preserves I (scanEnemies b n).
Proof.
  intro Hh. induction n as [|n IH]; cbn [scanEnemies]; [apply preserves_ret|].
  apply preserves_bind; [intros env m H; exact H | intro s].
  destruct (nth_error (enemies s) n) as [e|]; [|exact IH].
  destruct (checkCollision b e); [|exact IH].
  apply preserves_bind; [apply Hh | intro; apply preserves_ret].
Qed.

(** Crossing a command with a pre- and a postcondition. *)
Lemma wp_hoare {A} (P R : Mem -> Prop) (c : M A) env m (Q : A -> Mem -> Prop) :
  (forall m0, P m0 -> R (exec c env m0)) -> P m ->
  (forall a m', R m' -> Q a m') -> wp c env m Q.
Proof.
  intros Hc Hm HQ. apply HQ. apply Hc. exact Hm.
Qed.

(** The phases of the updater, opened down to their primitives and loops. *)
Ltac open_phases :=
  unfold updater, afterControl, beforeAlienBullets, playerControl, playerShooting,
    updateBullets, spawnEnemies, spawnEnemy, updateEnemies, enemyFilter,
    bulletEnemyCollisions, bulletFilter, updateAlienBullets, alienBulletFilter,
    enemyShooting, enemyShoot, updateParticles, waveProgression, checkGameOver.

(** Structural descent that also crosses the scan of the enemy list; the
    primitive writes it cannot discharge are left as goals. *)
Ltac frames :=
  lazymatch goal with
  | |- preserves _ (bind _ _) => apply preserves_bind; [frames | intro; frames]
  | |- preserves _ (ret _) => apply preserves_ret
  | |- preserves _ (forLoop _ _) => apply preserves_forLoop; frames
  | |- preserves _ (filterM _ _) => apply preserves_filterM; intro; frames
  | |- preserves _ (filterMutM _ _) => apply preserves_filterMutM; intro; frames
  | |- preserves _ (forEachMutM _ _) => apply preserves_forEachMutM; intro; frames
  | |- preserves _ (scanEnemies _ _) =>
      apply preserves_scanEnemies; intros; unfold bulletHit; cbv zeta; frames
  | |- preserves _ (if ?b then _ else _) => destruct b; frames
  | |- preserves _ (match ?t with scout => _ | heavy => _ | boss => _ end) =>
      destruct t; frames
  | |- _ => first [assumption | leaf | idtac]
  end.

(** ** Pause and game over *)

(** No phase of the updater writes the pause flag. *)
Lemma paused_updater v cw :
  preserves (fun m => paused (newState m) = v) (updater cw).
Proof. open_phases. frames. Qed.

Lemma updateGame_paused env w :
  paused (gameState (updateGame env w)) = paused (gameState w).
Proof.
  unfold updateGame.
  destruct (gameOver (gameState w) || paused (gameState w)); [reflexivity|].
  cbn [gameState].
  apply (paused_updater _ (wave (gameState w)) env (startMem w)). reflexivity.
Qed.

(** A world that is over or paused is left as it is by any number of
    frames. *)
Lemma run_not_running envs first n w :
  running w = false -> run envs first n w = w.
Proof.
  intro R. revert first. induction n as [|n IH]; intro first; [reflexivity|].
  cbn [run].
  assert (E : updateGame (envs first) w = w).
  { unfold updateGame. unfold running in R. apply negb_false_iff in R.
    rewrite R. reflexivity. }
  rewrite E. apply IH.
Qed.

Lemma togglePause_twice w : togglePause (togglePause w) = w.
Proof.
  destruct w as [[p bs abs es ps sc go pa wv] l a]. unfold togglePause. cbn.
  rewrite negb_involutive. reflexivity.
Qed.

(** Pausing, letting any number of frames go by and resuming gives back
    exactly the world that was paused: state, refs and all. *)
Theorem pause_resume (envs : nat -> Env) (first n : nat) (w : World) :
  paused (gameState w) = false ->
  togglePause (run envs first n (togglePause w)) = w.
Proof.
  intro P. rewrite run_not_running; [apply togglePause_twice|].
  unfold running, togglePause. cbn. rewrite P, orb_true_r. reflexivity.
Qed.

Lemma pause_resume_witness :
  togglePause (run sevenScouts 0 5 (togglePause initialWorld)) = initialWorld.
Proof.
  apply (pause_resume sevenScouts 0 5 initialWorld). reflexivity.
Defined.

(** The game-over flag after the updater: set when it was set, or when
    the final health is not positive. *)
Lemma updater_gameOver cw env m :
  let m' := exec (updater cw) env m in
  gameOver (newState m')
  = gameOver (newState m) || (Player.health (player (newState m')) <=? 0).
Proof.
  intro m'. subst m'.
  apply (wp_exec (updater cw) env m
           (fun m' => gameOver (newState m')
                      = gameOver (newState m)
                        || (Player.health (player (newState m')) <=? 0))).
  unfold updater. wp_step. wp_step.
  do 11 (apply wp_bind;
         eapply (wp_preserves (fun m' => gameOver (newState m') = gameOver (newState m)));
         [open_phases; frames | try reflexivity; try assumption | intros _ ? ?]).
  unfold checkGameOver. wp_steps.
  match goal with
  | H : gameOver _ = gameOver (newState m) |- _ => rename H into G
  end.
  destruct (Player.health _ <=? 0) eqn:D; wp_steps; cbn.
  - rewrite D, orb_true_r. reflexivity.
  - rewrite D, orb_false_r. exact G.
Qed.

Lemma gameOver_reachable (w : World) :
  reachable w -> gameOver (gameState w) = (healthOf w <=? 0).
Proof.
  intro R. induction R as [| env w R IH | w R IH | w R IH].
  - reflexivity.
  - unfold updateGame.
    destruct (gameOver (gameState w) || paused (gameState w)) eqn:N; [exact IH|].
    apply orb_false_iff in N. destruct N as [G _].
    unfold healthOf. cbn [gameState].
    rewrite (updater_gameOver (wave (gameState w)) env (startMem w)).
    cbn [startMem newState]. rewrite G. reflexivity.
  - exact IH.
  - reflexivity.
Qed.

(** In every world the session can reach, the game is over exactly when
    the health of the player is not positive; and from then on no number
    of frames changes anything. *)
Theorem dead_is_final (envs : nat -> Env) (first n : nat) (w : World) :
  reachable w ->
  (gameOver (gameState w) = true <-> healthOf w <= 0) /\
  (healthOf w <= 0 -> run envs first n w = w).
Proof.
  intro R. pose proof (gameOver_reachable w R) as G.
  assert (I : gameOver (gameState w) = true <-> healthOf w <= 0).
  { rewrite G. apply Z.leb_le. }
  split; [exact I|].
  intro D. apply run_not_running. unfold running.
  rewrite (proj2 I D). reflexivity.
Qed.

Lemma dead_is_final_witness :
  let w := run sevenScouts 0 397 initialWorld in
  run idleEnvs 0 10 w = w.
Proof.
  refine (proj2 (dead_is_final idleEnvs 0 10
                   (run sevenScouts 0 397 initialWorld) _) _).
  - apply reachable_run, reachable_init.
  - vm_compute. discriminate.
Defined.

(** ** Health and shield from one frame to the next *)

Section Caps.
Variables h0 s0 : Z.
Hypothesis h0_nonneg : 0 <= h0.

Let capOnly (m : Mem) : Prop :=
  Player.health (player (newState m)) <= h0 /\
  Player.shield (player (newState m)) <= s0.

Lemma capped_split m : capped h0 s0 m <-> bounded m /\ capOnly m.
Proof. unfold capped, playerCap, bounded, capOnly. tauto. Qed.

Lemma preserves_capped {A} (c : M A) :
  preserves bounded c -> preserves capOnly c -> preserves (capped h0 s0) c.
Proof.
  intros Hb Hc env m H. apply capped_split in H. apply capped_split.
  destruct H as [B C]. split; [apply Hb, B | apply Hc, C].
Qed.

Lemma capOnly_alienBulletFilter ab :
  0 < AlienBullet.damage ab -> preserves capOnly (alienBulletFilter ab).
Proof.
  intros Hd env m [Hh Hs]. unfold capOnly.
  destruct (strikes (player (newState m)) ab) eqn:S.
  - destruct (alienBulletFilter_strike env m ab S) as [_ E]. rewrite E.
    match goal with
    | |- context [absorbDamage ?d ?q] =>
        destruct (absorbDamage_fields d q) as (Hpos & Hzero & _)
    end.
    cbn in Hpos, Hzero.
    destruct (Z_lt_le_dec 0 (Player.shield (player (newState m)))) as [P | P].
    + destruct Hpos as [X Y]; [lia | rewrite X, Y; lia].
    + destruct Hzero as [X Y]; [lia | rewrite X, Y; lia].
  - rewrite (alienBulletFilter_miss env m ab S). split; assumption.
Qed.

Lemma capped_updateAlienBullets : preserves (capped h0 s0) updateAlienBullets.
Proof.
  intros env m H. apply capped_split in H. destruct H as [B C].
  apply capped_split. split; [apply bounded_updateAlienBullets, B|].
  pose proof B as (_ & _ & _ & _ & _ & G).
  apply (wp_exec updateAlienBullets env m capOnly).
  unfold updateAlienBullets. wp_steps. unfold wp at 1.
  assert (K : capOnly (exec (filterM alienBulletFilter
                               (map moveAlienBullet (alienBullets (newState m))))
                            env m)).
  { apply preserves_filterM_Forall; [|exact C].
    apply Forall_forall. intros ab Hab. apply capOnly_alienBulletFilter.
    apply in_map_iff in Hab. destruct Hab as (ab0 & <- & Hab).
    rewrite Forall_forall in G. exact (G ab0 Hab). }
  wp_steps. exact K.
Qed.

Lemma capped_before_regen cw :
  preserves (capped h0 s0) playerControl /\
  preserves (capped h0 s0) playerShooting /\
  preserves (capped h0 s0) updateBullets /\
  preserves (capped h0 s0) (spawnEnemies cw) /\
  preserves (capped h0 s0) updateEnemies /\
  preserves (capped h0 s0) bulletEnemyCollisions /\
  preserves (capped h0 s0) updateAlienBullets /\
  preserves (capped h0 s0) enemyShooting.
Proof.
  pose proof (untouched_phases (playerCap h0 s0) cw 0)
    as (P1 & P2 & P3 & P4 & _).
  split; [|split; [exact P1|split; [exact P2|split; [exact P3|
          split; [|split; [exact P4|split]]]]]].
  - apply preserves_capped; [apply bounded_playerControl|].
    unfold capOnly. open_phases. frames.
  - apply preserves_capped; [apply bounded_updateEnemies|].
    unfold capOnly. open_phases. frames.
    intros env m [Hh Hs]. prim. cbn -[contactDamage]. split; [|exact Hs].
    match goal with
    | |- context [contactDamage ?t] => pose proof (contactDamage_pos t)
    end.
    lia.
  - apply capped_updateAlienBullets.
  - apply preserves_capped; [apply bounded_enemyShooting|].
    unfold capOnly. open_phases. frames.
Qed.
End Caps.

Lemma capped_shieldRegen h0 s0 env m :
  capped h0 s0 m -> capped h0 (s0 + 1) (exec (modifyPlayer shieldRegen) env m).
Proof.
  intros (B & Hh & Hs). split; [apply bounded_shieldRegen, B|].
  prim. cbn [newState player set_player].
  destruct (shieldRegen_others (player (newState m))) as (H1 & _).
  pose proof (shieldRegen_next (player (newState m))) as V.
  unfold viewOf, regenNext in V. rewrite H1. split; [exact Hh|].
  revert V. cmp; intro V; injection V as V1 V2 V3; lia.
Qed.

(** One run of the updater: health does not go above a non-negative cap
    it was under, and the shield gains at most one point. *)
Lemma capped_updater h0 s0 cw env m :
  0 <= h0 -> capped h0 s0 m -> capped h0 (s0 + 1) (exec (updater cw) env m).
Proof.
  intros H0 C.
  pose proof (capped_before_regen h0 s0 H0 cw)
    as (P1 & P2 & P3 & P4 & P5 & P6 & P7 & P8).
  pose proof (untouched_phases (playerCap h0 (s0 + 1)) cw (score (newState m)))
    as (_ & _ & _ & _ & R1 & R2 & R3).
  apply (wp_exec (updater cw) env m (capped h0 (s0 + 1))).
  unfold updater. wp_step. wp_step.
  do 8 (apply wp_bind;
        eapply (wp_preserves (capped h0 s0));
        [first [exact P1 | exact P2 | exact P3 | exact P4
               | exact P5 | exact P6 | exact P7 | exact P8]
        | assumption | intros _ ? ?]).
  apply wp_bind.
  eapply (wp_hoare (capped h0 s0) (capped h0 (s0 + 1)));
    [intros m0 Hm0; apply capped_shieldRegen, Hm0 | assumption | intros _ ? ?].
  apply wp_bind.
  eapply (wp_preserves (capped h0 (s0 + 1))); [exact R1 | assumption | intros _ ? ?].
  apply wp_bind.
  eapply (wp_preserves (capped h0 (s0 + 1))); [exact R2 | assumption | intros _ ? ?].
  eapply (wp_preserves (capped h0 (s0 + 1))); [exact R3 | assumption | intros _ ? ?].
  assumption.
Qed.

(** From one frame to the next, in every world the session can reach:
    health never goes up, and the shield gains at most one point. *)
Theorem health_never_increases (env : Env) (w : World) :
  reachable w ->
  healthOf (updateGame env w) <= healthOf w /\
  shieldOf (updateGame env w) <= shieldOf w + 1.
Proof.
  intro R. unfold updateGame.
  destruct (gameOver (gameState w) || paused (gameState w)) eqn:N; [lia|].
  apply orb_false_iff in N. destruct N as [G _].
  rewrite (gameOver_reachable w R) in G. apply Z.leb_gt in G.
  assert (C : capped (healthOf w) (shieldOf w) (startMem w)).
  { split; [exact (player_bounds_reachable w R)|].
    unfold healthOf, shieldOf. cbn. lia. }
  apply (capped_updater _ _ (wave (gameState w)) env) in C; [|lia].
  destruct C as (_ & Hh & Hs). unfold healthOf, shieldOf. cbn [gameState].
  split; assumption.
Qed.

Lemma health_never_increases_witness :
  let w := run sevenScouts 0 391 initialWorld in
  healthOf (updateGame idleEnv w) <= healthOf w /\
  shieldOf (updateGame idleEnv w) <= shieldOf w + 1.
Proof.
  apply (health_never_increases idleEnv (run sevenScouts 0 391 initialWorld)).
  apply reachable_run, reachable_init.
Defined.

(** ** Score and wave *)

Lemma killPoints_bounds t : 10 <= killPoints t <= 50.
Proof. destruct t; cbn; lia. Qed.

Lemma bulletFilter_score env m b :
  score (newState m) <= score (newState (exec (bulletFilter b) env m))
                     <= score (newState m) + 50.
Proof.
  unfold bulletFilter. rewrite exec_bind.
  change (eval getState env m) with (newState m).
  change (exec getState env m) with m.
  destruct (scanEnemies_spec env b (List.length (enemies (newState m))) m (le_n _))
    as [(_ & _ & ->) | (i & e & _ & _ & _ & _ & _ & ->)]; [lia|].
  destruct (bulletHit_spec env m b i e) as [_ S]. rewrite S.
  pose proof (killPoints_bounds (Enemy.type e)).
  destruct (Enemy.health e - 1 <=? 0); lia.
Qed.

Lemma filterM_bulletFilter_score l env m :
  score (newState m) <= score (newState (exec (filterM bulletFilter l) env m))
                     <= score (newState m) + 50 * Z.of_nat (List.length l).
Proof.
  revert m. induction l as [|b l IH]; intro m; cbn [filterM List.length].
  - change (exec (ret _) env m) with m. lia.
  - rewrite !exec_bind. change (exec (ret _) env ?mm) with mm.
    pose proof (bulletFilter_score env m b) as H1.
    pose proof (IH (exec (bulletFilter b) env m)) as H2.
    rewrite Nat2Z.inj_succ. lia.
Qed.

Lemma filter_length_le {A} (f : A -> bool) (l : list A) :
  (List.length (filter f l) <= List.length l)%nat.
Proof.
  induction l as [|a l IH]; cbn; [lia|]. destruct (f a); cbn; lia.
Qed.

(** The score over one run of the updater. *)
Lemma updater_score cw env w :
  let m' := exec (updater cw) env (startMem w) in
  let shots := Z.of_nat (List.length (bullets (gameState w)))
               + (if fires env w then 1 else 0) in
  score (gameState w) <= score (newState m') <= score (gameState w) + 50 * shots.
Proof.
  intros m' shots. subst m'.
  set (s0 := score (gameState w)).
  apply (wp_exec (updater cw) env (startMem w)
           (fun m' => s0 <= score (newState m') <= s0 + 50 * shots)).
  unfold updater. wp_step. wp_step.
  set (I0 := fun m : Mem =>
               bullets (newState m) = bullets (gameState w) /\
               score (newState m) = s0 /\
               m_lastShotRef m = lastShotRef w /\ dateCalls m = 0%nat).
  set (I1 := fun m : Mem =>
               Z.of_nat (List.length (bullets (newState m))) <= shots /\
               score (newState m) = s0).
  set (I2 := fun m : Mem => s0 <= score (newState m) <= s0 + 50 * shots).
  apply wp_bind.
  apply (wp_preserves I0); [subst I0; open_phases; frames | subst I0; repeat split
                           | intros _ m1 H1].
  apply wp_bind.
  apply (wp_hoare I0 I1); [ | exact H1 | intros _ m2 H2].
  { intros m0 (B & S & L & D). subst I1. cbv beta.
    apply (wp_exec playerShooting env m0
             (fun m' => Z.of_nat (List.length (bullets (newState m'))) <= shots /\
                        score (newState m') = s0)).
    unfold playerShooting. wp_steps. rewrite D, L.
    change (keys env " " || keys env "w" || keys env "ArrowUp") with (fireHeld env).
    change (fireHeld env && (dateNow env 0 - lastShotRef w >? 120))
      with (fires env w).
    subst shots.
    destruct (fires env w); wp_steps; cbn; rewrite ?B, ?S.
    - rewrite length_app, Nat2Z.inj_add. cbn. split; [lia | reflexivity].
    - split; [lia | reflexivity]. }
  apply wp_bind.
  apply (wp_preserves I1); [ | exact H2 | intros _ m3 H3].
  { intros env0 m0 (B & S). subst I1. cbv beta. prim. cbn. split; [|exact S].
    pose proof (filter_length_le (fun b : Bullet.t => Qgtb (y b) (-15))
                  (map moveBullet (bullets (newState m0)))) as F.
    rewrite length_map in F. lia. }
  apply wp_bind.
  apply (wp_preserves I1); [subst I1; open_phases; frames | exact H3 | intros _ m4 H4].
  apply wp_bind.
  apply (wp_preserves I1); [subst I1; open_phases; frames | exact H4 | intros _ m5 H5].
  apply wp_bind.
  apply (wp_hoare I1 I2); [ | exact H5 | intros _ m6 H6].
  { intros m0 (B & S). subst I2. cbv beta.
    apply (wp_exec bulletEnemyCollisions env m0
             (fun m' => s0 <= score (newState m') <= s0 + 50 * shots)).
    unfold bulletEnemyCollisions. wp_steps. unfold wp at 1. wp_steps.
    cbn [newState score set_bullets].
    pose proof (filterM_bulletFilter_score (bullets (newState m0)) env m0) as F.
    rewrite S in F. lia. }
  do 5 (apply wp_bind;
        eapply (wp_preserves I2);
        [subst I2; open_phases; frames | assumption | intros _ ? ?]).
  eapply (wp_preserves I2);
    [subst I2; open_phases; frames | assumption | intros _ ? ?].
  assumption.
Qed.

Lemma updateGame_score env w :
  let shots := Z.of_nat (List.length (bullets (gameState w)))
               + (if fires env w then 1 else 0) in
  score (gameState w) <= score (gameState (updateGame env w))
                      <= score (gameState w) + 50 * shots.
Proof.
  intro shots. unfold updateGame.
  destruct (gameOver (gameState w) || paused (gameState w)).
  - subst shots. destruct (fires env w); lia.
  - cbn [gameState]. exact (updater_score (wave (gameState w)) env w).
Qed.


(** In every world the session can reach the score is not negative and
    the wave is at least 1; neither ever goes down from one frame to the
    next. *)
Theorem score_and_wave_bounds (env : Env) (w : World) :
  reachable w ->
  0 <= score (gameState w) /\ 1 <= wave (gameState w) /\
  score (gameState w) <= score (gameState (updateGame env w)) /\
  wave (gameState w) <= wave (gameState (updateGame env w)).
Proof.
  intro R.
  assert (M : forall e v,
             wave (gameState v) <= wave (gameState (updateGame e v))).
  { intros e v. unfold updateGame.
    destruct (gameOver (gameState v) || paused (gameState v)); [lia|].
    cbn [gameState].
    pose proof (updater_wave e (startMem v)) as U.
    cbv zeta in U. cbn [startMem newState] in U. rewrite U.
    destruct (_ && _); lia. }
  assert (B : 0 <= score (gameState w) /\ 1 <= wave (gameState w)).
  { induction R as [| e v R IH | v R IH | v R IH].
    - cbn. lia.
    - pose proof (updateGame_score e v) as S. cbv zeta in S.
      pose proof (M e v). lia.
    - exact IH.
    - cbn. lia. }
  pose proof (updateGame_score env w) as S. cbv zeta in S.
  pose proof (M env w). lia.
Qed.

Lemma score_and_wave_bounds_witness :
  let w := updateGame idleEnv initialWorld in
  0 <= score (gameState w) /\ 1 <= wave (gameState w) /\
  score (gameState w) <= score (gameState (updateGame idleEnv w)) /\
  wave (gameState w) <= wave (gameState (updateGame idleEnv w)).
Proof.
  apply (score_and_wave_bounds idleEnv (updateGame idleEnv initialWorld)).
  apply reachable_step, reachable_init.
Defined.

(** ** Spawning *)

(** The enemy [spawnEnemy] builds, from the type picked and the two draws
    that follow. *)
Lemma spawnEnemy_fields env m waveNo :
  let t := pickType waveNo (random env (randomCalls m)) in
  let rx := random env (S (randomCalls m)) in
  let rv := random env (S (S (randomCalls m))) in
  let e := eval (spawnEnemy waveNo) env m in
  Enemy.type e = t /\ Enemy.health e = typeHealth t /\
  width e = typeWidth t /\ height e = typeHeight t /\
  y (velocity e) = typeSpeed t /\
  x e = (rx * (CANVAS_WIDTH - typeWidth t))%Q /\
  y e = (- typeWidth t)%Q /\
  x (velocity e)
  = ((rv - (1 # 2)) * match t with scout => 2 | heavy => 1 | boss => 1 # 2 end)%Q /\
  Enemy.lastShot e = 0.
Proof.
  intros t rx rv e. subst t rx rv e.
  apply (wp_eval_exec (spawnEnemy waveNo) env m
           (fun e _ => Enemy.type e = _ /\ Enemy.health e = _ /\ width e = _ /\
                       height e = _ /\ y (velocity e) = _ /\ x e = _ /\ y e = _ /\
                       x (velocity e) = _ /\ Enemy.lastShot e = 0)).
  unfold spawnEnemy. wp_steps. cbv zeta.
  destruct (pickType waveNo (random env (randomCalls m))); wp_steps; cbn;
    repeat split.
Qed.

(** For draws in [0,1) a spawned enemy starts entirely above the canvas,
    horizontally inside it, falling, with a sideways drift of at most one
    unit per frame, and with the health of its type. *)
Theorem spawnEnemy_placement (env : Env) (m : Mem) (waveNo : Z) :
  let rx := random env (S (randomCalls m)) in
  let rv := random env (S (S (randomCalls m))) in
  let e := eval (spawnEnemy waveNo) env m in
  (0 <= rx)%Q -> (rx < 1)%Q -> (0 <= rv)%Q -> (rv < 1)%Q ->
  (0 <= x e)%Q /\ (x e + width e < CANVAS_WIDTH)%Q /\
  (y e + height e < 0)%Q /\
  (0 < y (velocity e))%Q /\
  (-1 <= x (velocity e))%Q /\ (x (velocity e) < 1)%Q /\
  Enemy.health e = typeHealth (Enemy.type e) /\
  width e = typeWidth (Enemy.type e) /\ height e = typeHeight (Enemy.type e).
Proof.
  intros rx rv e X0 X1 V0 V1.
  destruct (spawnEnemy_fields env m waveNo)
    as (T & H & W & Ht & Vy & X & Y & Vx & _).
  fold e rx rv in T, H, W, Ht, Vy, X, Y, Vx.
  rewrite T. rewrite H, W, Ht, Vy, X, Y, Vx.
  clearbody rx rv. clear T H W Ht Vy X Y Vx.
  unfold CANVAS_WIDTH, ENEMY_SPEED.
  destruct (pickType waveNo (random env (randomCalls m))); cbn [typeWidth typeHeight typeHealth typeSpeed];
    repeat split; try lra; try nra.
Qed.

Lemma spawnEnemy_placement_witness :
  let e := eval (spawnEnemy 1) spawnEnv (startMem initialWorld) in
  (0 <= x e)%Q /\ (x e + width e < CANVAS_WIDTH)%Q.
Proof.
  pose proof (spawnEnemy_placement spawnEnv (startMem initialWorld) 1) as H.
  cbv zeta in H.
  destruct H as (A & B & _); try (vm_compute; reflexivity || discriminate).
  split; assumption.
Defined.

Lemma spawnRate_high (waveNo : Z) (r : Q) :
  329 <= waveNo -> (r < 1)%Q -> Qltb r (spawnRate waveNo) = true.
Proof.
  intros W R. apply Qltb_lt. unfold spawnRate.
  assert (H : (329 <= inject_Z waveNo)%Q).
  { change 329%Q with (inject_Z 329). rewrite <- Zle_Qle. exact W. }
  lra.
Qed.

(** The spawn test: an enemy is appended when the draw is below
    0.015 + 0.003 * wave, and the enemy list is left alone otherwise.  The
    rate has no cap: from wave 329 on it exceeds 1 and every executed frame
    spawns. *)
Theorem spawn_gate (env : Env) (m : Mem) (cw : Z) :
  let r := random env (randomCalls m) in
  let es := enemies (newState m) in
  let es' := enemies (newState (exec (spawnEnemies cw) env m)) in
  ((r < spawnRate (wave (newState m)))%Q ->
   exists e, es' = es ++ [e] /\ Enemy.health e = typeHealth (Enemy.type e)) /\
  ((spawnRate (wave (newState m)) <= r)%Q -> es' = es) /\
  ((r < 1)%Q -> 329 <= wave (newState m) -> List.length es' = S (List.length es)).
Proof.
  intros r es es'.
  assert (A : Qltb r (spawnRate (wave (newState m))) = true ->
              exists e, es' = es ++ [e] /\ Enemy.health e = typeHealth (Enemy.type e)).
  { intro L. subst es' es r.
    apply (wp_exec (spawnEnemies cw) env m
             (fun m' => exists e, enemies (newState m') = enemies (newState m) ++ [e] /\
                                  Enemy.health e = typeHealth (Enemy.type e))).
    unfold spawnEnemies. wp_steps. rewrite L. wp_steps.
    match goal with
    | |- wp (spawnEnemy cw) env ?m1 _ =>
        unfold wp at 1; wp_steps; cbn [enemies set_enemies];
        rewrite (spawnEnemy_enemies env m1 cw); cbn [newState];
        exists (eval (spawnEnemy cw) env m1); split; [reflexivity|];
        destruct (spawnEnemy_fields env m1 cw) as (T & H & _);
        rewrite H, T; reflexivity
    end. }
  split; [intro L; apply A, Qltb_lt, L|].
  split.
  - intro G. apply Qltb_ge in G. subst es' es r.
    apply (wp_exec (spawnEnemies cw) env m
             (fun m' => enemies (newState m') = enemies (newState m))).
    unfold spawnEnemies. wp_steps. rewrite G. wp_steps. reflexivity.
  - intros R W. destruct (A (spawnRate_high _ _ W R)) as (e & -> & _).
    rewrite length_app. cbn. lia.
Qed.

Lemma spawn_gate_witness :
  let m := startMem initialWorld in
  exists e, enemies (newState (exec (spawnEnemies 1) spawnEnv m))
            = enemies (newState m) ++ [e] /\
            Enemy.health e = typeHealth (Enemy.type e).
Proof.
  refine (proj1 (spawn_gate spawnEnv (startMem initialWorld) 1) _).
  vm_compute. reflexivity.
Defined.

(** ** The enemies of a world *)

(** Phases that do not write the enemy list keep any property of it. *)
Lemma enemies_untouched (P : list Enemy.t -> Prop) prevScore :
  let I := fun m : Mem => P (enemies (newState m)) in
  preserves I playerControl /\ preserves I playerShooting /\
  preserves I updateBullets /\ preserves I updateAlienBullets /\
  preserves I (modifyPlayer shieldRegen) /\ preserves I updateParticles /\
  preserves I (waveProgression prevScore) /\ preserves I checkGameOver.
Proof.
  intro I. subst I. repeat apply conj; open_phases; frames.
Qed.

Lemma wellFormed_spawnEnemies cw : preserves wellFormed (spawnEnemies cw).
Proof.
  intros env m H. unfold wellFormed in *.
  apply (wp_exec (spawnEnemies cw) env m
           (fun m' => Forall wellFormedEnemy (enemies (newState m')))).
  unfold spawnEnemies. wp_steps.
  destruct (Qltb _ _); wp_steps; [|exact H].
  match goal with
  | |- wp (spawnEnemy cw) env ?m1 _ =>
      unfold wp at 1; wp_steps; cbn [enemies set_enemies];
      rewrite (spawnEnemy_enemies env m1 cw); cbn [newState];
      apply Forall_app; split; [exact H|];
      constructor; [|constructor];
      destruct (spawnEnemy_fields env m1 cw) as (T & Hh & W & Ht & Vy & _);
      unfold wellFormedEnemy; rewrite Hh, W, Ht, Vy, T; repeat split; lia
  end.
Qed.

Lemma wellFormed_bounce e : wellFormedEnemy e -> wellFormedEnemy (bounce e).
Proof.
  unfold bounce.
  destruct (Qleb (x e) 0 || Qgeb (x e) (CANVAS_WIDTH - width e)); intro H; exact H.
Qed.

Lemma wellFormed_updateEnemies : preserves wellFormed updateEnemies.
Proof.
  intros env m H. unfold wellFormed in *.
  destruct (updateEnemies_spec env m) as (_ & _ & E). rewrite E.
  apply Forall_forall. intros e He.
  apply in_map_iff in He. destruct He as (e1 & <- & He).
  apply filter_In in He. destruct He as [He _].
  apply in_map_iff in He. destruct He as (e0 & <- & He).
  apply wellFormed_bounce.
  rewrite Forall_forall in H. exact (H e0 He).
Qed.

Lemma wellFormed_bulletFilter b : preserves wellFormed (bulletFilter b).
Proof.
  intros env m H. unfold wellFormed in *.
  unfold bulletFilter. rewrite exec_bind.
  change (eval getState env m) with (newState m).
  change (exec getState env m) with m.
  destruct (scanEnemies_spec env b (List.length (enemies (newState m))) m (le_n _))
    as [(_ & _ & ->) | (i & e & _ & N & _ & _ & _ & ->)]; [exact H|].
  destruct (bulletHit_spec env m b i e) as [S _]. rewrite S.
  destruct (Z.leb_spec (Enemy.health e - 1) 0).
  - apply Forall_splice1, H.
  - apply Forall_list_set; [|exact H].
    apply nth_error_In in N. rewrite Forall_forall in H.
    destruct (H e N) as (A & B & C & D).
    unfold wellFormedEnemy. cbn. repeat split; try assumption. lia.
Qed.

Lemma enemyShoot_fields env m e :
  let e' := eval (enemyShoot e) env m in
  Enemy.obj e' = Enemy.obj e /\ Enemy.health e' = Enemy.health e /\
  Enemy.type e' = Enemy.type e.
Proof.
  apply (wp_eval_exec (enemyShoot e) env m
           (fun e' _ => Enemy.obj e' = Enemy.obj e /\
                        Enemy.health e' = Enemy.health e /\
                        Enemy.type e' = Enemy.type e)).
  unfold enemyShoot. wp_steps.
  destruct (_ >? _); wp_steps; [|repeat split].
  destruct (Qltb _ _); wp_steps; repeat split.
Qed.

Lemma forEachMutM_enemyShoot_Forall (P : Enemy.t -> Prop) l env m :
  (forall e e', Enemy.obj e' = Enemy.obj e -> Enemy.health e' = Enemy.health e ->
                Enemy.type e' = Enemy.type e -> P e -> P e') ->
  Forall P l -> Forall P (eval (forEachMutM enemyShoot l) env m).
Proof.
  intro HP. revert m. induction l as [|a l IH]; intros m H; cbn [forEachMutM].
  - constructor.
  - inversion H; subst. rewrite !eval_bind.
    change (eval (ret ?v) env _) with v.
    constructor; [|apply IH; assumption].
    destruct (enemyShoot_fields env m a) as (A & B & C).
    exact (HP a _ A B C H2).
Qed.

Lemma forEachMutM_length {A} (f : A -> M A) l env m :
  List.length (eval (forEachMutM f l) env m) = List.length l.
Proof.
  revert m. induction l as [|a l IH]; intro m; cbn [forEachMutM]; [reflexivity|].
  rewrite !eval_bind. change (eval (ret ?v) env _) with v.
  cbn [List.length]. rewrite IH. reflexivity.
Qed.

Lemma enemyShooting_enemies env m :
  enemies (newState (exec enemyShooting env m))
  = eval (forEachMutM enemyShoot (enemies (newState m))) env m.
Proof.
  unfold enemyShooting. rewrite !exec_bind.
  change (eval getState env m) with (newState m).
  change (exec getState env m) with m.
  reflexivity.
Qed.

Lemma wellFormed_enemyShooting : preserves wellFormed enemyShooting.
Proof.
  intros env m H. unfold wellFormed in *. rewrite enemyShooting_enemies.
  apply forEachMutM_enemyShoot_Forall; [|exact H].
  intros e e' A B C (W1 & W2 & W3 & W4).
  unfold wellFormedEnemy. rewrite A, B, C. repeat split; assumption.
Qed.

Lemma wellFormed_updater cw : preserves wellFormed (updater cw).
Proof.
  unfold updater.
  apply preserves_bind; [intros env m H; exact H | intro prevState].
  pose proof (enemies_untouched (Forall wellFormedEnemy) (score prevState))
    as (P1 & P2 & P3 & P4 & P5 & P6 & P7 & P8).
  apply preserves_bind; [exact P1 | intros _].
  apply preserves_bind; [exact P2 | intros _].
  apply preserves_bind; [exact P3 | intros _].
  apply preserves_bind; [apply wellFormed_spawnEnemies | intros _].
  apply preserves_bind; [apply wellFormed_updateEnemies | intros _].
  apply preserves_bind.
  { unfold bulletEnemyCollisions.
    apply preserves_bind; [intros env m H; exact H | intro s].
    apply preserves_bind;
      [apply preserves_filterM, wellFormed_bulletFilter
      | intro; unfold wellFormed; frame]. }
  intros _.
  apply preserves_bind; [exact P4 | intros _].
  apply preserves_bind; [apply wellFormed_enemyShooting | intros _].
  apply preserves_bind; [exact P5 | intros _].
  apply preserves_bind; [exact P6 | intros _].
  apply preserves_bind; [exact P7 | intros _].
  exact P8.
Qed.

(** In every world the session can reach, each enemy has the width, the
    height and the falling speed of its type, and no more health than its
    type starts with: a scout dies of one hit, a heavy of at most three, a
    boss of at most five. *)
Theorem enemies_well_formed (w : World) :
  reachable w -> Forall wellFormedEnemy (enemies (gameState w)).
Proof.
  intro R. induction R as [| env w R IH | w R IH | w R IH].
  - constructor.
  - unfold updateGame.
    destruct (gameOver (gameState w) || paused (gameState w)); [exact IH|].
    cbn [gameState].
    apply (wellFormed_updater (wave (gameState w)) env (startMem w)). exact IH.
  - exact IH.
  - constructor.
Qed.

Lemma enemies_well_formed_witness :
  Forall wellFormedEnemy (enemies (gameState (run sevenScouts 0 3 initialWorld))).
Proof.
  apply enemies_well_formed. apply reachable_run, reachable_init.
Defined.

Lemma list_set_length {A} (i : nat) (v : A) (l : list A) :
  List.length (list_set i v l) = List.length l.
Proof.
  revert i. induction l as [|a l IH]; intros [|i]; try reflexivity.
  specialize (IH i). unfold list_set in *. cbn in *. rewrite IH. reflexivity.
Qed.

Lemma splice1_length {A} (i : nat) (l : list A) :
  (List.length (splice1 i l) <= List.length l)%nat.
Proof.
  revert i. induction l as [|a l IH]; intros [|i]; cbn; try lia.
  specialize (IH i). unfold splice1 in *. cbn in *. lia.
Qed.

Section EnemyCount.
Variable n : nat.
Let I (m : Mem) : Prop := (List.length (enemies (newState m)) <= n)%nat.

Lemma count_updateEnemies : preserves I updateEnemies.
Proof.
  intros env m H. unfold I in *.
  destruct (updateEnemies_spec env m) as (_ & _ & E). rewrite E.
  rewrite length_map.
  pose proof (filter_length_le (survives (player (newState m)))
                (map (moveEnemy (m_animationRef m)) (enemies (newState m)))) as F.
  rewrite length_map in F. lia.
Qed.

Lemma count_bulletFilter b : preserves I (bulletFilter b).
Proof.
  intros env m H. unfold I in *.
  unfold bulletFilter. rewrite exec_bind.
  change (eval getState env m) with (newState m).
  change (exec getState env m) with m.
  destruct (scanEnemies_spec env b (List.length (enemies (newState m))) m (le_n _))
    as [(_ & _ & ->) | (i & e & _ & _ & _ & _ & _ & ->)]; [exact H|].
  destruct (bulletHit_spec env m b i e) as [S _]. rewrite S.
  destruct (Enemy.health e - 1 <=? 0).
  - pose proof (splice1_length i (enemies (newState m))). lia.
  - rewrite list_set_length. exact H.
Qed.

Lemma count_enemyShooting : preserves I enemyShooting.
Proof.
  intros env m H. unfold I in *.
  rewrite enemyShooting_enemies, forEachMutM_length. exact H.
Qed.

Lemma count_after_spawn prevScore :
  preserves I
    (updateEnemies ;; bulletEnemyCollisions ;; updateAlienBullets ;; enemyShooting ;;
     modifyPlayer shieldRegen ;; updateParticles ;; waveProgression prevScore ;;
     checkGameOver).
Proof.
  pose proof (enemies_untouched (fun l => (List.length l <= n)%nat) prevScore)
    as (_ & _ & _ & P4 & P5 & P6 & P7 & P8).
  apply preserves_bind; [apply count_updateEnemies | intros _].
  apply preserves_bind.
  { unfold bulletEnemyCollisions.
    apply preserves_bind; [intros env m H; exact H | intro s].
    apply preserves_bind;
      [apply preserves_filterM, count_bulletFilter | intro; unfold I; frame]. }
  intros _.
  apply preserves_bind; [exact P4 | intros _].
  apply preserves_bind; [apply count_enemyShooting | intros _].
  apply preserves_bind; [exact P5 | intros _].
  apply preserves_bind; [exact P6 | intros _].
  apply preserves_bind; [exact P7 | intros _].
  exact P8.
Qed.
End EnemyCount.

Lemma spawnEnemies_count cw env m :
  (List.length (enemies (newState (exec (spawnEnemies cw) env m)))
   <= S (List.length (enemies (newState m))))%nat.
Proof.
  apply (wp_exec (spawnEnemies cw) env m
           (fun m' => (List.length (enemies (newState m'))
                       <= S (List.length (enemies (newState m))))%nat)).
  unfold spawnEnemies. wp_steps.
  destruct (Qltb _ _); wp_steps; [|lia].
  match goal with
  | |- wp (spawnEnemy cw) env ?m1 _ =>
      unfold wp at 1; wp_steps; cbn [enemies set_enemies];
      rewrite (spawnEnemy_enemies env m1 cw); cbn [newState];
      rewrite length_app; cbn; lia
  end.
Qed.

(** A frame adds at most one enemy to the world. *)
Theorem one_spawn_per_frame (env : Env) (w : World) :
  (List.length (enemies (gameState (updateGame env w)))
   <= S (List.length (enemies (gameState w))))%nat.
Proof.
  unfold updateGame.
  destruct (gameOver (gameState w) || paused (gameState w)); [lia|].
  cbn [gameState].
  set (n := List.length (enemies (gameState w))).
  apply (wp_exec (updater (wave (gameState w))) env (startMem w)
           (fun m' => (List.length (enemies (newState m')) <= S n)%nat)).
  unfold updater. wp_step. wp_step.
  pose proof (enemies_untouched (fun l => (List.length l <= n)%nat) 0)
    as (P1 & P2 & P3 & _).
  do 3 (apply wp_bind;
        eapply (wp_preserves (fun m' => (List.length (enemies (newState m')) <= n)%nat));
        [first [exact P1 | exact P2 | exact P3]
        | first [assumption | subst n; cbn; lia] | intros _ ? ?]).
  apply wp_bind.
  eapply (wp_hoare (fun m' => (List.length (enemies (newState m')) <= n)%nat)
                   (fun m' => (List.length (enemies (newState m')) <= S n)%nat));
    [ | eassumption | intros _ ? ?].
  { intros mm Hmm. pose proof (spawnEnemies_count (wave (gameState w)) env mm). lia. }
  eapply (wp_preserves (fun m' => (List.length (enemies (newState m')) <= S n)%nat));
    [apply (count_after_spawn (S n)) | assumption | intros _ ? ?].
  assumption.
Qed.

Lemma preserves_True {A} (c : M A) : preserves (fun _ => True) c.
Proof. intros env m _. exact Logic.I. Qed.

(** After the enemy phase, the enemy list only loses members and only
    has health and last-shot time rewritten. *)
Lemma enemies_afterEnemies (P : Enemy.t -> Prop) prevScore :
  (forall e e', Enemy.obj e' = Enemy.obj e -> P e -> P e') ->
  preserves (fun m => Forall P (enemies (newState m))) (afterEnemies prevScore).
Proof.
  intro HP.
  pose proof (enemies_untouched (Forall P) prevScore)
    as (_ & _ & _ & P4 & P5 & P6 & P7 & P8).
  unfold afterEnemies.
  apply preserves_bind.
  { unfold bulletEnemyCollisions.
    apply preserves_bind; [intros env m H; exact H | intro s].
    apply preserves_bind; [apply preserves_filterM; intro b | intro; frame].
    intros env m H.
    unfold bulletFilter. rewrite exec_bind.
    change (eval getState env m) with (newState m).
    change (exec getState env m) with m.
    destruct (scanEnemies_spec env b (List.length (enemies (newState m))) m (le_n _))
      as [(_ & _ & ->) | (i & e & _ & N & _ & _ & _ & ->)]; [exact H|].
    destruct (bulletHit_spec env m b i e) as [S _]. rewrite S.
    destruct (Enemy.health e - 1 <=? 0).
    - apply Forall_splice1, H.
    - apply Forall_list_set; [|exact H].
      apply nth_error_In in N. rewrite Forall_forall in H.
      apply (HP e); [reflexivity | exact (H e N)]. }
  intros _.
  apply preserves_bind; [exact P4 | intros _].
  apply preserves_bind.
  { intros env m H. rewrite enemyShooting_enemies.
    apply forEachMutM_enemyShoot_Forall; [|exact H].
    intros e e' A _ _ Pe. exact (HP e e' A Pe). }
  intros _.
  apply preserves_bind; [exact P5 | intros _].
  apply preserves_bind; [exact P6 | intros _].
  apply preserves_bind; [exact P7 | intros _].
  exact P8.
Qed.

Lemma obj_afterEnemies o prevScore :
  preserves (fun m => Player.obj (player (newState m)) = o) (afterEnemies prevScore).
Proof.
  pose proof (untouched_phases (fun p _ => Player.obj p = o) 0 prevScore)
    as (_ & _ & _ & P4 & P5 & P6 & P7).
  unfold afterEnemies.
  apply preserves_bind; [exact P4 | intros _].
  apply preserves_bind.
  { unfold updateAlienBullets.
    apply preserves_bind; [leaf | intro s].
    apply preserves_bind;
      [apply preserves_filterM, obj_alienBulletFilter | intro; frame]. }
  intros _.
  apply preserves_bind; [unfold enemyShooting, enemyShoot; frame | intros _].
  apply preserves_bind.
  { intros env m H. prim. cbn [newState player set_player].
    rewrite (proj2 (proj2 (shieldRegen_others _))). exact H. }
  intros _.
  apply preserves_bind; [exact P5 | intros _].
  apply preserves_bind; [exact P6 | intros _].
  exact P7.
Qed.

Lemma settled_afterEnemies prevScore : preserves settled (afterEnemies prevScore).
Proof.
  intros env m H. unfold settled in *.
  set (o := Player.obj (player (newState m))).
  assert (O : Player.obj (player (newState (exec (afterEnemies prevScore) env m))) = o).
  { apply (obj_afterEnemies o prevScore env m). reflexivity. }
  assert (F : Forall (atRest o)
                (enemies (newState (exec (afterEnemies prevScore) env m)))).
  { apply (enemies_afterEnemies (atRest o) prevScore); [|exact H].
    intros e e' E [A B]. unfold atRest. rewrite E. split; assumption. }
  unfold atRest in *. rewrite O. exact F.
Qed.

Lemma y_bounce (e : Enemy.t) : y (bounce e) = y e.
Proof.
  unfold bounce.
  destruct (Qleb (x e) 0 || Qgeb (x e) (CANVAS_WIDTH - width e)); reflexivity.
Qed.

(** The enemy phase leaves only enemies that are on or above the canvas
    and clear of the player. *)
Lemma updateEnemies_settles env m : settled (exec updateEnemies env m).
Proof.
  unfold settled.
  destruct (updateEnemies_spec env m) as (Pl & _ & E). rewrite E, Pl.
  apply Forall_forall. intros e He.
  apply in_map_iff in He. destruct He as (e1 & <- & He).
  apply filter_In in He. destruct He as [_ S].
  unfold survives in S. apply andb_true_iff in S. destruct S as [S1 S2].
  apply negb_true_iff in S1, S2.
  split.
  - rewrite y_bounce. apply Qltb_ge. exact S1.
  - rewrite checkCollision_bounce. exact S2.
Qed.

Lemma exec_five_then (a1 a2 a3 a4 a5 : M unit) (t : GameState -> M unit) env m :
  exec (s <- getState ;; a1 ;; a2 ;; a3 ;; a4 ;; a5 ;; t s) env m
  = exec (t (newState m)) env (exec a5 env (exec (a1 ;; a2 ;; a3 ;; a4) env m)).
Proof. reflexivity. Qed.

Lemma updater_enemies cw env m :
  exists m4,
    exec (updater cw) env m
    = exec (afterEnemies (score (newState m))) env (exec updateEnemies env m4).
Proof.
  exists (exec (playerControl ;; playerShooting ;; updateBullets ;; spawnEnemies cw)
               env m).
  unfold updater, afterEnemies.
  exact (exec_five_then playerControl playerShooting updateBullets (spawnEnemies cw)
           updateEnemies
           (fun prevState =>
              bulletEnemyCollisions ;; updateAlienBullets ;; enemyShooting ;;
              modifyPlayer shieldRegen ;; updateParticles ;;
              waveProgression (score prevState) ;; checkGameOver)
           env m).
Qed.

Lemma updater_settled cw env m : settled (exec (updater cw) env m).
Proof.
  destruct (updater_enemies cw env m) as (m4 & E). rewrite E.
  apply (settled_afterEnemies _ env (exec updateEnemies env m4)).
  apply updateEnemies_settles.
Qed.

(** In every world the session can reach, no enemy is below the bottom
    edge of the canvas and no enemy overlaps the player: leaving the canvas
    and touching the player are both settled in the frame they happen. *)
Theorem enemies_settled (w : World) :
  reachable w ->
  Forall (fun e : Enemy.t =>
            (y e <= CANVAS_HEIGHT)%Q /\ checkCollision e (boxOf w) = false)
         (enemies (gameState w)).
Proof.
  intro R. induction R as [| env w R IH | w R IH | w R IH].
  - constructor.
  - destruct (running w) eqn:Run.
    + pose proof (updater_settled (wave (gameState w)) env (startMem w)) as S.
      unfold settled, atRest in S.
      unfold boxOf. unfold updateGame.
      unfold running in Run. apply negb_true_iff in Run. rewrite Run.
      cbn [gameState]. exact S.
    + unfold running in Run. apply negb_false_iff in Run.
      unfold updateGame. rewrite Run. exact IH.
  - exact IH.
  - constructor.
Qed.

Lemma enemies_settled_witness :
  let w := run sevenScouts 0 392 initialWorld in
  Forall (fun e : Enemy.t =>
            (y e <= CANVAS_HEIGHT)%Q /\ checkCollision e (boxOf w) = false)
         (enemies (gameState w)).
Proof.
  apply (enemies_settled (run sevenScouts 0 392 initialWorld)).
  apply reachable_run, reachable_init.
Defined.

(** ** Enemy fire *)

Lemma enemyShoot_spec env m e :
  let now := dateNow env (dateCalls m) in
  let r := random env (randomCalls m) in
  let e' := eval (enemyShoot e) env m in
  let m' := exec (enemyShoot e) env m in
  (shoots now r e = true ->
   e' = Enemy.set_lastShot now e /\
   exists ab,
     alienBullets (newState m') = alienBullets (newState m) ++ [ab] /\
     AlienBullet.damage ab = alienBulletDamage (Enemy.type e) /\
     x ab = (x e + width e / 2 - 2)%Q /\ y ab = (y e + height e)%Q /\
     width ab = 4%Q /\ height ab = 8%Q /\
     velocity ab = mkPosition 0 ALIEN_BULLET_SPEED) /\
  (shoots now r e = false ->
   e' = e /\ alienBullets (newState m') = alienBullets (newState m)) /\
  (now - Enemy.lastShot e <= cooldown (Enemy.type e) ->
   shoots now r e = false /\ randomCalls m' = randomCalls m).
Proof.
  intros now r e' m'. subst now r e' m'. unfold shoots.
  apply (wp_eval_exec (enemyShoot e) env m
           (fun e' m' =>
              (_ = true -> e' = _ /\ exists ab, alienBullets (newState m') = _ /\ _) /\
              (_ = false -> e' = e /\ alienBullets (newState m') = _) /\
              (_ -> _ = false /\ randomCalls m' = randomCalls m))).
  unfold enemyShoot. wp_steps.
  destruct (Z.gtb_spec (dateNow env (dateCalls m) - Enemy.lastShot e)
              (cooldown (Enemy.type e))) as [G | G]; wp_steps.
  - destruct (Qltb (random env (randomCalls m)) (shootChance (Enemy.type e)));
      wp_steps; cbn [andb].
    + split; [intros _|split; [discriminate | intro; lia]].
      split; [reflexivity|].
      eexists. split; [reflexivity|]. cbn. repeat split.
    + split; [discriminate|].
      split; [intros _; split; reflexivity | intro; lia].
  - cbn [andb]. split; [discriminate|].
    split; [intros _; split; reflexivity | intros _; split; reflexivity].
Qed.

(** An enemy fires only when more than its cooldown has passed since its
    last shot and the draw is below its shooting chance; it then stamps
    the clock reading as its last shot and adds one projectile under its
    box, with the damage of its type (8, 15 or 25).  While the cooldown
    has not passed it neither fires nor draws. *)
Theorem enemyShoot_gates (env : Env) (m : Mem) (e : Enemy.t) :
  let now := dateNow env (dateCalls m) in
  let r := random env (randomCalls m) in
  let e' := eval (enemyShoot e) env m in
  let m' := exec (enemyShoot e) env m in
  (shoots now r e = true ->
   e' = Enemy.set_lastShot now e /\
   exists ab,
     alienBullets (newState m') = alienBullets (newState m) ++ [ab] /\
     AlienBullet.damage ab = alienBulletDamage (Enemy.type e) /\
     x ab = (x e + width e / 2 - 2)%Q /\ y ab = (y e + height e)%Q /\
     width ab = 4%Q /\ height ab = 8%Q /\
     velocity ab = mkPosition 0 ALIEN_BULLET_SPEED) /\
  (shoots now r e = false ->
   e' = e /\ alienBullets (newState m') = alienBullets (newState m)) /\
  (now - Enemy.lastShot e <= cooldown (Enemy.type e) ->
   shoots now r e = false /\ randomCalls m' = randomCalls m) /\
  (alienBulletDamage scout = 8 /\ alienBulletDamage heavy = 15 /\
   alienBulletDamage boss = 25).
Proof.
  intros now r e' m'.
  destruct (enemyShoot_spec env m e) as (A & B & C).
  split; [exact A|]. split; [exact B|]. split; [exact C|]. repeat split.
Qed.

Lemma enemyShoot_gates_witness :
  eval (enemyShoot (lastLeg scout 100)) eagerEnv (startMem initialWorld)
  = Enemy.set_lastShot (clockAt 0) (lastLeg scout 100).
Proof.
  pose proof (enemyShoot_gates eagerEnv (startMem initialWorld) (lastLeg scout 100)) as H.
  cbv zeta in H. destruct H as (H & _).
  refine (proj1 (H _)). vm_compute. reflexivity.
Defined.

(** An enemy that has just fired does not fire again at a clock reading
    within its cooldown of that shot, whatever the draw. *)
Theorem enemy_cooldown_respected (env env2 : Env) (m m2 : Mem) (e : Enemy.t) :
  let now := dateNow env (dateCalls m) in
  let now2 := dateNow env2 (dateCalls m2) in
  let e' := eval (enemyShoot e) env m in
  shoots now (random env (randomCalls m)) e = true ->
  now2 - now <= cooldown (Enemy.type e) ->
  eval (enemyShoot e') env2 m2 = e' /\
  alienBullets (newState (exec (enemyShoot e') env2 m2)) = alienBullets (newState m2).
Proof.
  intros now now2 e' S L.
  destruct (enemyShoot_spec env m e) as (A & _ & _).
  destruct (A S) as (E & _). fold e' in E.
  destruct (enemyShoot_spec env2 m2 e') as (_ & B & C).
  apply B. apply C. rewrite E. cbn. exact L.
Qed.

Lemma enemy_cooldown_respected_witness :
  let e := lastLeg scout 100 in
  let m := startMem initialWorld in
  let e' := eval (enemyShoot e) eagerEnv m in
  eval (enemyShoot e') eagerEnv m = e'.
Proof.
  refine (proj1 (enemy_cooldown_respected eagerEnv eagerEnv
                   (startMem initialWorld) (startMem initialWorld)
                   (lastLeg scout 100) _ _)).
  - vm_compute. reflexivity.
  - vm_compute. discriminate.
Defined.

(** ** Projectiles in flight *)

Lemma shotOk_move ab : shotOk ab -> shotOk (moveAlienBullet ab).
Proof. intro H. exact H. Qed.

Lemma shots_enemyShooting :
  preserves (fun m => Forall shotOk (alienBullets (newState m))) enemyShooting.
Proof.
  unfold enemyShooting.
  apply preserves_bind; [intros env m H; exact H | intro s].
  apply preserves_bind; [|intro; frame].
  apply preserves_forEachMutM. intro e.
  intros env m H.
  destruct (enemyShoot_spec env m e) as (A & B & _).
  destruct (shoots (dateNow env (dateCalls m)) (random env (randomCalls m)) e).
  - destruct (A eq_refl) as (_ & ab & E & D & _ & _ & W & Ht & V).
    rewrite E. apply Forall_app. split; [exact H|].
    constructor; [|constructor].
    unfold shotOk. rewrite D, W, Ht, V. repeat split.
    destruct (Enemy.type e); cbn; tauto.
  - destruct (B eq_refl) as (_ & E). rewrite E. exact H.
Qed.

Lemma shots_updateAlienBullets :
  preserves (fun m => Forall shotOk (alienBullets (newState m))) updateAlienBullets.
Proof.
  intros env m H.
  apply (wp_exec updateAlienBullets env m
           (fun m' => Forall shotOk (alienBullets (newState m')))).
  unfold updateAlienBullets. wp_steps. unfold wp at 1. wp_steps.
  cbn [newState alienBullets set_alienBullets].
  apply filterM_Forall.
  apply Forall_forall. intros ab Hab.
  apply in_map_iff in Hab. destruct Hab as (ab0 & <- & Hab).
  apply shotOk_move. rewrite Forall_forall in H. exact (H ab0 Hab).
Qed.

Lemma shots_updater cw :
  preserves (fun m => Forall shotOk (alienBullets (newState m))) (updater cw).
Proof.
  unfold updater.
  apply preserves_bind; [intros env m H; exact H | intro prevState].
  pose proof (untouched_phases (fun _ shots => Forall shotOk shots) cw
                (score prevState))
    as (P1 & P2 & P3 & P4 & P5 & P6 & P7).
  apply preserves_bind; [open_phases; frames | intros _].
  apply preserves_bind; [exact P1 | intros _].
  apply preserves_bind; [exact P2 | intros _].
  apply preserves_bind; [exact P3 | intros _].
  apply preserves_bind; [open_phases; frames | intros _].
  apply preserves_bind; [exact P4 | intros _].
  apply preserves_bind; [apply shots_updateAlienBullets | intros _].
  apply preserves_bind; [apply shots_enemyShooting | intros _].
  apply preserves_bind; [frames | intros _].
  apply preserves_bind; [exact P5 | intros _].
  apply preserves_bind; [exact P6 | intros _].
  exact P7.
Qed.

(** What [updateBullets] leaves, and what the later phases keep: well
    shaped player bullets that have not passed 15 units above the top of
    the canvas. *)
Lemma bullets_after_move :
  forall env m,
    Forall bulletShape (bullets (newState m)) ->
    Forall (fun b : Bullet.t => bulletShape b /\ (-15 < y b)%Q)
           (bullets (newState (exec updateBullets env m))).
Proof.
  intros env m H. unfold updateBullets. prim. cbn.
  apply Forall_forall. intros b Hb.
  apply filter_In in Hb. destruct Hb as [Hb Y].
  apply in_map_iff in Hb. destruct Hb as (b0 & <- & Hb).
  rewrite Forall_forall in H. split; [exact (H b0 Hb)|].
  apply Qltb_lt. exact Y.
Qed.

Lemma bullets_playerShooting :
  preserves (fun m => Forall bulletShape (bullets (newState m))) playerShooting.
Proof.
  intros env m H.
  apply (wp_exec playerShooting env m
           (fun m' => Forall bulletShape (bullets (newState m')))).
  unfold playerShooting. wp_steps.
  destruct (_ && _); wp_steps; [|exact H].
  cbn. apply Forall_app. split; [exact H|].
  constructor; [|constructor]. repeat split.
Qed.

Lemma bullets_after (P : Bullet.t -> Prop) cw prevScore :
  preserves (fun m => Forall P (bullets (newState m)))
    (spawnEnemies cw ;; updateEnemies ;; bulletEnemyCollisions ;;
     updateAlienBullets ;; enemyShooting ;; modifyPlayer shieldRegen ;;
     updateParticles ;; waveProgression prevScore ;; checkGameOver).
Proof.
  apply preserves_bind; [open_phases; frames | intros _].
  apply preserves_bind; [open_phases; frames | intros _].
  apply preserves_bind.
  { intros env m H.
    apply (wp_exec bulletEnemyCollisions env m
             (fun m' => Forall P (bullets (newState m')))).
    unfold bulletEnemyCollisions. wp_steps. unfold wp at 1. wp_steps.
    cbn [newState bullets set_bullets].
    apply filterM_Forall. exact H. }
  intros _. open_phases. frames.
Qed.

Lemma updater_projectiles cw env m :
  Forall bulletShape (bullets (newState m)) ->
  Forall (fun b : Bullet.t => bulletShape b /\ (-15 < y b)%Q)
         (bullets (newState (exec (updater cw) env m))).
Proof.
  intro H.
  apply (wp_exec (updater cw) env m
           (fun m' => Forall (fun b : Bullet.t => bulletShape b /\ (-15 < y b)%Q)
                             (bullets (newState m')))).
  unfold updater. wp_step. wp_step.
  apply wp_bind.
  apply (wp_preserves (fun m' => Forall bulletShape (bullets (newState m'))));
    [open_phases; frames | exact H | intros _ m1 H1].
  apply wp_bind.
  apply (wp_preserves (fun m' => Forall bulletShape (bullets (newState m'))));
    [apply bullets_playerShooting | exact H1 | intros _ m2 H2].
  apply wp_bind.
  apply (wp_hoare (fun m' => Forall bulletShape (bullets (newState m')))
                  (fun m' => Forall (fun b : Bullet.t => bulletShape b /\ (-15 < y b)%Q)
                                    (bullets (newState m'))));
    [intros m0 Hm0; apply bullets_after_move, Hm0 | exact H2 | intros _ m3 H3].
  apply (wp_preserves
           (fun m' => Forall (fun b : Bullet.t => bulletShape b /\ (-15 < y b)%Q)
                             (bullets (newState m'))));
    [apply bullets_after | exact H3 | intros _ m' H'; exact H'].
Qed.

(** In every world the session can reach, every player bullet is 4 by 12,
    rises at [BULLET_SPEED] and has y > -15, and every enemy projectile is
    4 by 8, falls at [ALIEN_BULLET_SPEED] and carries a damage of 8, 15 or
    25. *)
Theorem projectiles_well_formed (w : World) :
  reachable w ->
  Forall (fun b : Bullet.t => bulletShape b /\ (-15 < y b)%Q) (bullets (gameState w)) /\
  Forall shotOk (alienBullets (gameState w)).
Proof.
  intro R. induction R as [| env w R IH | w R IH | w R IH].
  - split; constructor.
  - unfold updateGame.
    destruct (gameOver (gameState w) || paused (gameState w)); [exact IH|].
    cbn [gameState]. destruct IH as [B S]. split.
    + apply updater_projectiles. cbn [startMem newState].
      eapply Forall_impl; [|exact B]. intros b [Hb _]. exact Hb.
    + apply (shots_updater (wave (gameState w)) env (startMem w)). exact S.
  - exact IH.
  - split; constructor.
Qed.

Lemma projectiles_well_formed_witness :
  Forall shotOk (alienBullets (gameState (run oneShot 0 5 initialWorld))).
Proof.
  apply (projectiles_well_formed (run oneShot 0 5 initialWorld)).
  apply reachable_run, reachable_init.
Defined.

(** ** The rate of fire of the player *)

Lemma updater_lastShot cw env w :
  m_lastShotRef (exec (updater cw) env (startMem w))
  = if fires env w then dateNow env 0 else lastShotRef w.
Proof.
  set (target := if fires env w then dateNow env 0 else lastShotRef w).
  apply (wp_exec (updater cw) env (startMem w) (fun m' => m_lastShotRef m' = target)).
  unfold updater. wp_step. wp_step.
  apply wp_bind.
  apply (wp_preserves (fun m => m_lastShotRef m = lastShotRef w /\ dateCalls m = 0%nat));
    [open_phases; frames | split; reflexivity | intros _ m1 H1].
  apply wp_bind.
  apply (wp_hoare (fun m => m_lastShotRef m = lastShotRef w /\ dateCalls m = 0%nat)
                  (fun m => m_lastShotRef m = target));
    [ | exact H1 | intros _ m2 H2].
  { intros m0 (L & D).
    apply (wp_exec playerShooting env m0 (fun m' => m_lastShotRef m' = target)).
    unfold playerShooting. wp_steps. rewrite D, L.
    change (keys env " " || keys env "w" || keys env "ArrowUp") with (fireHeld env).
    change (fireHeld env && (dateNow env 0 - lastShotRef w >? 120))
      with (fires env w).
    subst target. destruct (fires env w); wp_steps; reflexivity. }
  apply (wp_preserves (fun m => m_lastShotRef m = target));
    [open_phases; frames | exact H2 | intros _ m' H'; exact H'].
Qed.

(** The time of the last shot is the first clock reading of a frame in
    which the player fires, and is not written otherwise; so a frame whose
    first clock reading is within 120 ms of the first clock reading of a
    frame that fired does not fire, whatever keys are held. *)
Theorem fire_rate_limit (env env2 : Env) (w : World) :
  running w = true ->
  lastShotRef (updateGame env w)
  = (if fires env w then dateNow env 0 else lastShotRef w) /\
  (fires env w = true -> dateNow env2 0 - dateNow env 0 <= 120 ->
   fires env2 (updateGame env w) = false).
Proof.
  intro R.
  assert (L : lastShotRef (updateGame env w)
              = if fires env w then dateNow env 0 else lastShotRef w).
  { unfold updateGame. unfold running in R. apply negb_true_iff in R. rewrite R.
    cbn [lastShotRef]. apply updater_lastShot. }
  split; [exact L|].
  intros F D. unfold fires at 1. rewrite L, F.
  destruct (Z.gtb_spec (dateNow env2 0 - dateNow env 0) 120); [lia|].
  apply andb_false_r.
Qed.

Lemma fire_rate_limit_witness :
  fires trigger (updateGame trigger initialWorld) = false.
Proof.
  refine (proj2 (fire_rate_limit trigger trigger initialWorld _) _ _).
  - reflexivity.
  - vm_compute. reflexivity.
  - vm_compute. discriminate.
Defined.

(** ** What is drawn *)

(** In every world the session can reach, the shield bar is between 0 and
    100 percent wide and the health bar is at most 100 percent wide.  When
    the shield is positive, [drawPlayer] draws it with a border of opacity
    above 0.2 and at most 0.8, and with a glow whose stop at 0 has an
    opacity between 0.16 and 0.65 and whose stop at 0.6 has an opacity
    between 0.08 and 0.33. *)
Theorem overlay_in_range (w : World) :
  reachable w ->
  (0 <= shieldBarPercent (gameState w))%Q /\
  (shieldBarPercent (gameState w) <= 100)%Q /\
  (healthBarPercent (gameState w) <= 100)%Q /\
  (0 < shieldOf w ->
   ((2 # 10 < shieldBorder (player (gameState w)))%Q /\
    (shieldBorder (player (gameState w)) <= 8 # 10)%Q) /\
   ((16 # 100 < shieldGlowInner (player (gameState w)))%Q /\
    (shieldGlowInner (player (gameState w)) < 65 # 100)%Q) /\
   ((8 # 100 < shieldGlowMiddle (player (gameState w)))%Q /\
    (shieldGlowMiddle (player (gameState w)) < 33 # 100)%Q)).
Proof.
  intro R. destruct (player_bounds_reachable w R) as (MH & MS & H & S & _).
  unfold shieldGlowInner, shieldGlowMiddle, shieldBorder.
  unfold shieldBarPercent, healthBarPercent, shieldAlpha, shieldOf.
  rewrite MH, MS in *.
  set (s := Player.shield (player (gameState w))) in *.
  set (h := Player.health (player (gameState w))) in *.
  assert (S0 : (0 <= inject_Z s)%Q) by (change 0%Q with (inject_Z 0); rewrite <- Zle_Qle; lia).
  assert (S1 : (inject_Z s <= 100)%Q) by (change 100%Q with (inject_Z 100); rewrite <- Zle_Qle; lia).
  assert (H1 : (inject_Z h <= 100)%Q) by (change 100%Q with (inject_Z 100); rewrite <- Zle_Qle; lia).
  change (inject_Z 100) with 100%Q.
  unfold Qdiv; change (/ 100)%Q with (1 # 100)%Q.
  split; [lra|]. split; [lra|]. split; [lra|].
  intro P.
  assert (P' : (0 < inject_Z s)%Q) by (change 0%Q with (inject_Z 0); rewrite <- Zlt_Qlt; exact P).
  split; [split; lra|]. split; split; lra.
Qed.

Lemma overlay_in_range_witness :
  (16 # 100 < shieldGlowInner (player (gameState (run oneShot 0 150 initialWorld))))%Q /\
  (shieldGlowInner (player (gameState (run oneShot 0 150 initialWorld))) < 65 # 100)%Q.
Proof.
  refine (proj1 (proj2 (proj2 (proj2 (proj2
            (overlay_in_range (run oneShot 0 150 initialWorld) _))) _))).
  - apply reachable_run, reachable_init.
  - vm_compute. reflexivity.
Defined.

(** ** Particles *)

(** The particle the factory returns, for draws in [0,1). *)
Lemma createParticle_fields (env : Env) (m : Mem) (px py : Q) (c : string) :
  validDraws env ->
  wp (createParticle px py c) env m
     (fun p m' =>
        x p = px /\ y p = py /\ Particle.color p = c /\
        (-3 <= x (Particle.velocity p))%Q /\ (x (Particle.velocity p) < 3)%Q /\
        (-3 <= y (Particle.velocity p))%Q /\ (y (Particle.velocity p) < 3)%Q /\
        (30 <= Particle.life p)%Q /\ (Particle.life p <= 50)%Q /\
        (30 <= Particle.maxLife p)%Q /\ (Particle.maxLife p <= 50)%Q /\
        (2 <= Particle.size p)%Q /\ (Particle.size p <= 5)%Q /\
        randomCalls m' = (5 + randomCalls m)%nat /\
        newState m' = newState m).
Proof.
  intros V.
  unfold createParticle. wp_steps.
  cbn [Particle.pos Particle.velocity Particle.life Particle.maxLife Particle.size
       Particle.color x y].
  destruct (V (randomCalls m)) as [A0 A1].
  destruct (V (S (randomCalls m))) as [B0 B1].
  destruct (V (S (S (randomCalls m)))) as [C0 C1].
  destruct (V (S (S (S (randomCalls m))))) as [D0 D1].
  destruct (V (S (S (S (S (randomCalls m)))))) as [E0 E1].
  generalize dependent (random env (randomCalls m)).
  generalize dependent (random env (S (randomCalls m))).
  generalize dependent (random env (S (S (randomCalls m)))).
  generalize dependent (random env (S (S (S (randomCalls m))))).
  generalize dependent (random env (S (S (S (S (randomCalls m)))))).
  intros r5 E0 E1 r4 D0 D1 r3 C0 C1 r2 B0 B1 r1 A0 A1.
  repeat split; lra.
Qed.

(** For draws in [0,1) the factory returns a particle at the position and
    of the colour asked for, with velocity components in [-3,3), life and
    maximal life in [30,50] and size in [2,5]; life and maximal life are
    drawn apart; five draws are consumed and the state is not written. *)
Theorem createParticle_ranges (env : Env) (m : Mem) (px py : Q) (c : string) :
  validDraws env ->
  let p := eval (createParticle px py c) env m in
  let m' := exec (createParticle px py c) env m in
  x p = px /\ y p = py /\ Particle.color p = c /\
  (-3 <= x (Particle.velocity p))%Q /\ (x (Particle.velocity p) < 3)%Q /\
  (-3 <= y (Particle.velocity p))%Q /\ (y (Particle.velocity p) < 3)%Q /\
  (30 <= Particle.life p)%Q /\ (Particle.life p <= 50)%Q /\
  (30 <= Particle.maxLife p)%Q /\ (Particle.maxLife p <= 50)%Q /\
  (2 <= Particle.size p)%Q /\ (Particle.size p <= 5)%Q /\
  Particle.life p = (30 + random env (S (S (randomCalls m))) * 20)%Q /\
  Particle.maxLife p = (30 + random env (S (S (S (randomCalls m)))) * 20)%Q /\
  randomCalls m' = (5 + randomCalls m)%nat /\
  newState m' = newState m.
Proof.
  intros V p m'. subst p m'.
  pose proof (createParticle_fields env m px py c V) as F. unfold wp in F.
  destruct F as (F1 & F2 & F3 & F4 & F5 & F6 & F7 & F8 & F9 & F10 & F11 & F12 & F13
                 & F14 & F15).
  repeat (split; [assumption|]).
  split; [reflexivity|]. split; [reflexivity|]. split; assumption.
Qed.

Lemma createParticle_ranges_witness :
  (30 <= Particle.life (eval (createParticle 1 2 "#ef4444") idleEnv
                          (startMem initialWorld)))%Q.
Proof.
  refine (proj1 (proj2 (proj2 (proj2 (proj2 (proj2 (proj2 (proj2
            (createParticle_ranges idleEnv (startMem initialWorld) 1 2 "#ef4444" _)
         )))))))).
  intro k. split; vm_compute; reflexivity || discriminate.
Defined.

(** Descent through a command under one environment. *)
Lemma keeps_of_preserves {A} env (I : Mem -> Prop) (c : M A) :
  preserves I c -> keeps env I c.
Proof. intros P m H. apply P, H. Qed.

Lemma keeps_ret {A} env (I : Mem -> Prop) (a : A) : keeps env I (ret a).
Proof. intros m H. exact H. Qed.

Lemma keeps_bind {A B} env (I : Mem -> Prop) (c : M A) (k : A -> M B) :
  keeps env I c -> (forall a, keeps env I (k a)) -> keeps env I (bind c k).
Proof. intros Hc Hk m H. rewrite exec_bind. apply Hk, Hc, H. Qed.

Lemma keeps_forLoop env (I : Mem -> Prop) (n : nat) (body : M unit) :
  keeps env I body -> keeps env I (forLoop n body).
Proof.
  intro Hb. induction n as [|n IH]; simpl.
  - apply keeps_ret.
  - apply keeps_bind; [exact Hb | intros _; exact IH].
Qed.

Lemma keeps_filterM {A} env (I : Mem -> Prop) (f : A -> M bool) (l : list A) :
  (forall a, keeps env I (f a)) -> keeps env I (filterM f l).
Proof.
  intro Hf. induction l as [|a l IH]; simpl.
  - apply keeps_ret.
  - apply keeps_bind; [apply Hf | intro b].
    apply keeps_bind; [exact IH | intro r; apply keeps_ret].
Qed.

Lemma keeps_filterMutM {A} env (I : Mem -> Prop) (f : A -> M (bool * A)) (l : list A) :
  (forall a, keeps env I (f a)) -> keeps env I (filterMutM f l).
Proof.
  intro Hf. induction l as [|a l IH]; simpl.
  - apply keeps_ret.
  - apply keeps_bind; [apply Hf | intro b].
    apply keeps_bind; [exact IH | intro r; apply keeps_ret].
Qed.

Lemma keeps_forEachMutM {A} env (I : Mem -> Prop) (f : A -> M A) (l : list A) :
  (forall a, keeps env I (f a)) -> keeps env I (forEachMutM f l).
Proof.
  intro Hf. induction l as [|a l IH]; simpl.
  - apply keeps_ret.
  - apply keeps_bind; [apply Hf | intro b].
    apply keeps_bind; [exact IH | intro r; apply keeps_ret].
Qed.

Lemma keeps_scanEnemies env (I : Mem -> Prop) b n :
  (forall i e, keeps env I (bulletHit b i e)) -> keeps env I (scanEnemies b n).
Proof.
  intro Hh. induction n as [|n IH]; cbn [scanEnemies]; [apply keeps_ret|].
  apply keeps_bind; [intros m H; exact H | intro s].
  destruct (nth_error (enemies s) n) as [e|]; [|exact IH].
  destruct (checkCollision b e); [|exact IH].
  apply keeps_bind; [apply Hh | intro; apply keeps_ret].
Qed.

(** A burst adds particles as the factory makes them. *)
Lemma keeps_burst env n px py c :
  validDraws env ->
  keeps env particlesFresh (forLoop n (p <- createParticle px py c ;; pushParticle p)).
Proof.
  intro V. apply keeps_forLoop. intros m H.
  rewrite exec_bind.
  pose proof (createParticle_fields env m px py c V) as F. unfold wp in F.
  set (p := eval (createParticle px py c) env m) in *.
  set (m1 := exec (createParticle px py c) env m) in *.
  destruct F as (_ & _ & _ & V1 & V2 & V3 & V4 & L1 & L2 & M1 & M2 & S1 & S2 & _ & N).
  unfold particlesFresh in *.
  change (Forall particleFresh (particles (newState m1) ++ [p])).
  apply Forall_app. split.
  - rewrite N. exact H.
  - constructor; [|constructor]. unfold particleFresh.
    repeat split; try assumption; lra.
Qed.

(** The particle phase: every particle is aged by one frame, and the
    particles whose life is used up are dropped. *)
Lemma particleOk_move (l : list Particle.t) :
  Forall particleFresh l ->
  Forall particleOk (filter (fun p => Qgtb (Particle.life p) 0) (map moveParticle l)).
Proof.
  induction 1 as [|p l Hp Hl IH]; cbn [map filter]; [constructor|].
  destruct (Qgtb (Particle.life (moveParticle p)) 0) eqn:G; [|exact IH].
  constructor; [|exact IH].
  unfold Qgtb in G. apply Qltb_lt in G.
  unfold particleOk, particleFresh in *. unfold moveParticle in *.
  cbn [Particle.pos Particle.velocity Particle.life Particle.maxLife Particle.size x y] in *.
  repeat split; lra.
Qed.

Ltac kframes :=
  lazymatch goal with
  | |- keeps _ _ (forLoop _ (bind (createParticle _ _ _) _)) =>
      apply keeps_burst; assumption
  | |- keeps _ _ (bind _ _) => apply keeps_bind; [kframes | intro; kframes]
  | |- keeps _ _ (ret _) => apply keeps_ret
  | |- keeps _ _ (forLoop _ _) => apply keeps_forLoop; kframes
  | |- keeps _ _ (filterM _ _) => apply keeps_filterM; intro; kframes
  | |- keeps _ _ (filterMutM _ _) => apply keeps_filterMutM; intro; kframes
  | |- keeps _ _ (forEachMutM _ _) => apply keeps_forEachMutM; intro; kframes
  | |- keeps _ _ (scanEnemies _ _) =>
      apply keeps_scanEnemies; intros; unfold bulletHit; cbv zeta; kframes
  | |- keeps _ _ (if ?b then _ else _) => destruct b; kframes
  | |- keeps _ _ (match ?t with scout => _ | heavy => _ | boss => _ end) =>
      destruct t; kframes
  | |- _ => first [ let H := fresh in intros ? H; prim; cbn; exact H | idtac]
  end.

(** Up to the particle phase, particles are only added, by the bursts. *)
Lemma particlesFresh_before env cw :
  validDraws env -> keeps env particlesFresh (beforeParticles cw).
Proof.
  intro V. unfold beforeParticles. open_phases. kframes.
Qed.

(** The updater is the phases up to the regeneration, the particle phase
    and the two tests that end it. *)
Lemma exec_nine_then (a1 a2 a3 a4 a5 a6 a7 a8 a9 u : M unit)
      (t : GameState -> M unit) env m :
  exec (s <- getState ;;
        a1 ;; a2 ;; a3 ;; a4 ;; a5 ;; a6 ;; a7 ;; a8 ;; a9 ;; u ;; t s) env m
  = exec (t (newState m)) env
      (exec u env (exec (a1 ;; a2 ;; a3 ;; a4 ;; a5 ;; a6 ;; a7 ;; a8 ;; a9) env m)).
Proof. reflexivity. Qed.

Lemma updater_split_particles cw env m :
  exec (updater cw) env m
  = exec (waveProgression (score (newState m)) ;; checkGameOver) env
      (exec updateParticles env (exec (beforeParticles cw) env m)).
Proof.
  unfold updater, beforeParticles.
  exact (exec_nine_then playerControl playerShooting updateBullets (spawnEnemies cw)
           updateEnemies bulletEnemyCollisions updateAlienBullets enemyShooting
           (modifyPlayer shieldRegen) updateParticles
           (fun prevState => waveProgression (score prevState) ;; checkGameOver)
           env m).
Qed.

Lemma particles_after_phase prevScore l :
  preserves (fun m => particles (newState m) = l)
            (waveProgression prevScore ;; checkGameOver).
Proof. unfold waveProgression, checkGameOver; frame. Qed.

Lemma updater_particles cw env m :
  particles (newState (exec (updater cw) env m))
  = filter (fun p => Qgtb (Particle.life p) 0)
      (map moveParticle (particles (newState (exec (beforeParticles cw) env m)))).
Proof.
  rewrite updater_split_particles.
  apply (particles_after_phase (score (newState m)) _ env
           (exec updateParticles env (exec (beforeParticles cw) env m))).
  reflexivity.
Qed.

Lemma particleOk_alpha (p : Particle.t) :
  particleOk p -> (0 < particleAlpha p)%Q /\ (particleAlpha p < 5 # 3)%Q.
Proof.
  unfold particleOk, particleFresh, particleAlpha.
  intros ((L0 & L1 & M0 & M1 & _) & L2).
  split; [apply Qlt_shift_div_l | apply Qlt_shift_div_r]; lra.
Qed.

Lemma particleOk_fresh (l : list Particle.t) :
  Forall particleOk l -> Forall particleFresh l.
Proof.
  intro H. eapply Forall_impl; [|exact H]. intros p [F _]. exact F.
Qed.

(** With draws in [0,1), every particle of the state is alive and has been
    aged at least once (its life is in (0,49]), has a maximal life in
    [30,50], a size in [2,5] and velocity components in [-3,3); so the
    opacity [draw] gives it, life / maximal life, is positive and below
    5/3.  This holds after any number of frames from a state where it
    holds, the initial one among them. *)
Theorem particles_well_formed (envs : nat -> Env) (first n : nat) (w : World) :
  (forall k, validDraws (envs k)) ->
  Forall particleOk (particles (gameState w)) ->
  Forall (fun p => particleOk p /\
                   (0 < particleAlpha p)%Q /\ (particleAlpha p < 5 # 3)%Q)
         (particles (gameState (run envs first n w))).
Proof.
  intros V H.
  assert (K : Forall particleOk (particles (gameState (run envs first n w)))).
  { revert first w H. induction n as [|n IH]; intros first w H; cbn [run]; [exact H|].
    apply IH. unfold updateGame.
    destruct (gameOver (gameState w) || paused (gameState w)); [exact H|].
    cbn [gameState]. rewrite updater_particles.
    apply particleOk_move.
    apply (particlesFresh_before (envs first) (wave (gameState w)) (V first) (startMem w)).
    apply particleOk_fresh, H. }
  apply Forall_forall. intros p Hp.
  pose proof (proj1 (Forall_forall _ _) K p Hp) as O.
  split; [exact O | apply particleOk_alpha, O].
Qed.

Lemma particles_well_formed_witness :
  Forall (fun p => particleOk p /\
                   (0 < particleAlpha p)%Q /\ (particleAlpha p < 5 # 3)%Q)
         (particles (gameState (run oneShot 0 150 initialWorld))).
Proof.
  apply (particles_well_formed oneShot 0 150 initialWorld).
  - intros [|[|k]] [|[|j]]; split; vm_compute; reflexivity || discriminate.
  - constructor.
Defined.

(** * The projectile phases over the whole list and the whole step *)

(** ** Enemy projectiles: absorption over the step *)

Lemma absorbDamage_view (d : Z) (p q : Player.t) :
  damageView p = damageView q ->
  damageView (absorbDamage d p) = damageView (absorbDamage d q).
Proof.
  unfold damageView. intro H.
  pose proof (f_equal fst H) as Hs. pose proof (f_equal snd H) as Hh.
  cbn [fst snd] in Hs, Hh.
  destruct (absorbDamage_fields d p) as (Pp & Pz & _).
  destruct (absorbDamage_fields d q) as (Qp & Qz & _).
  cbv zeta in *.
  destruct (Z_lt_le_dec 0 (Player.shield p)) as [L | L].
  - destruct Pp as [A B]; [lia|]. destruct Qp as [C D]; [lia|].
    rewrite A, B, C, D, Hs, Hh. reflexivity.
  - destruct Pz as [A B]; [lia|]. destruct Qz as [C D]; [lia|].
    rewrite A, B, C, D, Hs, Hh. reflexivity.
Qed.

Lemma absorbAll_view (hits : list AlienBullet.t) (p q : Player.t) :
  damageView p = damageView q ->
  damageView (absorbAll hits p) = damageView (absorbAll hits q).
Proof.
  revert p q. induction hits as [|ab hits IH]; intros p q H; [exact H|].
  cbn [absorbAll fold_left]. apply IH, absorbDamage_view, H.
Qed.

Lemma strikes_obj (p q : Player.t) (ab : AlienBullet.t) :
  Player.obj p = Player.obj q -> strikes p ab = strikes q ab.
Proof.
  intro E. unfold strikes. rewrite E. reflexivity.
Qed.

(** The whole enemy-projectile [filter]: the striking projectiles are
    absorbed one after the other, in the order of the list. *)
Lemma filterM_alien_absorb (l : list AlienBullet.t) env m :
  let p := player (newState m) in
  let p' := player (newState (exec (filterM alienBulletFilter l) env m)) in
  damageView p' = damageView (absorbAll (filter (strikes p) l) p) /\
  Player.obj p' = Player.obj p.
Proof.
  revert m. induction l as [|a l IH]; intros m p p'; [split; reflexivity|].
  subst p'. cbn [filterM filter]. rewrite !exec_bind.
  change (exec (ret _) env ?mm) with mm.
  destruct (strikes p a) eqn:S.
  - destruct (alienBulletFilter_strike env m a S) as [_ E].
    set (m1 := exec (alienBulletFilter a) env m) in *.
    fold p in E.
    match type of E with
    | _ = absorbDamage ?d ?q =>
        destruct (absorbDamage_fields d q) as (_ & _ & _ & _ & _ & O);
        pose proof (absorbDamage_view d q p eq_refl) as V
    end.
    cbv zeta in O. rewrite <- E in O, V. cbn [Player.obj Player.set_shieldRegenCooldown
      Player.set_lastDamaged] in O.
    destruct (IH m1) as [I1 I2].
    split; [|rewrite I2; exact O].
    rewrite I1.
    rewrite (filter_ext (strikes (player (newState m1))) (strikes p))
      by (intro ab; apply strikes_obj, O).
    cbn [absorbAll fold_left]. apply absorbAll_view, V.
  - rewrite (alienBulletFilter_miss env m a S). apply IH.
Qed.

Lemma existsb_filter {A} (f : A -> bool) (l : list A) :
  filter f l <> [] -> existsb f l = true.
Proof.
  induction l as [|a l IH]; cbn; [congruence|].
  destruct (f a); [reflexivity | exact IH].
Qed.

(** The enemy-projectile phase. *)
Lemma exec_updateAlienBullets env m :
  player (newState (exec updateAlienBullets env m))
  = player (newState
      (exec (filterM alienBulletFilter
               (map moveAlienBullet (alienBullets (newState m)))) env m)).
Proof. reflexivity. Qed.

Lemma updateAlienBullets_absorb env m (l : list AlienBullet.t) :
  alienBullets (newState m) = l ->
  damageView (player (newState (exec updateAlienBullets env m)))
  = damageView
      (absorbAll (filter (strikes (player (newState m))) (map moveAlienBullet l))
                 (player (newState m))) /\
  (filter (strikes (player (newState m))) (map moveAlienBullet l) <> [] ->
   Player.shieldRegenCooldown (player (newState (exec updateAlienBullets env m)))
   = 180).
Proof.
  intros <-. rewrite exec_updateAlienBullets. split.
  - apply filterM_alien_absorb.
  - intro N. apply filterM_alien_hit, existsb_filter, N.
Qed.

Lemma exec_seq4 (a b c t : M unit) env m :
  exec (a ;; b ;; c ;; t) env m
  = exec t env (exec c env (exec b env (exec a env m))).
Proof. reflexivity. Qed.

(** From the enemy projectiles to the end of the updater the player is only
    written by the projectile phase and by shield regeneration. *)
Lemma rest_player env m prevScore :
  player (newState
    (exec (updateAlienBullets ;; enemyShooting ;; modifyPlayer shieldRegen ;;
           updateParticles ;; waveProgression prevScore ;; checkGameOver) env m))
  = shieldRegen (player (newState (exec updateAlienBullets env m))).
Proof.
  rewrite exec_seq4.
  set (m7 := exec updateAlienBullets env m).
  set (m8 := exec enemyShooting env m7).
  assert (P8 : player (newState m8) = player (newState m7)).
  { assert (K : preserves (fun m' => player (newState m') = player (newState m7))
                          enemyShooting)
      by (unfold enemyShooting, enemyShoot; frame).
    apply K. reflexivity. }
  assert (K : preserves (fun m' => player (newState m') = shieldRegen (player (newState m7)))
                        (updateParticles ;; waveProgression prevScore ;; checkGameOver))
    by (unfold updateParticles, waveProgression, checkGameOver; frame).
  apply K.
  change (shieldRegen (player (newState m8)) = shieldRegen (player (newState m7))).
  rewrite P8. reflexivity.
Qed.

Lemma shieldRegen_locked (p : Player.t) :
  Player.shieldRegenCooldown p = 180 -> Player.shield (shieldRegen p) = Player.shield p.
Proof.
  destruct p as [o h mh s ms c ld af]. cbn. intros ->. unfold shieldRegen. cbn.
  rewrite andb_false_r. reflexivity.
Qed.

(** The phases before the enemy projectiles leave the list of enemy
    projectiles alone. *)
Lemma shots_before cw env w :
  alienBullets (newState (exec (beforeAlienBullets cw) env (startMem w)))
  = alienBullets (gameState w).
Proof.
  pose proof (untouched_phases (fun _ l => l = alienBullets (gameState w)) cw 0)
    as (P1 & P2 & P3 & P4 & _).
  assert (K : preserves (fun m => alienBullets (newState m) = alienBullets (gameState w))
                        (beforeAlienBullets cw)).
  { unfold beforeAlienBullets.
    apply preserves_bind; [unfold playerControl; frame | intros _].
    apply preserves_bind; [exact P1 | intros _].
    apply preserves_bind; [exact P2 | intros _].
    apply preserves_bind; [exact P3 | intros _].
    apply preserves_bind; [unfold updateEnemies, enemyFilter; frame | intros _].
    exact P4. }
  apply K. reflexivity.
Qed.

Lemma exec_four_two (a1 a2 a3 a4 a5 a6 : M unit) env m :
  exec (a1 ;; a2 ;; a3 ;; a4 ;; a5 ;; a6) env m
  = exec a6 env (exec a5 env (exec (a1 ;; a2 ;; a3 ;; a4) env m)).
Proof. reflexivity. Qed.

(** Before the enemy projectiles, the health of the player is only written
    by the contact with the enemies. *)
Lemma health_before env w :
  Player.health (playerBeforeShots env w) = healthOf w - contactLoss env w.
Proof.
  unfold playerBeforeShots, contactLoss, beforeAlienBullets.
  rewrite (exec_four_two playerControl playerShooting updateBullets
             (spawnEnemies (wave (gameState w))) updateEnemies bulletEnemyCollisions).
  fold (beforeEnemies (wave (gameState w))).
  set (m4 := exec (beforeEnemies (wave (gameState w))) env (startMem w)).
  cbv zeta.
  destruct (updateEnemies_spec env m4) as (G & _ & _). cbv zeta in G.
  set (m5 := exec updateEnemies env m4) in *.
  pose proof (untouched_phases (fun p _ => p = player (newState m5))
                (wave (gameState w)) 0) as (_ & _ & _ & P4 & _).
  rewrite (P4 env m5 eq_refl), G. cbn [Player.health Player.set_health].
  f_equal.
  pose proof (untouched_phases (fun p _ => Player.health p = healthOf w)
                (wave (gameState w)) 0) as (P1 & P2 & P3 & _).
  assert (K : preserves (fun m => Player.health (player (newState m)) = healthOf w)
                        (beforeEnemies (wave (gameState w)))).
  { unfold beforeEnemies.
    apply preserves_bind; [unfold playerControl; frame | intros _].
    apply preserves_bind; [exact P1 | intros _].
    apply preserves_bind; [exact P2 | intros _]. exact P3. }
  apply K. reflexivity.
Qed.

(** The player at the end of a step that is executed. *)
Lemma step_player env w :
  running w = true ->
  player (gameState (updateGame env w))
  = shieldRegen (player (newState
      (exec updateAlienBullets env
         (exec (beforeAlienBullets (wave (gameState w))) env (startMem w))))).
Proof.
  intro R. rewrite (updateGame_running env w R), updater_split.
  apply rest_player.
Qed.

Lemma shield_before env w : Player.shield (playerBeforeShots env w) = shieldOf w.
Proof.
  pose proof (before_regenView (wave (gameState w)) env w) as V.
  apply (f_equal (fun v => fst (fst v))) in V. exact V.
Qed.

(** Health and shield after the enemy projectiles and the regeneration. *)
Lemma absorb_then_regen env m (l : list AlienBullet.t) :
  alienBullets (newState m) = l ->
  Player.health (shieldRegen (player (newState (exec updateAlienBullets env m))))
  = Player.health
      (absorbAll (filter (strikes (player (newState m))) (map moveAlienBullet l))
                 (player (newState m))) /\
  (filter (strikes (player (newState m))) (map moveAlienBullet l) <> [] ->
   Player.shield (shieldRegen (player (newState (exec updateAlienBullets env m))))
   = Player.shield
       (absorbAll (filter (strikes (player (newState m))) (map moveAlienBullet l))
                  (player (newState m)))).
Proof.
  intro E. destruct (updateAlienBullets_absorb env m l E) as [V L].
  pose proof (f_equal fst V) as Vs. pose proof (f_equal snd V) as Vh.
  unfold damageView in Vs, Vh. cbn [fst snd] in Vs, Vh.
  split.
  - rewrite <- Vh. apply shieldRegen_others.
  - intro N. rewrite <- Vs. apply shieldRegen_locked, L, N.
Qed.

(** Health and shield at the end of a step that is executed. *)
Lemma step_absorb env w :
  running w = true ->
  healthOf (updateGame env w)
  = Player.health (absorbAll (frameHits env w) (playerBeforeShots env w)) /\
  (frameHits env w <> [] ->
   shieldOf (updateGame env w)
   = Player.shield (absorbAll (frameHits env w) (playerBeforeShots env w))).
Proof.
  intro R. unfold healthOf, shieldOf, frameHits, playerBeforeShots.
  rewrite (step_player env w R).
  exact (absorb_then_regen env
           (exec (beforeAlienBullets (wave (gameState w))) env (startMem w))
           (alienBullets (gameState w))
           (shots_before (wave (gameState w)) env w)).
Qed.

(** C1: in a Simulation Step that is executed, the enemy projectiles
    that overlap the player (once moved, and still on screen) are absorbed
    one after the other, shield first.  The shield the absorption starts
    from is the shield of the world, and the health it starts from is the
    health of the world less what the enemies took by contact earlier in
    the step.  For one projectile of damage d: with a positive shield the
    shield ends at max 0 (shield - d) and health loses what the shield
    could not take; with the shield at 0 the whole damage is taken from
    health; health is floored at 0.  With shield 10 and damage 25 the
    shield ends at 0 and health loses 15; with shield 30 and damage 10 the
    shield ends at 20 and health is untouched; with shield 0 and damage 8
    health loses 8, floored at 0. *)
Theorem alienBullet_shield_first (env : Env) (w : World) :
  running w = true ->
  let p0 := playerBeforeShots env w in
  let h0 := Player.health p0 in
  let hits := frameHits env w in
  let w' := updateGame env w in
  Player.shield p0 = shieldOf w /\
  h0 = healthOf w - contactLoss env w /\
  healthOf w' = Player.health (absorbAll hits p0) /\
  (hits <> [] -> shieldOf w' = Player.shield (absorbAll hits p0)) /\
  (forall ab, hits = [ab] ->
     let d := AlienBullet.damage ab in
     (shieldOf w > 0 ->
      shieldOf w' = Z.max 0 (shieldOf w - d) /\
      healthOf w' = Z.max 0 (h0 + Z.min 0 (shieldOf w - d))) /\
     (shieldOf w = 0 ->
      shieldOf w' = 0 /\ healthOf w' = Z.max 0 (h0 - d)) /\
     (shieldOf w = 10 -> d = 25 -> h0 >= 15 ->
      shieldOf w' = 0 /\ healthOf w' = h0 - 15) /\
     (shieldOf w = 30 -> d = 10 -> h0 >= 15 ->
      shieldOf w' = 20 /\ healthOf w' = h0) /\
     (shieldOf w = 0 -> d = 8 ->
      shieldOf w' = 0 /\ healthOf w' = Z.max 0 (h0 - 8))).
Proof.
  intros R p0 h0 hits w'.
  pose proof (shield_before env w) as S0.
  destruct (step_absorb env w R) as [H' S'].
  fold p0 hits w' in S0, H', S'.
  split; [exact S0|]. split; [apply health_before|].
  split; [exact H'|]. split; [exact S'|].
  intros ab Hab d.
  assert (N : hits <> []) by (rewrite Hab; discriminate).
  specialize (S' N). rewrite Hab in H', S'. cbn [absorbAll fold_left] in H', S'.
  fold d in H', S'.
  destruct (absorbDamage_fields d p0) as (Hpos & Hzero & _).
  cbv zeta in Hpos, Hzero. rewrite S0 in Hpos, Hzero. fold h0 in Hpos, Hzero.
  rewrite H', S'.
  split; [intro G; apply Hpos; lia|].
  split; [intro G; destruct Hzero as [A B]; [lia | rewrite A, B; split; [exact G | reflexivity]]|].
  split; [intros G D Hh; destruct Hpos as [A B]; [lia | rewrite A, B; lia]|].
  split; [intros G D Hh; destruct Hpos as [A B]; [lia | rewrite A, B; lia]|].
  intros G D. destruct Hzero as [A B]; [lia | rewrite A, B, D; split; [exact G | reflexivity]].
Qed.

Lemma alienBullet_shield_first_witness :
  (shieldOf (updateGame idleEnv (shotWorld 10 25)) = 0 /\
   healthOf (updateGame idleEnv (shotWorld 10 25))
   = Player.health (playerBeforeShots idleEnv (shotWorld 10 25)) - 15) /\
  shieldOf (updateGame (oneShot 145) (run oneShot 0 145 initialWorld))
  = Z.max 0 (shieldOf (run oneShot 0 145 initialWorld) - 8).
Proof.
  split.
  - pose proof (alienBullet_shield_first idleEnv (shotWorld 10 25) eq_refl) as H.
    cbv zeta in H. destruct H as (_ & _ & _ & _ & H).
    refine (proj1 (proj2 (proj2 (H (moveAlienBullet (probeShot 25)) _))) _ _ _).
    + vm_compute. reflexivity.
    + reflexivity.
    + reflexivity.
    + vm_compute. discriminate.
  - assert (R : running (run oneShot 0 145 initialWorld) = true)
      by (vm_compute; reflexivity).
    pose proof (alienBullet_shield_first (oneShot 145)
                  (run oneShot 0 145 initialWorld) R) as H.
    cbv zeta in H. destruct H as (_ & _ & _ & _ & H).
    assert (E : exists ab, frameHits (oneShot 145) (run oneShot 0 145 initialWorld) = [ab]
                           /\ AlienBullet.damage ab = 8).
    { vm_compute. eexists. split; reflexivity. }
    destruct E as (ab & E & D).
    rewrite <- D. refine (proj1 (proj1 (H ab E) _)).
    vm_compute. reflexivity.
Defined.

(** ** Player projectiles: the whole collision phase *)

Lemma firstOverlap_spec (b : Bullet.t) (es : list Enemy.t) (n : nat) :
  match firstOverlap b es n with
  | None =>
      forall j e', (j < n)%nat -> nth_error es j = Some e' -> checkCollision b e' = false
  | Some (i, e) =>
      (i < n)%nat /\ nth_error es i = Some e /\ checkCollision b e = true /\
      forall j e', (i < j < n)%nat -> nth_error es j = Some e' ->
                   checkCollision b e' = false
  end.
Proof.
  induction n as [|n IH]; cbn [firstOverlap].
  - intros j e' Hj. lia.
  - destruct (nth_error es n) as [e|] eqn:N.
    + destruct (checkCollision b e) eqn:C.
      * repeat split; try assumption; try lia.
      * destruct (firstOverlap b es n) as [[i e0]|].
        -- destruct IH as (I1 & I2 & I3 & I4).
           repeat split; try assumption; try lia.
           intros j e' Hj Hnth.
           destruct (Nat.eq_dec j n) as [-> | Hne]; [congruence|].
           apply (I4 j e'); [lia | exact Hnth].
        -- intros j e' Hj Hnth.
           destruct (Nat.eq_dec j n) as [-> | Hne]; [congruence|].
           apply (IH j e'); [lia | exact Hnth].
    + destruct (firstOverlap b es n) as [[i e0]|].
      * destruct IH as (I1 & I2 & I3 & I4).
        repeat split; try assumption; try lia.
        intros j e' Hj Hnth.
        destruct (Nat.eq_dec j n) as [-> | Hne]; [congruence|].
        apply (I4 j e'); [lia | exact Hnth].
      * intros j e' Hj Hnth.
        destruct (Nat.eq_dec j n) as [-> | Hne]; [congruence|].
        apply (IH j e'); [lia | exact Hnth].
Qed.

(** The scan of the code is the scan [firstOverlap], followed by the hit. *)
Lemma scanEnemies_firstOverlap env (b : Bullet.t) (n : nat) (m : Mem) :
  match firstOverlap b (enemies (newState m)) n with
  | None => eval (scanEnemies b n) env m = true /\ exec (scanEnemies b n) env m = m
  | Some (i, e) =>
      eval (scanEnemies b n) env m = false /\
      exec (scanEnemies b n) env m = exec (bulletHit b i e) env m
  end.
Proof.
  induction n as [|n IH]; cbn [firstOverlap scanEnemies]; [split; reflexivity|].
  rewrite eval_bind, exec_bind.
  change (eval getState env m) with (newState m).
  change (exec getState env m) with m.
  destruct (nth_error (enemies (newState m)) n) as [e|]; [|exact IH].
  destruct (checkCollision b e); [split; reflexivity | exact IH].
Qed.

Lemma bullets_bulletHit l b i e :
  preserves (fun m => bullets (newState m) = l) (bulletHit b i e).
Proof. unfold bulletHit; cbv zeta; frame. Qed.

(** The callback on one bullet, on the enemy list and the score. *)
Lemma bulletFilter_resolve env (b : Bullet.t) (m : Mem) :
  let st := (enemies (newState m), score (newState m)) in
  let m' := exec (bulletFilter b) env m in
  bullets (newState m') = bullets (newState m) /\
  match firstOverlap b (fst st) (List.length (fst st)) with
  | None =>
      eval (bulletFilter b) env m = true /\
      (enemies (newState m'), score (newState m')) = st
  | Some (i, e) =>
      eval (bulletFilter b) env m = false /\
      (enemies (newState m'), score (newState m')) = hitEnemy i e st
  end.
Proof.
  intros st m'. subst st m'. cbn [fst].
  unfold bulletFilter. rewrite eval_bind, exec_bind.
  change (eval getState env m) with (newState m).
  change (exec getState env m) with m.
  pose proof (scanEnemies_firstOverlap env b (List.length (enemies (newState m))) m) as S.
  destruct (firstOverlap b (enemies (newState m)) (List.length (enemies (newState m))))
    as [[i e]|].
  - destruct S as [S1 S2]. rewrite S1, S2.
    split; [apply (bullets_bulletHit _ b i e env m); reflexivity|].
    split; [reflexivity|].
    destruct (bulletHit_spec env m b i e) as [H1 H2]. cbv zeta in H1, H2.
    rewrite H1, H2. unfold hitEnemy. cbn [fst snd].
    destruct (Enemy.health e - 1 <=? 0); [reflexivity|].
    rewrite Z.add_0_r. reflexivity.
  - destruct S as [S1 S2]. rewrite S1, S2. repeat split.
Qed.

(** The bullet [filter] over a list of bullets. *)
Lemma filterM_bulletFilter_resolve env (bs : list Bullet.t) (m : Mem) :
  let r := resolveBullets bs (enemies (newState m), score (newState m)) in
  let m' := exec (filterM bulletFilter bs) env m in
  eval (filterM bulletFilter bs) env m = fst r /\
  (enemies (newState m'), score (newState m')) = snd r /\
  bullets (newState m') = bullets (newState m).
Proof.
  revert m. induction bs as [|b bs IH]; intros m r m'; [repeat split|].
  subst r m'. cbn [filterM resolveBullets].
  rewrite !eval_bind, !exec_bind.
  change (exec (ret _) env ?mm) with mm.
  change (eval (ret ?v) env _) with v.
  destruct (bulletFilter_resolve env b m) as [B F]. cbv zeta in B, F. cbn [fst] in F |- *.
  set (m1 := exec (bulletFilter b) env m) in *.
  destruct (IH m1) as (I1 & I2 & I3). cbv zeta in I1, I2, I3.
  destruct (firstOverlap b (enemies (newState m)) (List.length (enemies (newState m))))
    as [[i e]|].
  - destruct F as [F1 F2]. rewrite F1, I1, I2, I3, B, F2. repeat split.
  - destruct F as [F1 F2]. rewrite F1, I1, I2, I3, B, F2. repeat split.
Qed.

(** The collision phase, as a whole. *)
Lemma bulletEnemyCollisions_resolve env (m : Mem) :
  let r := resolveBullets (bullets (newState m))
                          (enemies (newState m), score (newState m)) in
  let m' := exec bulletEnemyCollisions env m in
  bullets (newState m') = fst r /\
  (enemies (newState m'), score (newState m')) = snd r.
Proof.
  intros r m'.
  destruct (filterM_bulletFilter_resolve env (bullets (newState m)) m) as (I1 & I2 & _).
  cbv zeta in I1, I2. fold r in I1, I2.
  subst m'. unfold bulletEnemyCollisions.
  rewrite !exec_bind.
  change (eval getState env m) with (newState m).
  change (exec getState env m) with m.
  rewrite I1. split; [reflexivity|]. exact I2.
Qed.

(** Counting: what one hit does to the enemy list. *)
Lemma totalHealth_app l1 l2 : totalHealth (l1 ++ l2) = totalHealth l1 + totalHealth l2.
Proof. induction l1 as [|a l1 IH]; cbn; [reflexivity | rewrite IH; lia]. Qed.

Lemma nth_error_split_at {A} (l : list A) (i : nat) (e : A) :
  nth_error l i = Some e -> skipn i l = e :: skipn (S i) l.
Proof.
  revert i. induction l as [|a l IH]; intros [|i] H; cbn in *; try discriminate.
  - injection H as ->. reflexivity.
  - apply IH, H.
Qed.

Lemma hitEnemy_counts (i : nat) (e : Enemy.t) (es : list Enemy.t) (sc : Z) :
  nth_error es i = Some e ->
  let st' := hitEnemy i e (es, sc) in
  (List.length (fst st') <= List.length es <= S (List.length (fst st')))%nat /\
  sc <= snd st' <= sc + 50 /\
  (Forall alive es ->
   Forall alive (fst st') /\ totalHealth (fst st') = totalHealth es - 1).
Proof.
  intros N st'. subst st'. unfold hitEnemy. cbn [fst snd].
  pose proof (nth_error_split_at es i e N) as K.
  assert (T : totalHealth es
              = totalHealth (firstn i es) + Enemy.health e + totalHealth (skipn (S i) es)).
  { rewrite <- (firstn_skipn i es) at 1. rewrite totalHealth_app, K. cbn. lia. }
  assert (Li : (i < List.length es)%nat) by (apply nth_error_Some; congruence).
  destruct (Z.leb_spec (Enemy.health e - 1) 0) as [D | D]; cbn [fst snd].
  - repeat split.
    + apply splice1_length.
    + unfold splice1. rewrite length_app, firstn_length_le, length_skipn by lia. lia.
    + pose proof (killPoints_bounds (Enemy.type e)). lia.
    + pose proof (killPoints_bounds (Enemy.type e)). lia.
    + apply Forall_splice1. assumption.
    + unfold splice1. rewrite totalHealth_app, T.
      assert (A : alive e).
      { apply (proj1 (Forall_forall _ _) H e). eapply nth_error_In, N. }
      unfold alive in A. lia.
  - repeat split; try lia.
    + rewrite list_set_length. lia.
    + rewrite list_set_length. lia.
    + apply Forall_list_set; [unfold alive; cbn; lia | assumption].
    + unfold list_set. rewrite K, totalHealth_app, T. cbn. lia.
Qed.

Lemma resolveBullets_counts (bs : list Bullet.t) (es : list Enemy.t) (sc : Z) :
  let r := resolveBullets bs (es, sc) in
  let removed := Z.of_nat (List.length bs) - Z.of_nat (List.length (fst r)) in
  0 <= removed /\
  0 <= Z.of_nat (List.length es) - Z.of_nat (List.length (fst (snd r))) <= removed /\
  sc <= snd (snd r) <= sc + 50 * removed /\
  (Forall alive es ->
   Forall alive (fst (snd r)) /\
   totalHealth (fst (snd r)) = totalHealth es - removed).
Proof.
  revert es sc. induction bs as [|b bs IH]; intros es sc r removed.
  - subst r removed. cbn.
    split; [lia|]. split; [lia|]. split; [lia|].
    intro A. split; [exact A | lia].
  - subst r removed. cbn [resolveBullets fst].
    pose proof (firstOverlap_spec b es (List.length es)) as F.
    destruct (firstOverlap b es (List.length es)) as [[i e]|].
    + destruct F as (_ & N & _).
      destruct (hitEnemy_counts i e es sc N) as (C1 & C2 & C3). cbv zeta in C1, C2, C3.
      destruct (hitEnemy i e (es, sc)) as [es1 sc1] eqn:E. cbn [fst snd] in C1, C2, C3.
      specialize (IH es1 sc1). cbv zeta in IH.
      destruct IH as (I1 & I2 & I3 & I4).
      cbn [List.length].
      split; [lia|]. split; [lia|]. split; [lia|].
      intro A. destruct (C3 A) as [A1 A2]. destruct (I4 A1) as [A3 T].
      split; [exact A3 | lia].
    + specialize (IH es sc). cbv zeta in IH.
      destruct IH as (I1 & I2 & I3 & I4).
      cbn [fst snd List.length].
      split; [lia|]. split; [lia|]. split; [lia|].
      intro A. destruct (I4 A) as [A3 T]. split; [exact A3 | lia].
Qed.

(** The enemies of every world the session can reach are alive, and in a
    frame from such a world they still are when the collision phase
    starts. *)
Lemma alive_reachable (w : World) :
  reachable w -> Forall alive (enemies (gameState w)).
Proof.
  intro R. induction R as [| env w R IH | w R IH | w R IH].
  - constructor.
  - unfold updateGame.
    destruct (gameOver (gameState w) || paused (gameState w)); [exact IH|].
    cbn [gameState].
    apply (allAlive_updater (wave (gameState w)) env (startMem w)). exact IH.
  - exact IH.
  - constructor.
Qed.

Lemma collision_phase_enemies_alive (env : Env) (w : World) :
  reachable w ->
  let m := exec (beforeEnemies (wave (gameState w)) ;; updateEnemies) env (startMem w) in
  Forall alive (enemies (newState m)).
Proof.
  intros R m.
  assert (K : preserves allAlive (beforeEnemies (wave (gameState w)) ;; updateEnemies)).
  { apply preserves_bind; [|intros _; apply allAlive_updateEnemies].
    unfold beforeEnemies.
    apply preserves_bind; [unfold playerControl; unfold allAlive; frame | intros _].
    apply preserves_bind; [unfold playerShooting; unfold allAlive; frame | intros _].
    apply preserves_bind; [unfold updateBullets; unfold allAlive; frame | intros _].
    apply allAlive_spawnEnemies. }
  apply (K env (startMem w)). exact (alive_reachable w R).
Qed.

(** C6: the player-projectile-vs-enemy phase resolves the bullets of
    the state one after the other, in order, each against the enemy list as
    the earlier bullets left it.  A bullet that overlaps no enemy stays; a
    bullet that overlaps one is removed from the bullet list, and only the
    first enemy the downward scan meets (the last overlapping one of the
    list) is hit: it loses exactly 1 health and, when that leaves it at 0
    or less, it is removed and the score grows by 10 (scout), 25 (heavy) or
    50 (boss).  So over the phase the enemies lose no more members than
    bullets are removed, the score grows by at most 50 per removed bullet,
    and, the enemies being alive, their health together falls by exactly
    one per removed bullet.  Scout, heavy and boss add up to 85. *)
Theorem bullet_resolves_once (env : Env) (m : Mem) :
  let bs := bullets (newState m) in
  let es := enemies (newState m) in
  let sc := score (newState m) in
  let m' := exec bulletEnemyCollisions env m in
  let bs' := bullets (newState m') in
  let es' := enemies (newState m') in
  let sc' := score (newState m') in
  let removed := Z.of_nat (List.length bs) - Z.of_nat (List.length bs') in
  (bs', (es', sc')) = resolveBullets bs (es, sc) /\
  (forall (b : Bullet.t) (l : list Enemy.t),
      match firstOverlap b l (List.length l) with
      | None => forall e, In e l -> checkCollision b e = false
      | Some (i, e) =>
          nth_error l i = Some e /\ checkCollision b e = true /\
          forall j e', (i < j)%nat -> nth_error l j = Some e' ->
                       checkCollision b e' = false
      end) /\
  (forall (i : nat) (e : Enemy.t) (l : list Enemy.t) (s : Z),
      (Enemy.health e - 1 > 0 ->
       hitEnemy i e (l, s)
       = (list_set i (Enemy.set_health (Enemy.health e - 1) e) l, s)) /\
      (Enemy.health e - 1 <= 0 ->
       hitEnemy i e (l, s) = (splice1 i l, s + killPoints (Enemy.type e)))) /\
  0 <= removed /\
  0 <= Z.of_nat (List.length es) - Z.of_nat (List.length es') <= removed /\
  sc <= sc' <= sc + 50 * removed /\
  (Forall alive es ->
   Forall alive es' /\ totalHealth es' = totalHealth es - removed) /\
  killPoints scout = 10 /\ killPoints heavy = 25 /\ killPoints boss = 50 /\
  0 + killPoints scout + killPoints heavy + killPoints boss = 85.
Proof.
  intros bs es sc m' bs' es' sc' removed.
  destruct (bulletEnemyCollisions_resolve env m) as [R1 R2]. cbv zeta in R1, R2.
  fold bs es sc m' in R1, R2. fold bs' in R1. fold es' sc' in R2.
  pose proof (resolveBullets_counts bs es sc) as C. cbv zeta in C.
  destruct (resolveBullets bs (es, sc)) as [kept [es1 sc1]] eqn:E.
  cbn [fst snd] in R1, R2, C.
  injection R2 as R2 R3.
  subst removed. rewrite R1, R2, R3.
  split; [reflexivity|].
  split.
  { intros b l. pose proof (firstOverlap_spec b l (List.length l)) as F.
    destruct (firstOverlap b l (List.length l)) as [[i e]|].
    - destruct F as (F1 & F2 & F3 & F4). repeat split; try assumption.
      intros j e' Hj Hnth. apply (F4 j e'); [|exact Hnth].
      split; [exact Hj|]. apply nth_error_Some. congruence.
    - intros e He. apply In_nth_error in He. destruct He as [j Hj].
      apply (F j e); [|exact Hj]. apply nth_error_Some. congruence. }
  split.
  { intros i e l s. unfold hitEnemy. cbn [fst snd].
    destruct (Z.leb_spec (Enemy.health e - 1) 0); split; intro; try lia; reflexivity. }
  destruct C as (C1 & C2 & C3 & C4).
  split; [exact C1|]. split; [exact C2|]. split; [exact C3|]. split; [exact C4|].
  repeat split.
Qed.

Lemma bullet_resolves_once_witness :
  let m := startMem threeKillsWorld in
  let m' := exec bulletEnemyCollisions idleEnv m in
  totalHealth (enemies (newState m'))
  = totalHealth (enemies (newState m))
    - (Z.of_nat (List.length (bullets (newState m)))
       - Z.of_nat (List.length (bullets (newState m')))).
Proof.
  pose proof (bullet_resolves_once idleEnv (startMem threeKillsWorld)) as H.
  cbv zeta in H. destruct H as (_ & _ & _ & _ & _ & _ & H & _).
  refine (proj2 (H _)).
  repeat constructor; unfold alive; cbn; lia.
Defined.
